(** * Subscription tree and source adapters: a shallow embedding

    This development models [src/internal/Subscription.ts] and
    [src/internal/create/from.ts].

    - Tokens ([Subscription] objects) live in a store indexed by their
      identity; a reference that was never written denotes a freshly
      constructed [new Subscription()].
    - User supplied callbacks (teardown functions, release actions, sinks)
      are programs of a small command language that can call back into
      [unsubscribe], [add] and [remove], log an effect, read a token's
      [closed] flag, throw and catch.
    - Methods run in a state-and-exception monad that also records a trace
      of what happened; recursion through stored callbacks is bounded by a
      fuel argument, and every run is shown to end for enough fuel. *)

From stdpp Require Import base option list gmap strings.

From Stdlib Require Import Lia.

Set Warnings "-register-all".

(** ** Values, callbacks and tokens *)

(** Identity of a [Subscription] object. *)
Abbreviation ref := nat (only parsing).

(** JavaScript values that flow through the two files: message payloads and
    thrown things.  An error object is modelled by its content at the time
    it is raised.  [VUnsubscriptionError] is modelled from the spec: the
    class of [./util/UnsubscriptionError] is not in the sources; the spec
    describes it as the container of the errors raised by one disposal
    pass, and [unsubscribe] reads its [errors]. *)
Inductive value :=
| VUndefined
| VNum (n : nat)
| VStr (s : string)
| VError (message : string)
| VTypeError (message : string)
| VUnsubscriptionError (errors : list value).

(** Modelled from the spec: [FOType] of [../types], which is not in the
    sources, is the set of the four message types of the protocol. *)
Inductive FOType := SUBSCRIBE | NEXT | ERROR | COMPLETE.

(** Statements of a callback body, and teardowns.  [TeardownLogic] is
    declared in [./types], which is not in the sources; [add] and
    [unsubscribe] tell apart a function ([typeof teardown === 'function']),
    a [Subscription] ([instanceof]) and, as the comment of [add] names them,
    other unsubscribable objects.  Functions and objects carry a tag
    standing for their identity. *)
Inductive cmd :=
| CLog (n : nat)
| CUnsubscribe (s : ref)
| CAdd (s : ref) (t : option Teardown)
| CRemove (s : ref) (t : Teardown)
| CThrow (e : value)
| CTry (body : list cmd)
| CIfClosed (s : ref) (yes no : list cmd)
with Teardown :=
| TFun (f : nat) (body : list cmd)
| TSub (s : ref)
| TObj (o : nat) (body : list cmd).

(** [TeardownLogic]: a teardown or [undefined]. *)
Abbreviation TeardownLogic := (option Teardown) (only parsing).

(** The fields of a [Subscription] instance. *)
Record Subscription := mkSubscription {
  closed : bool;
  _singleParent : option ref;
  _parents : option (list ref);
  _teardowns : option (list Teardown);
  _unsubscribe : option (list cmd);
  _ctorUnsubscribe : bool
}.

(** [new Subscription(unsubscribe?)] *)
Definition new_Subscription (unsubscribe : option (list cmd)) : Subscription :=
  {| closed := false; _singleParent := None; _parents := None;
     _teardowns := None; _unsubscribe := unsubscribe;
     _ctorUnsubscribe := bool_decide (is_Some unsubscribe) |}.

(** [Subscription.EMPTY]: a fresh instance whose [closed] is forced. *)
Definition EMPTY : Subscription :=
  (fun empty => {| closed := true;
                   _singleParent := _singleParent empty;
                   _parents := _parents empty;
                   _teardowns := _teardowns empty;
                   _unsubscribe := _unsubscribe empty;
                   _ctorUnsubscribe := _ctorUnsubscribe empty |})
    (new_Subscription None).

Global Instance Subscription_inhabited : Inhabited Subscription :=
  populate (new_Subscription None).

Abbreviation heap := (gmap nat Subscription).

Definition set_closed (b : bool) (x : Subscription) : Subscription :=
  {| closed := b; _singleParent := _singleParent x; _parents := _parents x;
     _teardowns := _teardowns x; _unsubscribe := _unsubscribe x;
     _ctorUnsubscribe := _ctorUnsubscribe x |}.

Definition set_singleParent (p : option ref) (x : Subscription) : Subscription :=
  {| closed := closed x; _singleParent := p; _parents := _parents x;
     _teardowns := _teardowns x; _unsubscribe := _unsubscribe x;
     _ctorUnsubscribe := _ctorUnsubscribe x |}.

Definition set_parents (ps : option (list ref)) (x : Subscription) : Subscription :=
  {| closed := closed x; _singleParent := _singleParent x; _parents := ps;
     _teardowns := _teardowns x; _unsubscribe := _unsubscribe x;
     _ctorUnsubscribe := _ctorUnsubscribe x |}.

Definition set_teardowns (ts : option (list Teardown)) (x : Subscription) : Subscription :=
  {| closed := closed x; _singleParent := _singleParent x; _parents := _parents x;
     _teardowns := ts; _unsubscribe := _unsubscribe x;
     _ctorUnsubscribe := _ctorUnsubscribe x |}.

Definition set_unsubscribe (u : option (list cmd)) (x : Subscription) : Subscription :=
  {| closed := closed x; _singleParent := _singleParent x; _parents := _parents x;
     _teardowns := _teardowns x; _unsubscribe := u;
     _ctorUnsubscribe := _ctorUnsubscribe x |}.

(** [upd s f h]: assign to fields of the object [s]. *)
Definition upd (s : ref) (f : Subscription -> Subscription) (h : heap) : heap :=
  <[s := f (h !!! s)]> h.

(** ** The parts of [Subscription] that run no callback *)

(** [===] on teardowns is object identity. *)
Definition same_teardown (a b : Teardown) : bool :=
  match a, b with
  | TFun f _, TFun g _ => Nat.eqb f g
  | TSub s, TSub r => Nat.eqb s r
  | TObj o _, TObj p _ => Nat.eqb o p
  | _, _ => false
  end.

(** [Array.prototype.indexOf], [None] for [-1]. *)
Fixpoint indexOf {A} (same : A -> A -> bool) (l : list A) (x : A) : option nat :=
  match l with
  | [] => None
  | y :: l => if same y x then Some 0 else S <$> indexOf same l x
  end.

(** [_hasParent] *)
Definition _hasParent (this : Subscription) (parent : ref) : bool :=
  match _singleParent this with
  | Some p => Nat.eqb p parent
  | None => false
  end
  || match _parents this with
     | Some ps => existsb (Nat.eqb parent) ps
     | None => false
     end
  || false.

(** [_addParent] *)
Definition _addParent (this parent : ref) (h : heap) : heap :=
  let x := h !!! this in
  match _singleParent x with
  | Some single =>
      upd this (set_singleParent None)
        (upd this (set_parents (Some [single; parent])) h)
  | None =>
      match _parents x with
      | Some ps => upd this (set_parents (Some (ps ++ [parent]))) h
      | None => upd this (set_singleParent (Some parent)) h
      end
  end.

(** [_removeParent] *)
Definition _removeParent (this parent : ref) (h : heap) : heap :=
  let x := h !!! this in
  match _singleParent x with
  | Some single =>
      if Nat.eqb single parent then upd this (set_singleParent None) h else h
  | None =>
      match _parents x with
      | Some ps =>
          match indexOf Nat.eqb ps parent with
          | Some index => upd this (set_parents (Some (delete index ps))) h
          | None => h
          end
      | None => h
      end
  end.

(** [remove] *)
Definition remove (this : ref) (teardown : Teardown) (h : heap) : heap :=
  let h1 :=
    match _teardowns (h !!! this) with
    | Some ts =>
        match indexOf same_teardown ts teardown with
        | Some index => upd this (set_teardowns (Some (delete index ts))) h
        | None => h
        end
    | None => h
    end in
  match teardown with
  | TSub child => _removeParent child this h1
  | _ => h1
  end.

(** The first block of [unsubscribe]: "Remove this from it's parents". *)
Definition detach_from_parents (this : ref) (h : heap) : heap :=
  let x := h !!! this in
  match _singleParent x with
  | Some single =>
      remove single (TSub this) (upd this (set_singleParent None) h)
  | None =>
      match _parents x with
      | Some ps =>
          foldl (fun h parent => remove parent (TSub this) h)
                (upd this (set_parents None) h) ps
      | None => h
      end
  end.

(** ** Runs: state, exceptions, trace, fuel *)

(** What a run records, in order.  The trace is there to state the claims;
    the code keeps no such record. *)
Inductive event :=
| EvLog (n : nat)                       (* a callback's own effect *)
| EvClosed (s : ref)                    (* [s.closed] goes from false to true *)
| EvRelease (s : ref)                   (* [s] calls its [_unsubscribe] *)
| EvTeardown (s : ref) (t : Teardown)   (* the pass of [s] executes [t] *)
| EvImmediate (s : ref) (t : Teardown)  (* [s.add(t)] executes [t] at once *)
| EvPull (i : nat)                      (* [iterator.next()], at position [i] *)
| EvMsg (type : FOType) (payload : value). (* a sink receives a message *)

Abbreviation trace := (list event).

(** How a call ends: it returns, or it throws. *)
Inductive outcome (A : Type) :=
| Returned (a : A)
| Thrown (e : value).

Arguments Returned {A} a.

Arguments Thrown {A} e.

(** A computation: from a store to an outcome, the store it leaves and what
    it did.  [None] means the fuel ran out. *)
Definition M (A : Type) : Type := heap -> option (outcome A * heap * trace).

Definition ret {A} (a : A) : M A := fun h => Some (Returned a, h, []).

Definition throw {A} (e : value) : M A := fun h => Some (Thrown e, h, []).

Definition out_of_fuel {A} : M A := fun _ => None.

Definition bind {A B} (m : M A) (k : A -> M B) : M B :=
  fun h =>
    match m h with
    | None => None
    | Some (Thrown e, h1, tr1) => Some (Thrown e, h1, tr1)
    | Some (Returned a, h1, tr1) =>
        match k a h1 with
        | None => None
        | Some (r, h2, tr2) => Some (r, h2, tr1 ++ tr2)
        end
    end.

(** [try { m } catch (e) { ... }] with the result handed on as data. *)
Definition try_ {A} (m : M A) : M (outcome A) :=
  fun h =>
    match m h with
    | None => None
    | Some (r, h1, tr1) => Some (Returned r, h1, tr1)
    end.

Definition read (s : ref) : M Subscription := fun h => Some (Returned (h !!! s), h, []).

Definition modify (f : heap -> heap) : M unit := fun h => Some (Returned tt, f h, []).

Definition emit (e : event) : M unit := fun h => Some (Returned tt, h, [e]).

Declare Scope run_scope.

Delimit Scope run_scope with run.

Notation "x <- m ;; k" := (bind m (fun x => k))
  (at level 100, m at next level, right associativity) : run_scope.

Notation "m ;; k" := (bind m (fun _ => k))
  (at level 100, right associativity) : run_scope.

Local Open Scope run_scope.

(** The [catch] blocks of [unsubscribe].  [errors] is [undefined] or an
    array; an [UnsubscriptionError] contributes its [errors], anything else
    itself. *)
Definition catch_release {A} (r : outcome A) : option (list value) :=
  match r with
  | Returned _ => None
  | Thrown (VUnsubscriptionError es) => Some es
  | Thrown e => Some [e]
  end.

Definition catch_teardown {A} (errors : option (list value)) (r : outcome A)
  : option (list value) :=
  match r with
  | Returned _ => errors
  | Thrown err =>
      let errors := default [] errors in
      match err with
      | VUnsubscriptionError es => Some (errors ++ es)
      | _ => Some (errors ++ [err])
      end
  end.

(** ** [unsubscribe], [add] and the callbacks they run

    The bodies are written once, over the functions they call; the
    functions themselves are tied together by recursion on the fuel. *)

Section Bodies.
Variable exec_body : list cmd → M unit.
Variable execTeardown : Teardown → M unit.
Variable run_teardowns :
  ref → list Teardown → option (list value) → M (option (list value)).
Variable unsubscribe : ref → M unit.
Variable add : ref → TeardownLogic → M unit.

(** One statement of a callback. *)
Definition exec_cmd (c : cmd) : M unit :=
  match c with
  | CLog k => emit (EvLog k)
  | CUnsubscribe s => unsubscribe s
  | CAdd s t => add s t
  | CRemove s t => modify (remove s t)
  | CThrow e => throw e
  | CTry body => _ <- try_ (exec_body body);; ret tt
  | CIfClosed s yes no =>
      x <- read s;;
      if closed x then exec_body yes else exec_body no
  end.

(** [typeof teardown === 'function' ? teardown() : teardown.unsubscribe()] *)
Definition execTeardown_body (teardown : Teardown) : M unit :=
  match teardown with
  | TFun _ body => exec_body body
  | TSub s => unsubscribe s
  | TObj _ body => exec_body body
  end.

(** [Subscription.prototype.unsubscribe] *)
Definition unsubscribe_body (this : ref) : M unit :=
  x <- read this;;
  if closed x then ret tt
  else
    modify (upd this (set_closed true));;
    emit (EvClosed this);;
    modify (detach_from_parents this);;
    x <- read this;;
    errors <-
      match _unsubscribe x with
      | Some body =>
          (if _ctorUnsubscribe x
           then modify (upd this (set_unsubscribe None))
           else ret tt);;
          emit (EvRelease this);;
          r <- try_ (exec_body body);;
          ret (catch_release r)
      | None => ret None
      end;;
    x <- read this;;
    modify (upd this (set_teardowns None));;
    errors <-
      match _teardowns x with
      | Some ts => run_teardowns this ts errors
      | None => ret errors
      end;;
    match errors with
    | Some errors => throw (VUnsubscriptionError errors)
    | None => ret tt
    end.

(** [this._teardowns = this._teardowns ?? []; this._teardowns.push(teardown)] *)
Definition push (this : ref) (teardown : Teardown) : M unit :=
  modify (upd this (fun x =>
    set_teardowns (Some (default [] (_teardowns x) ++ [teardown])) x)).

(** [Subscription.prototype.add] *)
Definition add_body (this : ref) (teardown : TeardownLogic) : M unit :=
  match teardown with
  | None => ret tt
  | Some teardown =>
      if same_teardown teardown (TSub this) then ret tt
      else
        x <- read this;;
        if closed x then
          emit (EvImmediate this teardown);;
          execTeardown teardown
        else
          match teardown with
          | TSub child =>
              y <- read child;;
              if closed y || _hasParent y this then ret tt
              else modify (_addParent child this);; push this teardown
          | _ => push this teardown
          end
  end.
End Bodies.

Fixpoint exec (n : nat) (c : cmd) {struct n} : M unit :=
  match n with
  | 0 => out_of_fuel
  | S n => exec_cmd (exec_body n) (unsubscribe n) (add n) c
  end

with exec_body (n : nat) (cs : list cmd) {struct n} : M unit :=
  match n with
  | 0 => out_of_fuel
  | S n =>
      match cs with
      | [] => ret tt
      | c :: cs => exec n c;; exec_body n cs
      end
  end

with execTeardown (n : nat) (teardown : Teardown) {struct n} : M unit :=
  match n with
  | 0 => out_of_fuel
  | S n => execTeardown_body (exec_body n) (unsubscribe n) teardown
  end

(** [for (const teardown of _teardowns) { try { ... } catch (err) { ... } }] *)
with run_teardowns (n : nat) (this : ref) (ts : list Teardown)
       (errors : option (list value)) {struct n} : M (option (list value)) :=
  match n with
  | 0 => out_of_fuel
  | S n =>
      match ts with
      | [] => ret errors
      | teardown :: ts =>
          emit (EvTeardown this teardown);;
          r <- try_ (execTeardown n teardown);;
          run_teardowns n this ts (catch_teardown errors r)
      end
  end

with unsubscribe (n : nat) (this : ref) {struct n} : M unit :=
  match n with
  | 0 => out_of_fuel
  | S n => unsubscribe_body (exec_body n) (run_teardowns n) this
  end

with add (n : nat) (this : ref) (teardown : TeardownLogic) {struct n} : M unit :=
  match n with
  | 0 => out_of_fuel
  | S n => add_body (execTeardown n) this teardown
  end.

(** ** Reading the store *)

(** [s.closed] *)
Definition is_closed (h : heap) (s : ref) : bool := closed (h !!! s).

(** The teardowns [s] holds ([_teardowns], [null] read as none). *)
Definition teardowns_of (h : heap) (s : ref) : list Teardown :=
  default [] (_teardowns (h !!! s)).

(** [h'] differs from [h] only by parent bookkeeping and by entries taken
    out of teardown lists. *)
Definition shrinks (h h' : heap) : Prop :=
  ∀ s, closed (h' !!! s) = closed (h !!! s)
       ∧ _unsubscribe (h' !!! s) = _unsubscribe (h !!! s)
       ∧ _ctorUnsubscribe (h' !!! s) = _ctorUnsubscribe (h !!! s)
       ∧ teardowns_of h' s `sublist_of` teardowns_of h s.

(** ** What a trace says *)

(** [e] is the closing of [s]. *)
Definition closes (s : ref) (e : event) : bool :=
  match e with EvClosed r => Nat.eqb r s | _ => false end.

(** [e] is a step of the disposal pass of [s]. *)
Definition own (s : ref) (e : event) : bool :=
  match e with
  | EvRelease r | EvTeardown r _ => Nat.eqb r s
  | _ => false
  end.

(** [e] is the delivery of a message. *)
Definition is_msg (e : event) : bool :=
  match e with EvMsg _ _ => true | _ => false end.

(** What only an adapter does: pull from the producer, deliver to the sink. *)
Definition is_adapter_event (e : event) : bool :=
  match e with EvMsg _ _ | EvPull _ => true | _ => false end.

(** How often [s.closed] went from false to true. *)
Definition count_closed (s : ref) (tr : trace) : nat :=
  length (List.filter (closes s) tr).

(** What the disposal pass of [s] itself executed, in order. *)
Definition own_events (s : ref) (tr : trace) : trace := List.filter (own s) tr.

(** The messages sinks received, in order. *)
Definition messages (tr : trace) : trace := List.filter is_msg tr.

(** The pulls and deliveries, in order. *)
Definition adapter_events (tr : trace) : trace :=
  List.filter is_adapter_event tr.

(** ** The invariant of every run

    [step_ok x h tr h']: a run from [h] to [h'] with trace [tr]
    - flips each [closed] flag at most once, from false to true, and
      records each flip;
    - executes nothing on behalf of a token that was closed at the start
      (the pass of [x] is excused: it is the one in progress);
    - stores nothing in a token that was closed at the start;
    - pulls nothing and delivers no message (only adapters do). *)
Record step_ok (x : option ref) (h : heap) (tr : trace) (h' : heap) : Prop := {
  ok_closed : ∀ s,
    Nat.b2n (is_closed h s) + count_closed s tr = Nat.b2n (is_closed h' s);
  ok_own : ∀ s, x ≠ Some s → is_closed h s = true → own_events s tr = [];
  ok_stored : ∀ s,
    is_closed h s = true → teardowns_of h' s `sublist_of` teardowns_of h s;
  ok_msgs : adapter_events tr = []
}.

(** Every completed run of [m] respects the invariant. *)
Definition sound {A} (x : option ref) (m : M A) : Prop :=
  ∀ h r h' tr, m h = Some (r, h', tr) → step_ok x h tr h'.

(** ** More fuel never changes a result *)

(** Where [m] has a result, [m'] has the same. *)
Definition extends {A} (m m' : M A) : Prop :=
  ∀ h x, m h = Some x → m' h = Some x.

(** ** Every run ends

    Callbacks are finite programs; a stored callback is consumed when it
    runs, and the release action of a token runs only while the token is
    open.  So the code still stored in the store, plus the code about to
    run, bounds every run. *)

(** The size of a statement and of a teardown, as code. *)
Fixpoint cmd_size (c : cmd) : nat :=
  match c with
  | CLog _ | CUnsubscribe _ | CRemove _ _ | CThrow _ => 1
  | CAdd _ None => 1
  | CAdd _ (Some t) => 1 + teardown_size t
  | CTry body => 1 + sum_list_with cmd_size body
  | CIfClosed _ yes no =>
      1 + sum_list_with cmd_size yes + sum_list_with cmd_size no
  end
with teardown_size (t : Teardown) : nat :=
  match t with
  | TFun _ body | TObj _ body => 1 + sum_list_with cmd_size body
  | TSub _ => 1
  end.

Abbreviation body_size := (sum_list_with cmd_size).

Abbreviation teardowns_size := (sum_list_with teardown_size).

(** The code a token can still run: its teardowns, and its release action
    while it is open. *)
Definition sub_size (x : Subscription) : nat :=
  teardowns_size (default [] (_teardowns x))
  + (if closed x then 0 else from_option body_size 0 (_unsubscribe x)).

(** The code still stored in the store. *)
Definition stored (h : heap) : nat :=
  map_fold (fun _ x acc => sub_size x + acc) 0 h.

(** [halts f h b]: from [h], the run [f n] ends for all large enough [n],
    always with the same result, in a store holding at most [b]. *)
Definition halts {A} (f : nat → M A) (h : heap) (b : nat) : Prop :=
  ∃ n0 r h' tr, (∀ n, n0 ≤ n → f n h = Some (r, h', tr)) ∧ stored h' ≤ b.

(** All six functions end when the code stored and the code to run
    together have size at most [N]; the store never holds more than that
    afterwards. *)
Definition all_halt (N : nat) : Prop :=
  (∀ c h, stored h + cmd_size c ≤ N →
     halts (fun n => exec n c) h (stored h + cmd_size c))
  ∧ (∀ cs h, stored h + body_size cs ≤ N →
     halts (fun n => exec_body n cs) h (stored h + body_size cs))
  ∧ (∀ t h, stored h + teardown_size t ≤ N →
     halts (fun n => execTeardown n t) h (stored h + teardown_size t))
  ∧ (∀ this ts errors h, stored h + teardowns_size ts ≤ N →
     halts (fun n => run_teardowns n this ts errors) h
           (stored h + teardowns_size ts))
  ∧ (∀ this h, stored h ≤ N →
     halts (fun n => unsubscribe n this) h (stored h))
  ∧ (∀ this t h, stored h + from_option teardown_size 0 t ≤ N →
     halts (fun n => add n this t) h
           (stored h + from_option teardown_size 0 t)).

(** ** What one disposal pass does

    The pass of an open token, told without the accumulator of the code:
    the release action runs (if there is one), then every teardown held at
    that moment runs, each from the store its predecessor left, whatever
    the outcomes; the errors raised are put together at the end. *)

(** The errors an outcome contributes: those inside an
    [UnsubscriptionError], or the thrown value itself. *)
Definition raised {A} (r : outcome A) : list value :=
  match r with
  | Returned _ => []
  | Thrown (VUnsubscriptionError es) => es
  | Thrown e => [e]
  end.

(** The outcome is an exception. *)
Definition failed {A} (r : outcome A) : bool :=
  match r with Returned _ => false | Thrown _ => true end.

(** The result of a pass with the outcomes [rs]. *)
Definition aggregate (rs : list (outcome unit)) : outcome unit :=
  if existsb failed rs
  then Thrown (VUnsubscriptionError (concat (map raised rs)))
  else Returned tt.

(** The release action of [this] ran from [h0]. *)
Inductive released (this : ref) (h0 : heap)
  : outcome unit → heap → trace → Prop :=
| released_none :
    _unsubscribe (h0 !!! this) = None →
    released this h0 (Returned tt) h0 []
| released_some n body r h1 tr :
    _unsubscribe (h0 !!! this) = Some body →
    exec_body n body
      (if _ctorUnsubscribe (h0 !!! this)
       then upd this (set_unsubscribe None) h0 else h0)
    = Some (r, h1, tr) →
    released this h0 r h1 (EvRelease this :: tr).

(** The teardowns [ts] ran one after the other, with outcomes [rs]. *)
Inductive pass (this : ref)
  : list Teardown → heap → list (outcome unit) → heap → trace → Prop :=
| pass_nil h : pass this [] h [] h []
| pass_cons n t ts h r h1 tr1 rs h2 tr2 :
    execTeardown n t h = Some (r, h1, tr1) →
    pass this ts h1 rs h2 tr2 →
    pass this (t :: ts) h (r :: rs) h2 (EvTeardown this t :: tr1 ++ tr2).

(** The release step of the pass of [this], if [this] has a release
    action. *)
Definition release_events (this : ref) (h : heap) : trace :=
  match _unsubscribe (h !!! this) with
  | Some _ => [EvRelease this]
  | None => []
  end.

(** ** Source adapters ([create/from.ts]) *)

(** A message as a sink receives it. *)
Abbreviation message := (FOType * value)%type.

(** Modelled from the spec: [Sink] of [../types], which is not in the
    sources, is the consumer's callback [(type, payload, token) → void].
    What it does on a message may depend on the messages it received before
    (its own memory); it acts on the store through the command language. *)
Definition Sink : Type := list message → FOType → value → ref → list cmd.

(** [sink(type, value, subs)] *)
Definition call_sink (n : nat) (sink : Sink) (hist : list message)
    (type : FOType) (payload : value) (subs : ref) : M unit :=
  emit (EvMsg type payload);;
  exec_body n (sink hist type payload subs).

(** *** [fromSource]

    The shape tests are imported from [../util]; they are parameters
    here. *)
Inductive adapter :=
| PassThrough
| PromiseSource
| OfSource
| IterableSource
| SymbolObservableSource
| AsyncIterableSource.

Section FromSource.
Context {Input : Type}.
Variables isObservable isPromiseLike isArrayLike : Input → bool.
Variables isIterable isInteropObservable isAsyncIterable : Input → bool.

Definition fromSource (input : Input) : outcome adapter :=
  if isObservable input then Returned PassThrough
  else if isPromiseLike input then Returned PromiseSource
  else if isArrayLike input then Returned OfSource
  else if isIterable input then Returned IterableSource
  else if isInteropObservable input then Returned SymbolObservableSource
  else if isAsyncIterable input then Returned AsyncIterableSource
  else Thrown (VError "Unable to convert from input to Observable source").

(** The precedence list as the specification words it: shapes tested in a
    fixed order, stopping at the first match. *)
Definition precedence : list ((Input → bool) * adapter) :=
  [ (isObservable, PassThrough);
    (isPromiseLike, PromiseSource);
    (isArrayLike, OfSource);
    (isIterable, IterableSource);
    (isInteropObservable, SymbolObservableSource);
    (isAsyncIterable, AsyncIterableSource) ].

Fixpoint first_match (shapes : list ((Input → bool) * adapter)) (input : Input)
  : option adapter :=
  match shapes with
  | [] => None
  | (test, a) :: shapes =>
      if test input then Some a else first_match shapes input
  end.

Definition dispatch_spec (input : Input) : outcome adapter :=
  match first_match precedence input with
  | Some a => Returned a
  | None => Thrown (VError "Unable to convert from input to Observable source")
  end.
End FromSource.

(** *** [iterableSource]

    The iterator is taken to be free of side effects: its state is a
    position, and [iterable i] is the item [next()] yields there, [None]
    for [done].  The loop may run for ever; [k] bounds the iterations that
    are observed, and [Running] says the loop was still going then. *)
Definition Iterable : Type := nat → option value.

Definition of_list (l : list value) : Iterable := fun i => l !! i.

Inductive status := Finished | Running.

Fixpoint iterate (k n : nat) (iterable : Iterable) (sink : Sink) (subs : ref)
    (i : nat) (hist : list message) {struct k} : M status :=
  match k with
  | 0 => ret Running
  | S k =>
      x <- read subs;;
      if closed x then ret Finished
      else
        emit (EvPull i);;
        match iterable i with
        | None =>
            call_sink n sink hist COMPLETE VUndefined subs;;
            ret Finished
        | Some value =>
            call_sink n sink hist NEXT value subs;;
            iterate k n iterable sink subs (S i) (hist ++ [(NEXT, value)])
        end
  end.

Definition iterableSource (iterable : Iterable) (k n : nat)
    (type : FOType) (sink : Sink) (subs : ref) : M status :=
  match type with
  | SUBSCRIBE => iterate k n iterable sink subs 0 []
  | _ => ret Finished
  end.

(** *** [promiseSource]

    [SUBSCRIBE] only registers the two callbacks of [promise.then]; one of
    them runs when the promise settles, in the store of that moment. *)
Inductive settlement := Fulfilled (v : value) | Rejected (err : value).

Definition promiseSource_then (n : nat) (p : settlement)
    (sink : Sink) (subs : ref) : M unit :=
  match p with
  | Fulfilled value =>
      x <- read subs;;
      if negb (closed x) then
        call_sink n sink [] NEXT value subs;;
        call_sink n sink [(NEXT, value)] COMPLETE VUndefined subs
      else ret tt
  | Rejected err => call_sink n sink [] ERROR err subs
  end.

(** The whole life of one subscription: [SUBSCRIBE], then whatever the
    rest of the program does ([env]) until the promise settles, then the
    callback.  A promise that never settles is [None]. *)
Definition promiseSource (promise : option settlement) (env : list cmd)
    (n : nat) (type : FOType) (sink : Sink) (subs : ref) : M unit :=
  match type with
  | SUBSCRIBE =>
      _ <- try_ (exec_body n env);;
      match promise with
      | Some p => promiseSource_then n p sink subs
      | None => ret tt
      end
  | _ => ret tt
  end.

(** *** [asyncIterableSource]

    Each [ai.next()] settles later; [steps] lists, for the part of the run
    that is observed, what the rest of the program does before each
    settlement and how the promise settles. *)
Inductive async_step :=
| Yield (v : value)          (* resolves to [{done: false, value}] *)
| Done                       (* resolves to [{done: true}] *)
| Reject (err : value).

Fixpoint getNextValue (n : nat) (steps : list (list cmd * async_step))
    (sink : Sink) (subs : ref) (hist : list message) : M unit :=
  match steps with
  | [] => ret tt
  | (env, step) :: steps =>
      _ <- try_ (exec_body n env);;
      match step with
      | Done => call_sink n sink hist COMPLETE VUndefined subs
      | Yield value =>
          call_sink n sink hist NEXT value subs;;
          getNextValue n steps sink subs (hist ++ [(NEXT, value)])
      | Reject err => call_sink n sink hist ERROR err subs
      end
  end.

Definition asyncIterableSource (steps : list (list cmd * async_step))
    (n : nat) (type : FOType) (sink : Sink) (subs : ref) : M unit :=
  match type with
  | SUBSCRIBE => getNextValue n steps sink subs []
  | _ => ret tt
  end.

(** *** [symbolObservableSource] *)

(** What [input[Symbol.observable]()] returned.  An observable is known by
    what [subscribe] does: the notifications it sends before it returns,
    and the [unsubscribe] of the handle it returns (if callable). *)
Inductive interop_result :=
| Nullish
| FalsyPrimitive
| NoSubscribe
| ObservableLike (emits : list message) (handle : option (list cmd)).

(** [observer.next/error/complete] forward to the sink one to one. *)
Fixpoint forward (n : nat) (emits : list message) (sink : Sink) (subs : ref)
    (hist : list message) : M unit :=
  match emits with
  | [] => ret tt
  | (type, payload) :: emits =>
      call_sink n sink hist type payload subs;;
      forward n emits sink subs (hist ++ [(type, payload)])
  end.

(** [subscription = ...]: the teardown function [f] registered just before
    reads this variable when it is called, so the assignment changes what
    the stored function does. *)
Definition assign_subscription (subs : ref) (f : nat) (handle : option (list cmd))
    (h : heap) : heap :=
  match _teardowns (h !!! subs) with
  | Some ts =>
      upd subs (set_teardowns (Some (
        (fun t => match t with
                  | TFun g body =>
                      if Nat.eqb g f then TFun g (default [] handle) else t
                  | _ => t
                  end) <$> ts))) h
  | None => h
  end.

Definition symbolObservableSource (obs : interop_result) (f : nat)
    (n : nat) (type : FOType) (sink : Sink) (subs : ref) : M unit :=
  match type with
  | SUBSCRIBE =>
      let not_returned :=
        VError "invalid Symbol.observable implementation, observable not returned" in
      let no_subscribe :=
        VError "invalid Symbol.observable implementation, no subscribe method on returned value" in
      match obs with
      | Nullish =>
          (* [!obs]; then [obs.subscribe] on undefined *)
          call_sink n sink [] ERROR not_returned subs;;
          throw (VTypeError "Cannot read properties of undefined (reading 'subscribe')")
      | FalsyPrimitive =>
          (* [!obs]; then [typeof obs.subscribe] is ['undefined'] *)
          call_sink n sink [] ERROR not_returned subs;;
          call_sink n sink [(ERROR, not_returned)] ERROR no_subscribe subs
      | NoSubscribe =>
          call_sink n sink [] ERROR no_subscribe subs
      | ObservableLike emits handle =>
          add n subs (Some (TFun f []));;
          forward n emits sink subs [];;
          modify (assign_subscription subs f handle)
      end
  | _ => ret tt
  end.

(** ** Safety of message delivery, read off a trace *)

(** [e] is the delivery of [ERROR] or [COMPLETE]. *)
Definition is_terminal (e : event) : bool :=
  match e with
  | EvMsg ERROR _ | EvMsg COMPLETE _ => true
  | _ => false
  end.

(** At most one terminal message, and no message after it. *)
Fixpoint terminal_last (ms : trace) : bool :=
  match ms with
  | [] => true
  | m :: ms =>
      if is_terminal m then match ms with [] => true | _ => false end
      else terminal_last ms
  end.

(** Nothing is pulled or delivered once [subs] is closed; [c] says whether
    it is closed where the trace starts. *)
Fixpoint quiet_once_closed (subs : ref) (c : bool) (tr : trace) : bool :=
  match tr with
  | [] => true
  | EvClosed s :: tr => quiet_once_closed subs (c || Nat.eqb s subs) tr
  | (EvPull _ | EvMsg _ _) :: tr => negb c && quiet_once_closed subs c tr
  | _ :: tr => quiet_once_closed subs c tr
  end.

(** [COMPLETE] is delivered only right after a pull that found the
    sequence exhausted; [ex] says whether the last pull did. *)
Fixpoint complete_by_exhaustion (iterable : Iterable) (ex : bool) (tr : trace)
  : bool :=
  match tr with
  | [] => true
  | EvPull i :: tr =>
      complete_by_exhaustion iterable (bool_decide (iterable i = None)) tr
  | EvMsg COMPLETE _ :: tr => ex && complete_by_exhaustion iterable ex tr
  | _ :: tr => complete_by_exhaustion iterable ex tr
  end.

(** The sink neither throws nor disposes the token. *)
Definition passive (sink : Sink) (subs : ref) : Prop :=
  ∀ hist type payload n h r h' tr,
    exec_body n (sink hist type payload subs) h = Some (r, h', tr) →
    r = Returned tt ∧ (is_closed h subs = false → is_closed h' subs = false).

(** ** Concrete stores and sinks used as test inputs *)

(** Token 0 holds three teardowns that each throw a different error. *)
Definition three_failing : heap :=
  {[ 0 := set_teardowns
            (Some [TFun 1 [CLog 1; CThrow (VNum 1)];
                   TFun 2 [CLog 2; CThrow (VNum 2)];
                   TFun 3 [CLog 3; CThrow (VNum 3)]])
            (new_Subscription None) ]}.

(** Parent 0 with a release action and the children 1 and 2; a teardown of
    child 1 disposes the parent again while the parent's pass is running. *)
Definition family : heap :=
  {[ 0 := set_teardowns (Some [TSub 1; TFun 7 [CLog 7]; TSub 2])
            (new_Subscription (Some [CLog 0]));
     1 := set_singleParent (Some 0)
            (set_teardowns (Some [TFun 8 [CUnsubscribe 0; CLog 8]])
               (new_Subscription None));
     2 := set_singleParent (Some 0) (new_Subscription None) ]}.

(** A store whose token 0 is [Subscription.EMPTY]. *)
Definition with_EMPTY : heap := {[ 0 := EMPTY ]}.

(** A sink that only receives. *)
Definition silent : Sink := fun _ _ _ _ => [].

(** A sink that disposes the token on the first message it receives. *)
Definition dispose_on_first : Sink :=
  fun hist _ _ subs => match hist with [] => [CUnsubscribe subs] | _ => [] end.

(** 1, 2, 3, ... without end. *)
Definition naturals : Iterable := fun i => Some (VNum (S i)).

(** ** Where a pass starts *)

(** The store in which the release action, then the teardowns, run: the
    token is already closed and taken off its parents. *)
Definition pass_start (this : ref) (h : heap) : heap :=
  detach_from_parents this (upd this (set_closed true) h).

(** ** What the further properties speak about *)

(** What [add] does to the store when it stores [teardown] in the open
    token [this]: the parent is recorded in a child token, then the
    teardown is pushed. *)
Definition attach (this : ref) (teardown : Teardown) (h : heap) : heap :=
  upd this
    (fun x => set_teardowns (Some (default [] (_teardowns x) ++ [teardown])) x)
    match teardown with
    | TSub child => _addParent child this h
    | _ => h
    end.

(** [m] keeps the property [P] of the store. *)
Definition keeps {A} (P : heap → Prop) (m : M A) : Prop :=
  ∀ h r h' tr, P h → m h = Some (r, h', tr) → P h'.

(** How often the object [t] occurs in a list of teardowns. *)
Definition occurrences (t : Teardown) (ts : list Teardown) : nat :=
  length (List.filter (fun u => same_teardown u t) ts).

(** The two parent fields are never used together. *)
Definition exclusive (x : Subscription) : Prop :=
  _singleParent x = None ∨ _parents x = None.

(** The tree is consistent for the children in [C]: an open token holds a
    child token at most once, and a child it holds is open and lists it as
    a parent. *)
Definition tree_ok_on (C : ref → Prop) (h : heap) : Prop :=
  ∀ p,
    exclusive (h !!! p)
    ∧ (is_closed h p = false →
       ∀ c, C c → occurrences (TSub c) (teardowns_of h p) ≠ 0 →
         is_closed h c = false
         ∧ _hasParent (h !!! c) p = true
         ∧ occurrences (TSub c) (teardowns_of h p) = 1).

Definition tree_ok (h : heap) : Prop := tree_ok_on (fun _ => True) h.

(** The links are exact: the tree is consistent, no token lists a parent
    twice, and an open token holds every token that lists it as a
    parent. *)
Definition linked (h : heap) : Prop :=
  tree_ok h
  ∧ (∀ c ps, _parents (h !!! c) = Some ps → NoDup ps)
  ∧ (∀ p c, is_closed h p = false → _hasParent (h !!! c) p = true →
       occurrences (TSub c) (teardowns_of h p) ≠ 0).

(** [remove] and [_removeParent] on one record. *)
Definition splice_teardown (t : Teardown) (x : Subscription) : Subscription :=
  match _teardowns x with
  | Some ts =>
      match indexOf same_teardown ts t with
      | Some index => set_teardowns (Some (delete index ts)) x
      | None => x
      end
  | None => x
  end.

Definition drop_parent (parent : ref) (x : Subscription) : Subscription :=
  match _singleParent x with
  | Some single =>
      if Nat.eqb single parent then set_singleParent None x else x
  | None =>
      match _parents x with
      | Some ps =>
          match indexOf Nat.eqb ps parent with
          | Some index => set_parents (Some (delete index ps)) x
          | None => x
          end
      | None => x
      end
  end.

(** [_addParent] on one record. *)
Definition take_parent (parent : ref) (x : Subscription) : Subscription :=
  match _singleParent x with
  | Some single =>
      set_singleParent None (set_parents (Some [single; parent]) x)
  | None =>
      match _parents x with
      | Some ps => set_parents (Some (ps ++ [parent])) x
      | None => set_singleParent (Some parent) x
      end
  end.

(** A token that was disposed and holds nothing any more. *)
Definition retired (x : Subscription) : Prop :=
  closed x = true ∧ _singleParent x = None ∧ _parents x = None
  ∧ _unsubscribe x = None.

Definition spent (x : Subscription) : Prop :=
  retired x ∧ _teardowns x = None.

(** The release action of a token is the one its constructor was given,
    if it has one. *)
Definition ctor_ok (x : Subscription) : Prop :=
  _unsubscribe x = None ∨ _ctorUnsubscribe x = true.

(** [if (_ctorUnsubscribe) this._unsubscribe = undefined], the step of
    [unsubscribe] before the release action runs. *)
Definition release_null (this : ref) (h : heap) : heap :=
  match _unsubscribe (h !!! this) with
  | Some _ =>
      if _ctorUnsubscribe (h !!! this)
      then upd this (set_unsubscribe None) h else h
  | None => h
  end.

(** [X] and the token [this]. *)
Definition plus (X : ref → Prop) (this : ref) : ref → Prop :=
  fun s => X s ∨ s = this.

(** One token at rest: its parent fields are not used together, its
    release action is the constructor's, and if it is closed it holds
    nothing; a token whose release action is running ([running]) may
    still hold its teardowns. *)
Definition rest_ok (running : Prop) (x : Subscription) : Prop :=
  exclusive x ∧ ctor_ok x
  ∧ (closed x = true → retired x ∧ (¬ running → _teardowns x = None)).

(** The store is at rest, but for the tokens in [X], whose release action
    is running. *)
Definition at_rest_but (X : ref → Prop) (h : heap) : Prop :=
  ∀ s, rest_ok (X s) (h !!! s).

Definition at_rest (h : heap) : Prop := at_rest_but (fun _ => False) h.

(** Token 2 is a child of the tokens 0 and 1. *)
Definition shared_child : heap :=
  {[ 0 := set_teardowns (Some [TSub 2; TFun 5 [CLog 5]]) (new_Subscription None);
     1 := set_teardowns (Some [TSub 2]) (new_Subscription None);
     2 := set_parents (Some [0; 1]) (new_Subscription None) ]}.

(** The program that builds [shared_child] from fresh tokens. *)
Definition build_shared_child : list cmd :=
  [CAdd 0 (Some (TSub 2)); CAdd 1 (Some (TSub 2));
   CAdd 0 (Some (TFun 5 [CLog 5]))].

(** [remove] on a list, as the list operation it is: the first occurrence
    of the object goes. *)
Fixpoint remove_first (t : Teardown) (ts : list Teardown) : list Teardown :=
  match ts with
  | [] => []
  | u :: ts => if same_teardown u t then ts else u :: remove_first t ts
  end.

(** The sink never throws. *)
Definition calm (sink : Sink) : Prop :=
  ∀ hist type payload subs n h r h' tr,
    exec_body n (sink hist type payload subs) h = Some (r, h', tr) →
    r = Returned tt.

(** The sink never throws and leaves the store alone. *)
Definition inert (sink : Sink) : Prop :=
  ∀ hist type payload subs n h r h' tr,
    exec_body n (sink hist type payload subs) h = Some (r, h', tr) →
    r = Returned tt ∧ h' = h.

(** Messages as they show in a trace. *)
Definition deliveries (ms : list message) : trace :=
  map (fun m : message => EvMsg m.1 m.2) ms.

(** What the async adapter has to deliver for the settlements [steps]:
    the values up to the first end or failure, then that one. *)
Fixpoint delivered (steps : list (list cmd * async_step)) : list message :=
  match steps with
  | [] => []
  | (_, Yield value) :: steps => (NEXT, value) :: delivered steps
  | (_, Done) :: _ => [(COMPLETE, VUndefined)]
  | (_, Reject err) :: _ => [(ERROR, err)]
  end.

(** What the promise adapter has to deliver, given whether the token is
    closed when the promise settles. *)
Definition settled (promise : option settlement) (closed_then : bool)
  : list message :=
  match promise with
  | None => []
  | Some (Fulfilled value) =>
      if closed_then then [] else [(NEXT, value); (COMPLETE, VUndefined)]
  | Some (Rejected err) => [(ERROR, err)]
  end.

(** A sink that disposes the token on every message and swallows what the
    disposal throws. *)
Definition dispose_quietly : Sink :=
  fun _ _ _ subs => [CTry [CUnsubscribe subs]].



(** * Properties *)

(** ** The store *)

Lemma upd_lookup s f (h : heap) s' :
  upd s f h !!! s' = if decide (s = s') then f (h !!! s) else h !!! s'.
Proof. unfold upd. apply lookup_total_insert. Qed.

Lemma upd_lookup_eq s f (h : heap) : upd s f h !!! s = f (h !!! s).
Proof. rewrite upd_lookup. by rewrite decide_True. Qed.

Lemma upd_lookup_ne s f (h : heap) s' : s ≠ s' → upd s f h !!! s' = h !!! s'.
Proof. intros. rewrite upd_lookup. by rewrite decide_False. Qed.

Lemma shrinks_refl h : shrinks h h.
Proof. intros s. by repeat split. Qed.

Lemma shrinks_trans h1 h2 h3 : shrinks h1 h2 → shrinks h2 h3 → shrinks h1 h3.
Proof.
  intros H12 H23 s. destruct (H12 s) as (? & ? & ? & ?).
  destruct (H23 s) as (? & ? & ? & ?).
  repeat split; [congruence..|by etrans].
Qed.

Lemma shrinks_upd s f h :
  closed (f (h !!! s)) = closed (h !!! s) →
  _unsubscribe (f (h !!! s)) = _unsubscribe (h !!! s) →
  _ctorUnsubscribe (f (h !!! s)) = _ctorUnsubscribe (h !!! s) →
  default [] (_teardowns (f (h !!! s))) `sublist_of` teardowns_of h s →
  shrinks h (upd s f h).
Proof.
  intros Hc Hu Hk Ht s'. unfold teardowns_of. rewrite upd_lookup.
  case_decide; subst; repeat split; done.
Qed.

Lemma shrinks_removeParent this parent h : shrinks h (_removeParent this parent h).
Proof.
  unfold _removeParent. repeat case_match; try apply shrinks_refl;
    by apply shrinks_upd.
Qed.

Lemma shrinks_addParent this parent h : shrinks h (_addParent this parent h).
Proof.
  unfold _addParent. repeat case_match.
  - eapply shrinks_trans; by apply shrinks_upd.
  - by apply shrinks_upd.
  - by apply shrinks_upd.
Qed.

Lemma shrinks_remove this t h : shrinks h (remove this t h).
Proof.
  unfold remove.
  assert (shrinks h
    match _teardowns (h !!! this) with
    | Some ts =>
        match indexOf same_teardown ts t with
        | Some index => upd this (set_teardowns (Some (delete index ts))) h
        | None => h
        end
    | None => h
    end) as H1.
  { destruct (_teardowns (h !!! this)) as [ts|] eqn:Hts; [|apply shrinks_refl].
    destruct (indexOf same_teardown ts t); [|apply shrinks_refl].
    apply shrinks_upd; try done. unfold teardowns_of. rewrite Hts. simpl.
    apply sublist_delete. }
  destruct t; try done.
  eapply shrinks_trans; [exact H1|apply shrinks_removeParent].
Qed.

Lemma shrinks_foldl_remove t ps h :
  shrinks h (foldl (fun h parent => remove parent t h) h ps).
Proof.
  revert h. induction ps as [|p ps IH]; intros h; simpl.
  - apply shrinks_refl.
  - eapply shrinks_trans; [apply shrinks_remove|apply IH].
Qed.

Lemma shrinks_detach this h : shrinks h (detach_from_parents this h).
Proof.
  unfold detach_from_parents. repeat case_match.
  - eapply shrinks_trans; [|apply shrinks_remove]. by apply shrinks_upd.
  - eapply shrinks_trans; [|apply shrinks_foldl_remove]. by apply shrinks_upd.
  - apply shrinks_refl.
Qed.

(** ** Rules for running monadic code *)

Lemma bind_inv {A B} (m : M A) (k : A → M B) h r h' tr :
  bind m k h = Some (r, h', tr) →
  (∃ e, m h = Some (Thrown e, h', tr) ∧ r = Thrown e)
  ∨ (∃ a h1 tr1 tr2, m h = Some (Returned a, h1, tr1)
       ∧ k a h1 = Some (r, h', tr2) ∧ tr = tr1 ++ tr2).
Proof.
  unfold bind. destruct (m h) as [[[[a|e] h1] tr1]|]; [| |done].
  - destruct (k a h1) as [[[r2 h2] tr2]|] eqn:Hk; [|done].
    intros [= <- <- <-]. right. by exists a, h1, tr1, tr2.
  - intros [= <- <- <-]. left. by exists e.
Qed.

Lemma bind_ret {A B} (a : A) (k : A → M B) h : bind (ret a) k h = k a h.
Proof. unfold bind, ret. by destruct (k a h) as [[[? ?] ?]|]. Qed.

Lemma bind_read {B} s (k : Subscription → M B) h :
  bind (read s) k h = k (h !!! s) h.
Proof. unfold bind, read. by destruct (k _ h) as [[[? ?] ?]|]. Qed.

Lemma bind_modify {B} f (k : unit → M B) h :
  bind (modify f) k h = k tt (f h).
Proof. unfold bind, modify. by destruct (k tt _) as [[[? ?] ?]|]. Qed.

Lemma bind_emit_inv {B} e (k : unit → M B) h r h' tr :
  bind (emit e) k h = Some (r, h', tr) →
  ∃ tr', k tt h = Some (r, h', tr') ∧ tr = e :: tr'.
Proof.
  unfold bind, emit. destruct (k tt h) as [[[? ?] ?]|]; [|done].
  intros [= <- <- <-]. eauto.
Qed.

Lemma bind_emit {B} e (k : unit → M B) h r h' tr :
  k tt h = Some (r, h', tr) → bind (emit e) k h = Some (r, h', e :: tr).
Proof. unfold bind, emit. by intros ->. Qed.

Lemma try_inv {A} (m : M A) h r h' tr :
  try_ m h = Some (r, h', tr) → ∃ r0, m h = Some (r0, h', tr) ∧ r = Returned r0.
Proof.
  unfold try_. destruct (m h) as [[[? ?] ?]|]; [|done].
  intros [= <- <- <-]. eauto.
Qed.

Lemma bind_try_inv {A B} (m : M A) (k : outcome A → M B) h r h' tr :
  bind (try_ m) k h = Some (r, h', tr) →
  ∃ r0 h1 tr1 tr2, m h = Some (r0, h1, tr1)
     ∧ k r0 h1 = Some (r, h', tr2) ∧ tr = tr1 ++ tr2.
Proof.
  intros [(e & H & _)|(a & h1 & tr1 & tr2 & H & Hk & ->)]%bind_inv.
  - apply try_inv in H as (? & _ & [=]).
  - apply try_inv in H as (r0 & H & [= ->]). by exists r0, h1, tr1, tr2.
Qed.

Lemma bind_try {A B} (m : M A) (k : outcome A → M B) h r0 h1 tr1 r h' tr2 :
  m h = Some (r0, h1, tr1) → k r0 h1 = Some (r, h', tr2) →
  bind (try_ m) k h = Some (r, h', tr1 ++ tr2).
Proof. unfold bind, try_. intros -> Hk. simpl. by rewrite Hk. Qed.

Lemma bind_returned {A B} (m : M A) (k : A → M B) h a h1 tr1 r h' tr2 :
  m h = Some (Returned a, h1, tr1) → k a h1 = Some (r, h', tr2) →
  bind m k h = Some (r, h', tr1 ++ tr2).
Proof. unfold bind. intros -> Hk. simpl. by rewrite Hk. Qed.

Lemma bind_thrown {A B} (m : M A) (k : A → M B) h e h1 tr1 :
  m h = Some (Thrown e, h1, tr1) → bind m k h = Some (Thrown e, h1, tr1).
Proof. unfold bind. by intros ->. Qed.

(** ** Traces *)

Lemma count_closed_app s tr1 tr2 :
  count_closed s (tr1 ++ tr2) = count_closed s tr1 + count_closed s tr2.
Proof. unfold count_closed. by rewrite List.filter_app, length_app. Qed.

Lemma own_events_app s tr1 tr2 :
  own_events s (tr1 ++ tr2) = own_events s tr1 ++ own_events s tr2.
Proof. apply List.filter_app. Qed.

Lemma messages_app tr1 tr2 : messages (tr1 ++ tr2) = messages tr1 ++ messages tr2.
Proof. apply List.filter_app. Qed.

Lemma adapter_events_app tr1 tr2 :
  adapter_events (tr1 ++ tr2) = adapter_events tr1 ++ adapter_events tr2.
Proof. apply List.filter_app. Qed.

Lemma adapter_events_messages tr : adapter_events tr = [] → messages tr = [].
Proof.
  induction tr as [|e tr IH]; [done|]. unfold adapter_events, messages in *.
  simpl. destruct e; simpl; try done; auto.
Qed.

(** ** The invariant holds of every run *)

Lemma step_ok_mono x h tr h' s :
  step_ok x h tr h' → is_closed h s = true → is_closed h' s = true.
Proof.
  intros [H _ _ _] Hs. specialize (H s). rewrite Hs in H.
  destruct (is_closed h' s); [done|simpl in H; lia].
Qed.

Lemma step_ok_refl x h : step_ok x h [] h.
Proof. split; intros; try done; unfold count_closed; simpl; lia. Qed.

Lemma step_ok_trans x h tr1 h1 tr2 h2 :
  step_ok x h tr1 h1 → step_ok x h1 tr2 h2 → step_ok x h (tr1 ++ tr2) h2.
Proof.
  intros H1 H2. split.
  - intros s. rewrite count_closed_app.
    pose proof (ok_closed _ _ _ _ H1 s). pose proof (ok_closed _ _ _ _ H2 s). lia.
  - intros s Hx Hs. rewrite own_events_app.
    rewrite (ok_own _ _ _ _ H1 s Hx Hs).
    by rewrite (ok_own _ _ _ _ H2 s Hx (step_ok_mono _ _ _ _ _ H1 Hs)).
  - intros s Hs. etrans.
    + apply (ok_stored _ _ _ _ H2), (step_ok_mono _ _ _ _ _ H1 Hs).
    + by apply (ok_stored _ _ _ _ H1).
  - rewrite adapter_events_app.
    by rewrite (ok_msgs _ _ _ _ H1), (ok_msgs _ _ _ _ H2).
Qed.

Lemma step_ok_weaken x h tr h' : step_ok None h tr h' → step_ok x h tr h'.
Proof.
  intros [H1 H2 H3 H4]. split; try done. intros s _ Hs. by apply H2.
Qed.

Lemma step_ok_shrinks x h h' : shrinks h h' → step_ok x h [] h'.
Proof.
  intros H. split; try done.
  - intros s. unfold is_closed. destruct (H s) as (-> & _).
    unfold count_closed. simpl. lia.
  - intros s _. apply H.
Qed.

Lemma step_ok_cons x h e tr h' :
  (∀ s, closes s e = false) → (∀ s, x ≠ Some s → own s e = false) →
  is_adapter_event e = false →
  step_ok x h tr h' → step_ok x h (e :: tr) h'.
Proof.
  intros Hc Ho Hm [H1 H2 H3 H4]. split; try done.
  - intros s. unfold count_closed. simpl. rewrite Hc. apply H1.
  - intros s Hx Hs. unfold own_events. simpl. rewrite Ho by done. by apply H2.
  - unfold adapter_events. simpl. by rewrite Hm.
Qed.

(** Assignments to [this] that leave [closed] alone and store nothing. *)
Lemma step_ok_upd x this f h :
  closed (f (h !!! this)) = closed (h !!! this) →
  default [] (_teardowns (f (h !!! this))) `sublist_of` teardowns_of h this →
  step_ok x h [] (upd this f h).
Proof.
  intros Hc Ht. split; try done.
  - intros s. unfold is_closed, count_closed. rewrite upd_lookup.
    case_decide; subst; simpl; rewrite ?Hc; lia.
  - intros s _. unfold teardowns_of. rewrite upd_lookup. by case_decide; subst.
Qed.

(** Storing into an open token. *)
Lemma step_ok_store x this f h :
  is_closed h this = false →
  closed (f (h !!! this)) = false →
  step_ok x h [] (upd this f h).
Proof.
  intros Ho Hc. split; try done.
  - intros s. unfold is_closed, count_closed in *. rewrite upd_lookup.
    case_decide; subst; simpl; rewrite ?Hc, ?Ho; lia.
  - intros s Hs. unfold teardowns_of. rewrite upd_lookup.
    case_decide; subst; [congruence|done].
Qed.

(** [this.closed = true] on an open token, then the rest of its pass. *)
Lemma step_ok_close this h tr h' :
  is_closed h this = false →
  step_ok (Some this) (upd this (set_closed true) h) tr h' →
  step_ok None h (EvClosed this :: tr) h'.
Proof.
  intros Ho [H1 H2 H3 H4].
  assert (∀ s, s ≠ this →
    is_closed (upd this (set_closed true) h) s = is_closed h s) as Hne.
  { intros s Hs. unfold is_closed. by rewrite upd_lookup_ne. }
  split; try done.
  - intros s. specialize (H1 s). unfold count_closed in *. simpl.
    destruct (decide (s = this)) as [->|Hs].
    + rewrite Nat.eqb_refl. simpl. rewrite Ho.
      unfold is_closed in H1 at 1. rewrite upd_lookup_eq in H1. simpl in H1.
      destruct (is_closed h' this); simpl in *; lia.
    + rewrite Hne in H1 by done.
      apply Nat.eqb_neq in Hs as Hs'. rewrite Nat.eqb_sym in Hs'.
      by rewrite Hs'.
  - intros s _ Hs. assert (s ≠ this) as Hne' by congruence.
    unfold own_events. simpl. apply H2; [congruence|]. by rewrite Hne.
  - intros s Hs. assert (s ≠ this) as Hne' by congruence.
    etrans; [apply H3; by rewrite Hne|].
    unfold teardowns_of. by rewrite upd_lookup_ne.
Qed.

Lemma sound_ret {A} x (a : A) : sound x (ret a).
Proof. intros h r h' tr [= <- <- <-]. apply step_ok_refl. Qed.

Lemma sound_throw {A} x e : sound x (@throw A e).
Proof. intros h r h' tr [= <- <- <-]. apply step_ok_refl. Qed.

Lemma sound_read x s : sound x (read s).
Proof. intros h r h' tr [= <- <- <-]. apply step_ok_refl. Qed.

Lemma sound_modify x f : (∀ h, step_ok x h [] (f h)) → sound x (modify f).
Proof. intros Hf h r h' tr [= <- <- <-]. apply Hf. Qed.

Lemma sound_emit x e :
  (∀ s, closes s e = false) → (∀ s, x ≠ Some s → own s e = false) →
  is_adapter_event e = false → sound x (emit e).
Proof.
  intros ??? h r h' tr [= <- <- <-].
  apply step_ok_cons; try done; apply step_ok_refl.
Qed.

Lemma sound_bind {A B} x (m : M A) (k : A → M B) :
  sound x m → (∀ a, sound x (k a)) → sound x (bind m k).
Proof.
  intros Hm Hk h r h' tr
    [(e & H & _)|(a & h1 & tr1 & tr2 & H & H' & ->)]%bind_inv.
  - by eapply Hm.
  - eapply step_ok_trans; [by eapply Hm|by eapply Hk].
Qed.

Lemma sound_try {A} x (m : M A) : sound x m → sound x (try_ m).
Proof. intros Hm h r h' tr (r0 & H & _)%try_inv. by eapply Hm. Qed.

Lemma sound_weaken {A} x (m : M A) : sound None m → sound x m.
Proof. intros Hm h r h' tr H. by eapply step_ok_weaken, Hm. Qed.

Lemma sound_out_of_fuel {A} x : sound x (@out_of_fuel A).
Proof. by intros h r h' tr. Qed.

Lemma sound_run {A} x (m : M A) h r h' tr :
  sound x m → m h = Some (r, h', tr) → step_ok x h tr h'.
Proof. intros Hm. apply Hm. Qed.

Ltac sound_steps :=
  repeat first
    [ apply sound_ret | apply sound_throw | apply sound_read
    | apply sound_out_of_fuel
    | apply sound_try
    | apply sound_bind; [|intros ?]
    | apply sound_modify; intros ?
    | apply sound_emit; [by intros ?|intros ?; simpl|done] ].

(** Every run of user code and of the two methods respects [step_ok]. *)
Lemma runs_sound n :
  (∀ c, sound None (exec n c))
  ∧ (∀ cs, sound None (exec_body n cs))
  ∧ (∀ t, sound None (execTeardown n t))
  ∧ (∀ this ts errors, sound (Some this) (run_teardowns n this ts errors))
  ∧ (∀ this, sound None (unsubscribe n this))
  ∧ (∀ this t, sound None (add n this t)).
Proof.
  induction n as [|n (IHc & IHb & IHt & IHl & IHu & IHa)].
  { repeat apply conj; repeat intros ?; discriminate. }
  repeat apply conj.
  - intros c. destruct c; cbn [exec exec_cmd]; sound_steps; try done.
    + apply step_ok_shrinks, shrinks_remove.
    + destruct (closed a); apply IHb.
  - intros [|c cs]; cbn [exec_body]; sound_steps; done.
  - intros []; cbn [execTeardown execTeardown_body]; done.
  - intros this [|t ts] errors; cbn [run_teardowns]; sound_steps; try done.
    + intros Hx. apply Nat.eqb_neq. congruence.
    + by apply sound_weaken.
  - intros this h r h' tr H. cbn [unsubscribe] in H. unfold unsubscribe_body in H.
    rewrite bind_read in H. destruct (closed (h !!! this)) eqn:Hc.
    { injection H as <- <- <-. apply step_ok_refl. }
    rewrite bind_modify in H. apply bind_emit_inv in H as (tr' & H & ->).
    apply step_ok_close; [done|]. revert H. generalize (upd this (set_closed true) h).
    intros h0 H. eapply (sound_run (Some this)); [|exact H].
    assert (∀ s, Some this ≠ Some s → (this =? s) = false) as Hne.
    { intros s Hs. apply Nat.eqb_neq. congruence. }
    sound_steps.
    + apply step_ok_shrinks, shrinks_detach.
    + destruct (_unsubscribe _); [destruct (_ctorUnsubscribe _)|];
        sound_steps; try done; try apply Hne; try by apply sound_weaken.
      by apply step_ok_upd.
    + apply step_ok_upd; [done|apply sublist_nil_l].
    + destruct (_teardowns _); [apply IHl|apply sound_ret].
    + destruct a4; sound_steps.
  - intros this [t|] h r h' tr H; cbn [add add_body] in H;
      [|by eapply sound_run; [apply sound_ret|]].
    destruct (same_teardown t (TSub this));
      [by eapply sound_run; [apply sound_ret|]|].
    rewrite bind_read in H. destruct (closed (h !!! this)) eqn:Hc.
    { eapply sound_run; [|exact H]. sound_steps; done. }
    assert (∀ h0 r h' tr, is_closed h0 this = false →
      push this t h0 = Some (r, h', tr) → step_ok None h0 tr h') as Hpush.
    { intros h0 r1 h1' tr1 Ho [= <- <- <-]. by apply step_ok_store. }
    destruct t as [f body|child|o body]; try by eapply Hpush.
    rewrite bind_read in H.
    destruct (closed (h !!! child) || _hasParent (h !!! child) this);
      [by eapply sound_run; [apply sound_ret|]|].
    rewrite bind_modify in H. rewrite <- (app_nil_l tr).
    eapply step_ok_trans; [apply step_ok_shrinks, shrinks_addParent|].
    eapply Hpush; [|exact H]. unfold is_closed.
    by destruct (shrinks_addParent child this h this) as (-> & _).
Qed.

Lemma unsubscribe_sound n this h r h' tr :
  unsubscribe n this h = Some (r, h', tr) → step_ok None h tr h'.
Proof. apply (runs_sound n). Qed.

Lemma add_sound n this t h r h' tr :
  add n this t h = Some (r, h', tr) → step_ok None h tr h'.
Proof. apply (runs_sound n). Qed.

Lemma exec_body_sound n cs h r h' tr :
  exec_body n cs h = Some (r, h', tr) → step_ok None h tr h'.
Proof. apply (runs_sound n). Qed.

Lemma execTeardown_sound n t h r h' tr :
  execTeardown n t h = Some (r, h', tr) → step_ok None h tr h'.
Proof. apply (runs_sound n). Qed.

Lemma run_teardowns_sound n this ts errors h r h' tr :
  run_teardowns n this ts errors h = Some (r, h', tr) →
  step_ok (Some this) h tr h'.
Proof. apply (runs_sound n). Qed.

(** ** More fuel never changes a result *)

Lemma extends_refl {A} (m : M A) : extends m m.
Proof. by intros h x. Qed.

Lemma extends_trans {A} (m1 m2 m3 : M A) :
  extends m1 m2 → extends m2 m3 → extends m1 m3.
Proof. intros H1 H2 h x H. by apply H2, H1. Qed.

Lemma extends_bind {A B} (m m' : M A) (k k' : A → M B) :
  extends m m' → (∀ a, extends (k a) (k' a)) → extends (bind m k) (bind m' k').
Proof.
  intros Hm Hk h [[r h'] tr]
    [(e & H & ->)|(a & h1 & tr1 & tr2 & H & H' & ->)]%bind_inv.
  - by apply bind_thrown, Hm.
  - eapply bind_returned; [by apply Hm|by apply Hk].
Qed.

Lemma extends_try {A} (m m' : M A) : extends m m' → extends (try_ m) (try_ m').
Proof.
  intros Hm h [[r h'] tr] (r0 & H & ->)%try_inv.
  unfold try_. by rewrite (Hm _ _ H).
Qed.

Ltac extends_steps :=
  repeat first
    [ apply extends_refl
    | assumption
    | apply extends_try
    | apply extends_bind; [|intros ?]
    | match goal with
      | |- extends (match ?x with _ => _ end) _ => destruct x
      | |- extends (if ?x then _ else _) _ => destruct x
      | H : ∀ _, extends _ _ |- _ => apply H
      | H : ∀ _ _, extends _ _ |- _ => apply H
      | H : ∀ _ _ _, extends _ _ |- _ => apply H
      end ].

Section BodiesExtend.
Context (eb eb' : list cmd → M unit) (et et' : Teardown → M unit).
Context (rt rt' : ref → list Teardown → option (list value)
                  → M (option (list value))).
Context (un un' : ref → M unit) (ad ad' : ref → TeardownLogic → M unit).
Hypothesis Heb : ∀ cs, extends (eb cs) (eb' cs).
Hypothesis Het : ∀ t, extends (et t) (et' t).
Hypothesis Hrt : ∀ this ts errors,
  extends (rt this ts errors) (rt' this ts errors).
Hypothesis Hun : ∀ this, extends (un this) (un' this).
Hypothesis Had : ∀ this t, extends (ad this t) (ad' this t).

Lemma exec_cmd_extends c : extends (exec_cmd eb un ad c) (exec_cmd eb' un' ad' c).
Proof. unfold exec_cmd. extends_steps. Qed.

Lemma execTeardown_body_extends t :
  extends (execTeardown_body eb un t) (execTeardown_body eb' un' t).
Proof. unfold execTeardown_body. extends_steps. Qed.

Lemma unsubscribe_body_extends this :
  extends (unsubscribe_body eb rt this) (unsubscribe_body eb' rt' this).
Proof. unfold unsubscribe_body. extends_steps. Qed.

Lemma add_body_extends this t :
  extends (add_body et this t) (add_body et' this t).
Proof. unfold add_body. extends_steps. Qed.
End BodiesExtend.

Lemma exec_body_S n cs :
  exec_body (S n) cs =
  match cs with [] => ret tt | c :: cs => exec n c;; exec_body n cs end.
Proof. reflexivity. Qed.

Lemma run_teardowns_S n this ts errors :
  run_teardowns (S n) this ts errors =
  match ts with
  | [] => ret errors
  | teardown :: ts =>
      emit (EvTeardown this teardown);;
      r <- try_ (execTeardown n teardown);;
      run_teardowns n this ts (catch_teardown errors r)
  end.
Proof. reflexivity. Qed.

Lemma fuel_S n :
  (∀ c, extends (exec n c) (exec (S n) c))
  ∧ (∀ cs, extends (exec_body n cs) (exec_body (S n) cs))
  ∧ (∀ t, extends (execTeardown n t) (execTeardown (S n) t))
  ∧ (∀ this ts errors,
       extends (run_teardowns n this ts errors) (run_teardowns (S n) this ts errors))
  ∧ (∀ this, extends (unsubscribe n this) (unsubscribe (S n) this))
  ∧ (∀ this t, extends (add n this t) (add (S n) this t)).
Proof.
  induction n as [|n (IHc & IHb & IHt & IHl & IHu & IHa)].
  { repeat apply conj; repeat intros ?; discriminate. }
  repeat apply conj.
  - intros c. by apply exec_cmd_extends.
  - intros cs. rewrite (exec_body_S n), (exec_body_S (S n)). extends_steps.
  - intros t. by apply execTeardown_body_extends.
  - intros this ts errors.
    rewrite (run_teardowns_S n), (run_teardowns_S (S n)). extends_steps.
  - intros this. by apply unsubscribe_body_extends.
  - intros this t. by apply add_body_extends.
Qed.

Lemma fuel_le n m : n ≤ m →
  (∀ c, extends (exec n c) (exec m c))
  ∧ (∀ cs, extends (exec_body n cs) (exec_body m cs))
  ∧ (∀ t, extends (execTeardown n t) (execTeardown m t))
  ∧ (∀ this ts errors,
       extends (run_teardowns n this ts errors) (run_teardowns m this ts errors))
  ∧ (∀ this, extends (unsubscribe n this) (unsubscribe m this))
  ∧ (∀ this t, extends (add n this t) (add m this t)).
Proof.
  induction 1 as [|m _ (IHc & IHb & IHt & IHl & IHu & IHa)].
  { repeat apply conj; intros; apply extends_refl. }
  destruct (fuel_S m) as (Hc & Hb & Ht & Hl & Hu & Ha).
  repeat apply conj; intros; eapply extends_trans; eauto.
Qed.

(** ** Every run ends *)

Lemma stored_insert_fresh s x (h : heap) :
  h !! s = None → stored (<[s:=x]> h) = sub_size x + stored h.
Proof. intros. unfold stored. rewrite map_fold_insert_L; [done| |done]. lia. Qed.

Lemma stored_delete s (h : heap) :
  stored h = sub_size (h !!! s) + stored (delete s h).
Proof.
  rewrite lookup_total_alt. destruct (h !! s) as [x|] eqn:Hs; simpl.
  - unfold stored. rewrite (map_fold_delete_L _ _ s x h); [done| |done]. lia.
  - by rewrite delete_id.
Qed.

Lemma stored_upd s f (h : heap) :
  stored (upd s f h) + sub_size (h !!! s) = stored h + sub_size (f (h !!! s)).
Proof.
  unfold upd. rewrite (stored_delete s h).
  rewrite <- insert_delete_eq, stored_insert_fresh by apply lookup_delete_eq. lia.
Qed.

Lemma stored_pointwise (h h' : heap) :
  (∀ s, sub_size (h' !!! s) ≤ sub_size (h !!! s)) → stored h' ≤ stored h.
Proof.
  revert h. induction h' as [|s x h' Hs IH] using map_ind; intros h Hle.
  - unfold stored at 1. rewrite map_fold_empty. lia.
  - rewrite stored_insert_fresh by done. rewrite (stored_delete s h).
    specialize (Hle s) as Hx. rewrite lookup_total_insert_eq in Hx.
    enough (stored h' ≤ stored (delete s h)) by lia.
    apply IH. intros s'. destruct (decide (s = s')) as [<-|Hne].
    + rewrite (lookup_total_alt h'), Hs. simpl. unfold sub_size. simpl. lia.
    + rewrite lookup_total_delete_ne by done.
      specialize (Hle s'). by rewrite lookup_total_insert_ne in Hle.
Qed.

Lemma teardowns_size_sublist ts1 ts2 :
  ts1 `sublist_of` ts2 → teardowns_size ts1 ≤ teardowns_size ts2.
Proof. induction 1; simpl; lia. Qed.

Lemma stored_shrinks h h' : shrinks h h' → stored h' ≤ stored h.
Proof.
  intros H. apply stored_pointwise. intros s.
  destruct (H s) as (Hc & Hu & _ & Ht). unfold sub_size. rewrite Hc, Hu.
  apply teardowns_size_sublist in Ht. unfold teardowns_of in Ht. lia.
Qed.

Lemma halts_weaken {A} (f : nat → M A) h b b' :
  b ≤ b' → halts f h b → halts f h b'.
Proof.
  intros Hb (n0 & r & h' & tr & H & Hs).
  exists n0, r, h', tr. split; [done|lia].
Qed.

Lemma halts_S {A} (f g : nat → M A) h b :
  (∀ n, g (S n) = f n) → halts f h b → halts g h b.
Proof.
  intros Hg (n0 & r & h' & tr & H & Hs).
  exists (S n0), r, h', tr. split; [|done].
  intros [|n] Hn; [lia|]. rewrite Hg. apply H. lia.
Qed.

Lemma halts_ret {A} (a : A) h b : stored h ≤ b → halts (fun _ => ret a) h b.
Proof. intros. by exists 0, (Returned a), h, []. Qed.

Lemma halts_throw {A} e h b : stored h ≤ b → halts (fun _ => @throw A e) h b.
Proof. intros. by exists 0, (Thrown e), h, []. Qed.

Lemma halts_emit e h b : stored h ≤ b → halts (fun _ => emit e) h b.
Proof. intros. by exists 0, (Returned tt), h, [e]. Qed.

Lemma halts_modify f h b : stored (f h) ≤ b → halts (fun _ => modify f) h b.
Proof. intros. by exists 0, (Returned tt), (f h), []. Qed.

Lemma halts_bind {A B} (f : nat → M A) (k : nat → A → M B) h b1 b2 :
  halts f h b1 → b1 ≤ b2 →
  (∀ a h1, stored h1 ≤ b1 → halts (fun n => k n a) h1 b2) →
  halts (fun n => bind (f n) (k n)) h b2.
Proof.
  intros (n1 & [a|e] & h1 & tr1 & H1 & Hs1) Hb Hk.
  - destruct (Hk a h1 Hs1) as (n2 & r & h2 & tr2 & H2 & Hs2).
    exists (n1 `max` n2), r, h2, (tr1 ++ tr2). split; [|done].
    intros n Hn. eapply bind_returned; [apply H1|apply H2]; lia.
  - exists n1, (Thrown e), h1, tr1. split; [|lia].
    intros n Hn. apply bind_thrown, H1, Hn.
Qed.

Lemma halts_try {A B} (f : nat → M A) (k : nat → outcome A → M B) h b1 b2 :
  halts f h b1 →
  (∀ r h1, stored h1 ≤ b1 → halts (fun n => k n r) h1 b2) →
  halts (fun n => bind (try_ (f n)) (k n)) h b2.
Proof.
  intros (n1 & r0 & h1 & tr1 & H1 & Hs1) Hk.
  destruct (Hk r0 h1 Hs1) as (n2 & r & h2 & tr2 & H2 & Hs2).
  exists (n1 `max` n2), r, h2, (tr1 ++ tr2). split; [|done].
  intros n Hn. eapply bind_try; [apply H1|apply H2]; lia.
Qed.

Lemma halts_read {B} s (k : nat → Subscription → M B) h b :
  halts (fun n => k n (h !!! s)) h b → halts (fun n => bind (read s) (k n)) h b.
Proof.
  intros (n0 & r & h' & tr & H & Hs). exists n0, r, h', tr. split; [|done].
  intros n Hn. rewrite bind_read. by apply H.
Qed.

Lemma halts_modify_bind {B} f (k : nat → unit → M B) h b :
  halts (fun n => k n tt) (f h) b → halts (fun n => bind (modify f) (k n)) h b.
Proof.
  intros (n0 & r & h' & tr & H & Hs). exists n0, r, h', tr. split; [|done].
  intros n Hn. rewrite bind_modify. by apply H.
Qed.

Lemma halts_emit_bind {B} e (k : nat → unit → M B) h b :
  halts (fun n => k n tt) h b → halts (fun n => bind (emit e) (k n)) h b.
Proof.
  intros (n0 & r & h' & tr & H & Hs). exists n0, r, h', (e :: tr).
  split; [|done]. intros n Hn. by apply bind_emit, H.
Qed.

Lemma halts_ret_bind {A B} (a : A) (k : nat → A → M B) h b :
  halts (fun n => k n a) h b → halts (fun n => bind (ret a) (k n)) h b.
Proof.
  intros (n0 & r & h' & tr & H & Hs). exists n0, r, h', tr. split; [|done].
  intros n Hn. rewrite bind_ret. by apply H.
Qed.

Lemma stored_push this t h :
  stored (upd this (fun x =>
    set_teardowns (Some (default [] (_teardowns x) ++ [t])) x) h)
  = stored h + teardown_size t.
Proof.
  pose proof (stored_upd this (fun x =>
    set_teardowns (Some (default [] (_teardowns x) ++ [t])) x) h) as H.
  unfold sub_size in H. simpl in H.
  rewrite sum_list_with_app in H. simpl in H. lia.
Qed.

Lemma all_halt_step N : (∀ N', N' < N → all_halt N') → all_halt N.
Proof.
  intros IH. unfold all_halt in *.
  assert (∀ this h b, stored h < N → stored h ≤ b →
    halts (fun n => unsubscribe n this) h b) as Hun.
  { intros this h b Hlt Hb. eapply halts_weaken; [exact Hb|].
    by apply (IH (stored h) Hlt). }
  assert (∀ this t h b, stored h + from_option teardown_size 0 t < N →
    stored h + from_option teardown_size 0 t ≤ b →
    halts (fun n => add n this t) h b) as Had.
  { intros this t h b Hlt Hb. eapply halts_weaken; [exact Hb|].
    by apply (IH _ Hlt). }
  assert (∀ cs h b, stored h + body_size cs < N →
    stored h + body_size cs ≤ b →
    halts (fun n => exec_body n cs) h b) as Hbd.
  { intros cs h b Hlt Hb. eapply halts_weaken; [exact Hb|].
    by apply (IH _ Hlt). }
  assert (∀ c h, stored h + cmd_size c ≤ N →
    halts (fun n => exec n c) h (stored h + cmd_size c)) as Hexec.
  { intros c h Hle.
    apply (halts_S (fun n => exec_cmd (exec_body n) (unsubscribe n) (add n) c));
      [done|].
    destruct c as [k|s|s [t|]|s t|e|body|s yes no];
      unfold exec_cmd; simpl in Hle |- *.
    - apply halts_emit. lia.
    - apply Hun; lia.
    - apply Had; simpl; lia.
    - apply Had; simpl; lia.
    - apply halts_modify.
      pose proof (stored_shrinks _ _ (shrinks_remove s t h)). lia.
    - apply halts_throw. lia.
    - eapply halts_try;
        [apply (Hbd body h (stored h + sum_list_with cmd_size body)); lia|].
      intros r h1 Hs. apply halts_ret. lia.
    - apply halts_read. destruct (closed _); apply Hbd; lia. }
  assert (∀ t h, stored h + teardown_size t ≤ N →
    halts (fun n => execTeardown n t) h (stored h + teardown_size t)) as Htd.
  { intros t h Hle.
    apply (halts_S (fun n => execTeardown_body (exec_body n) (unsubscribe n) t));
      [done|].
    destruct t as [f body|s|o body];
      unfold execTeardown_body; simpl in Hle |- *.
    - apply Hbd; lia.
    - apply Hun; lia.
    - apply Hbd; lia. }
  assert (∀ cs h, stored h + body_size cs ≤ N →
    halts (fun n => exec_body n cs) h (stored h + body_size cs)) as Hbody.
  { induction cs as [|c cs IHcs]; intros h Hle;
      eapply halts_S; try (intros n; apply exec_body_S).
    - apply halts_ret. lia.
    - simpl in Hle |- *.
      eapply (halts_bind (fun n => exec n c) (fun n _ => exec_body n cs));
        [apply Hexec; lia|lia|].
      intros _ h1 Hs. eapply halts_weaken; [|apply IHcs]; lia. }
  assert (∀ this ts errors h, stored h + teardowns_size ts ≤ N →
    halts (fun n => run_teardowns n this ts errors) h
          (stored h + teardowns_size ts)) as Hloop.
  { intros this. induction ts as [|t ts IHts]; intros errors h Hle;
      eapply halts_S; try (intros n; apply run_teardowns_S).
    - apply halts_ret. lia.
    - simpl in Hle |- *.
      apply halts_emit_bind.
      eapply (halts_try (fun n => execTeardown n t)
                (fun n r => run_teardowns n this ts (catch_teardown errors r))).
      { apply Htd. lia. }
      intros r h1 Hs. eapply halts_weaken; [|apply IHts]; lia. }
  repeat apply conj; try done.
  - intros this h Hle.
    apply (halts_S (fun n =>
      unsubscribe_body (exec_body n) (run_teardowns n) this)); [done|].
    unfold unsubscribe_body. apply halts_read.
    destruct (closed (h !!! this)) eqn:Hc; [apply halts_ret; lia|].
    apply halts_modify_bind, halts_emit_bind, halts_modify_bind, halts_read.
    set (h1 := upd this (set_closed true) h).
    set (h2 := detach_from_parents this h1).
    assert (stored h1 + from_option body_size 0 (_unsubscribe (h !!! this))
            = stored h) as H1.
    { pose proof (stored_upd this (set_closed true) h) as E.
      unfold sub_size in E. simpl in E. rewrite Hc in E. fold h1 in E. lia. }
    assert (stored h2 ≤ stored h1) as H2
      by apply stored_shrinks, shrinks_detach.
    destruct (shrinks_detach this h1 this) as (Hc2 & Hu2 & _).
    fold h2 in Hc2, Hu2. unfold h1 in Hc2, Hu2.
    rewrite upd_lookup_eq in Hc2, Hu2. simpl in Hc2, Hu2.
    eapply (halts_bind _ _ _ (stored h)); [|lia|].
    + rewrite Hu2. destruct (_unsubscribe (h !!! this)) as [body|];
        simpl in H1; [|apply halts_ret; lia].
      assert (∀ h3, stored h3 ≤ stored h2 →
        halts (fun n => emit (EvRelease this);;
                 r <- try_ (exec_body n body);; ret (catch_release r))
              h3 (stored h)) as Hrel.
      { intros h3 H3. apply halts_emit_bind.
        eapply halts_try; [apply Hbody; lia|].
        intros r h4 H4. apply halts_ret. lia. }
      destruct (_ctorUnsubscribe _).
      * apply halts_modify_bind, Hrel.
        pose proof (stored_upd this (set_unsubscribe None) h2) as E.
        unfold sub_size in E. simpl in E. rewrite Hc2 in E. lia.
      * by apply halts_ret_bind, Hrel.
    + intros errors h4 H4. apply halts_read, halts_modify_bind.
      pose proof (stored_upd this (set_teardowns None) h4) as E.
      unfold sub_size in E. simpl in E.
      eapply (halts_bind _ _ _ (stored h)); [|lia|].
      * destruct (_teardowns (h4 !!! this)) as [ts|]; simpl in E.
        -- eapply halts_weaken; [|apply Hloop]; lia.
        -- apply halts_ret. lia.
      * intros [errs|] h6 H6; [apply halts_throw|apply halts_ret]; lia.
  - intros this t h Hle.
    apply (halts_S (fun n => add_body (execTeardown n) this t)); [done|].
    unfold add_body. destruct t as [t|]; simpl in *; [|apply halts_ret; lia].
    destruct (same_teardown t (TSub this)); [apply halts_ret; lia|].
    apply halts_read. destruct (closed (h !!! this)).
    { apply halts_emit_bind. by apply Htd. }
    assert (∀ h0, stored h0 ≤ stored h →
      halts (fun _ => push this t) h0 (stored h + teardown_size t)) as Hpush.
    { intros h0 H0. apply halts_modify. rewrite stored_push. lia. }
    destruct t as [f body|child|o body]; try by apply Hpush.
    apply halts_read. destruct (_ || _); [apply halts_ret; lia|].
    apply halts_modify_bind, Hpush, stored_shrinks, shrinks_addParent.
Qed.

Lemma all_halt_all N : all_halt N.
Proof. induction N as [N IH] using lt_wf_ind. by apply all_halt_step. Qed.

(** [unsubscribe] returns or throws, whatever is stored in the tokens. *)
Lemma unsubscribe_halts this h :
  ∃ n0 r h' tr, ∀ n, n0 ≤ n → unsubscribe n this h = Some (r, h', tr).
Proof.
  destruct (all_halt_all (stored h)) as (_ & _ & _ & _ & H & _).
  destruct (H this h) as (n0 & r & h' & tr & Hn & _); [done|].
  by exists n0, r, h', tr.
Qed.

Lemma add_halts this t h :
  ∃ n0 r h' tr, ∀ n, n0 ≤ n → add n this t h = Some (r, h', tr).
Proof.
  destruct (all_halt_all (stored h + from_option teardown_size 0 t))
    as (_ & _ & _ & _ & _ & H).
  destruct (H this t h) as (n0 & r & h' & tr & Hn & _); [done|].
  by exists n0, r, h', tr.
Qed.

Lemma exec_body_halts cs h :
  ∃ n0 r h' tr, ∀ n, n0 ≤ n → exec_body n cs h = Some (r, h', tr).
Proof.
  destruct (all_halt_all (stored h + body_size cs)) as (_ & H & _).
  destruct (H cs h) as (n0 & r & h' & tr & Hn & _); [done|].
  by exists n0, r, h', tr.
Qed.

(** ** The anatomy of a disposal pass *)

Lemma catch_release_spec {A} (r : outcome A) :
  catch_release r = if failed r then Some (raised r) else None.
Proof. by destruct r as [|[]]. Qed.

Lemma catch_teardown_spec {A} errors (r : outcome A) :
  catch_teardown errors r =
  if failed r then Some (default [] errors ++ raised r) else errors.
Proof. by destruct r as [|[]]. Qed.

Lemma raised_none (rs : list (outcome unit)) :
  existsb failed rs = false → concat (map raised rs) = [].
Proof.
  induction rs as [|[] rs IH]; simpl; [done| |done].
  intros H. by apply IH.
Qed.

Lemma foldl_catch_teardown errors (rs : list (outcome unit)) :
  foldl catch_teardown errors rs =
  if existsb failed rs
  then Some (default [] errors ++ concat (map raised rs))
  else errors.
Proof.
  revert errors. induction rs as [|r rs IH]; intros errors; [done|].
  simpl. rewrite IH, catch_teardown_spec.
  destruct (failed r) eqn:Hr; simpl.
  - destruct (existsb failed rs) eqn:He; [by rewrite <- (assoc_L (++))|].
    by rewrite (raised_none rs He), !app_nil_r.
  - by destruct r.
Qed.

(** The accumulator of the code computes [aggregate]. *)
Lemma collected_aggregate (r0 : outcome unit) rs :
  match foldl catch_teardown (catch_release r0) rs with
  | Some errors => Thrown (VUnsubscriptionError errors)
  | None => Returned tt
  end = aggregate (r0 :: rs).
Proof.
  rewrite foldl_catch_teardown, catch_release_spec. unfold aggregate. simpl.
  destruct (failed r0) eqn:H0; simpl.
  - destruct (existsb failed rs) eqn:He; [done|].
    by rewrite (raised_none rs He), !app_nil_r.
  - destruct r0; [|done]. simpl. by destruct (existsb failed rs).
Qed.

Lemma run_teardowns_pass n this ts errors h r h' tr :
  run_teardowns n this ts errors h = Some (r, h', tr) →
  ∃ rs, pass this ts h rs h' tr ∧ r = Returned (foldl catch_teardown errors rs).
Proof.
  revert ts errors h r h' tr.
  induction n as [|n IH]; intros ts errors h r h' tr H; [done|].
  rewrite run_teardowns_S in H. destruct ts as [|t ts].
  - injection H as <- <- <-. exists []. split; [constructor|done].
  - apply bind_emit_inv in H as (tr' & H & ->).
    apply bind_try_inv in H as (r0 & h1 & tr1 & tr2 & H1 & H2 & ->).
    apply IH in H2 as (rs & Hp & ->). exists (r0 :: rs). split; [|done].
    by econstructor.
Qed.

(** The anatomy of [unsubscribe] on an open token. *)
Lemma unsubscribe_open n this h r h' tr :
  is_closed h this = false →
  unsubscribe n this h = Some (r, h', tr) →
  ∃ r0 h1 tr1 rs tr2,
    released this (detach_from_parents this (upd this (set_closed true) h))
             r0 h1 tr1
    ∧ pass this (teardowns_of h1 this) (upd this (set_teardowns None) h1)
           rs h' tr2
    ∧ tr = EvClosed this :: tr1 ++ tr2
    ∧ r = aggregate (r0 :: rs).
Proof.
  intros Hc H. destruct n as [|n]; [done|].
  cbn [unsubscribe] in H. unfold unsubscribe_body in H.
  rewrite bind_read in H. unfold is_closed in Hc. rewrite Hc in H.
  rewrite bind_modify in H. apply bind_emit_inv in H as (tr' & H & ->).
  rewrite bind_modify, bind_read in H.
  set (h0 := detach_from_parents this (upd this (set_closed true) h)) in *.
  assert (∃ r0 h1 tr1 tr2 rest,
    released this h0 r0 h1 tr1 ∧ tr' = tr1 ++ tr2
    ∧ bind (read this) rest h1 = Some (r, h', tr2)
    ∧ rest = (fun x => modify (upd this (set_teardowns None));;
        errors <- match _teardowns x with
                  | Some ts => run_teardowns n this ts (catch_release r0)
                  | None => ret (catch_release r0)
                  end;;
        match errors with
        | Some errors => throw (VUnsubscriptionError errors)
        | None => ret tt
        end))
    as (r0 & h1 & tr1 & tr2 & rest & Hrel & -> & H' & ->).
  { destruct (_unsubscribe (h0 !!! this)) as [body|] eqn:Hu.
    - apply bind_inv in H as [(e & H & _)|(a & h1 & tr1 & tr2 & H & H' & ->)].
      + exfalso. destruct (_ctorUnsubscribe (h0 !!! this));
          [rewrite bind_modify in H|rewrite bind_ret in H];
          apply bind_emit_inv in H as (? & H & _);
          by apply bind_try_inv in H as (? & ? & ? & ? & _ & [=] & _).
      + assert (∃ r0 trb, exec_body n body
          (if _ctorUnsubscribe (h0 !!! this)
           then upd this (set_unsubscribe None) h0 else h0) = Some (r0, h1, trb)
          ∧ tr1 = EvRelease this :: trb ∧ a = catch_release r0)
          as (r0 & trb & Hb & -> & ->).
        { destruct (_ctorUnsubscribe (h0 !!! this));
            [rewrite bind_modify in H|rewrite bind_ret in H];
            apply bind_emit_inv in H as (? & H & ->);
            apply bind_try_inv in H as (r0 & ? & trb & ? & Hb & [= <- <- <-] & ->);
            exists r0, trb; by rewrite app_nil_r. }
        exists r0, h1, (EvRelease this :: trb), tr2. eexists.
        split; [by econstructor|]. split; [done|]. split; [exact H'|done].
    - rewrite bind_ret in H. exists (Returned tt), h0, [], tr'. eexists.
      split; [by constructor|]. split; [done|]. split; [exact H|done]. }
  rewrite bind_read, bind_modify in H'.
  apply bind_inv in H' as [(e & H' & ->)|(errors & h2 & tr3 & tr4 & H1 & H2 & ->)].
  - exfalso. destruct (_teardowns (h1 !!! this)); [|done].
    by apply run_teardowns_pass in H' as (? & _ & [=]).
  - assert (∃ rs, pass this (teardowns_of h1 this)
      (upd this (set_teardowns None) h1) rs h2 tr3
      ∧ errors = foldl catch_teardown (catch_release r0) rs) as (rs & Hp & ->).
    { unfold teardowns_of. destruct (_teardowns (h1 !!! this)); simpl.
      - apply run_teardowns_pass in H1 as (rs & Hp & [= ->]). by exists rs.
      - injection H1 as <- <- <-. exists []. split; [constructor|done]. }
    exists r0, h1, tr1, rs, tr3.
    assert (r = aggregate (r0 :: rs) ∧ h' = h2 ∧ tr4 = []) as (-> & -> & ->).
    { rewrite <- collected_aggregate.
      by destruct (foldl catch_teardown (catch_release r0) rs);
        injection H2 as <- <- <-. }
    rewrite app_nil_r. by repeat split.
Qed.

(** [unsubscribe] on a closed token: nothing happens. *)
Lemma unsubscribe_closed n this h :
  is_closed h this = true →
  unsubscribe (S n) this h = Some (Returned tt, h, []).
Proof.
  intros Hc. cbn [unsubscribe]. unfold unsubscribe_body.
  rewrite bind_read. unfold is_closed in Hc. by rewrite Hc.
Qed.

(** After [unsubscribe], however it ended, the token is closed. *)
Lemma unsubscribe_closes n this h r h' tr :
  unsubscribe n this h = Some (r, h', tr) → is_closed h' this = true.
Proof.
  intros H. pose proof (unsubscribe_sound _ _ _ _ _ _ H) as Hok.
  destruct (is_closed h this) eqn:Hc; [by eapply step_ok_mono|].
  destruct (unsubscribe_open _ _ _ _ _ _ Hc H)
    as (r0 & h1 & tr1 & rs & tr2 & _ & _ & -> & _).
  pose proof (ok_closed _ _ _ _ Hok this) as Hn.
  unfold count_closed in Hn. simpl in Hn. rewrite Nat.eqb_refl in Hn.
  simpl in Hn. destruct (is_closed h' this); [done|simpl in Hn; lia].
Qed.

Lemma released_sound this h0 r0 h1 tr1 :
  released this h0 r0 h1 tr1 → is_closed h0 this = true →
  step_ok (Some this) h0 tr1 h1
  ∧ own_events this tr1 = release_events this h0.
Proof.
  unfold release_events.
  intros [Hu|n body r h1' tr Hu Hb] Hc; rewrite Hu.
  { split; [apply step_ok_refl|done]. }
  set (h0' := if _ctorUnsubscribe (h0 !!! this)
              then upd this (set_unsubscribe None) h0 else h0) in *.
  assert (step_ok (Some this) h0 [] h0') as H0.
  { unfold h0'. destruct (_ctorUnsubscribe _); [|apply step_ok_refl].
    by apply step_ok_upd. }
  pose proof (exec_body_sound _ _ _ _ _ _ Hb) as Hok. split.
  - apply step_ok_cons; try done.
    + intros s Hs. simpl. apply Nat.eqb_neq. congruence.
    + rewrite <- (app_nil_l tr). eapply step_ok_trans; [exact H0|].
      by apply step_ok_weaken.
  - unfold own_events. simpl. rewrite Nat.eqb_refl. f_equal.
    apply (ok_own _ _ _ _ Hok this); [done|]. by eapply step_ok_mono.
Qed.

Lemma pass_sound this ts h rs h' tr :
  pass this ts h rs h' tr → is_closed h this = true →
  step_ok (Some this) h tr h'
  ∧ own_events this tr = map (EvTeardown this) ts
  ∧ length rs = length ts.
Proof.
  induction 1 as [h|n t ts h r h1 tr1 rs h2 tr2 Ht Hp IH]; intros Hc.
  { split; [apply step_ok_refl|done]. }
  pose proof (execTeardown_sound _ _ _ _ _ _ Ht) as Hok.
  destruct IH as (IH1 & IH2 & IH3); [by eapply step_ok_mono|].
  split; [|split].
  - apply step_ok_cons; try done.
    + intros s Hs. simpl. apply Nat.eqb_neq. congruence.
    + eapply step_ok_trans; [by apply step_ok_weaken|done].
  - unfold own_events at 1. simpl. rewrite Nat.eqb_refl. f_equal.
    fold (own_events this (tr1 ++ tr2)). rewrite own_events_app, IH2.
    by rewrite (ok_own _ _ _ _ Hok this).
  - simpl. by rewrite IH3.
Qed.

(** Every token among the teardowns of a pass is closed when it ends. *)
Lemma pass_closes this ts h rs h' tr child :
  pass this ts h rs h' tr → is_closed h this = true →
  TSub child ∈ ts → is_closed h' child = true.
Proof.
  induction 1 as [h|n t ts h r h1 tr1 rs h2 tr2 Ht Hp IH]; intros Hc Hin.
  { by apply elem_of_nil in Hin. }
  pose proof (execTeardown_sound _ _ _ _ _ _ Ht) as Hok.
  assert (is_closed h1 this = true) as Hc1 by by eapply step_ok_mono.
  apply elem_of_cons in Hin as [<-|Hin]; [|by apply IH].
  destruct (pass_sound _ _ _ _ _ _ Hp Hc1) as (Hok2 & _).
  eapply step_ok_mono; [exact Hok2|].
  destruct n as [|n]; [done|]. cbn [execTeardown execTeardown_body] in Ht.
  by eapply unsubscribe_closes.
Qed.

(** A token that is not its own parent keeps its teardowns while it is
    taken off its parents. *)
Lemma removeParent_teardowns this parent h s :
  teardowns_of (_removeParent this parent h) s = teardowns_of h s.
Proof.
  unfold _removeParent, teardowns_of. repeat case_match; try done;
    rewrite upd_lookup; by case_decide; subst.
Qed.

Lemma remove_teardowns_ne parent t h s :
  parent ≠ s → teardowns_of (remove parent t h) s = teardowns_of h s.
Proof.
  intros Hne. unfold remove.
  assert (teardowns_of
    match _teardowns (h !!! parent) with
    | Some ts =>
        match indexOf same_teardown ts t with
        | Some index => upd parent (set_teardowns (Some (delete index ts))) h
        | None => h
        end
    | None => h
    end s = teardowns_of h s) as H1.
  { unfold teardowns_of. repeat case_match; try done.
    by rewrite upd_lookup_ne. }
  destruct t; try done. by rewrite removeParent_teardowns.
Qed.

Lemma detach_teardowns this h :
  _hasParent (h !!! this) this = false →
  teardowns_of (detach_from_parents this h) this = teardowns_of h this.
Proof.
  unfold _hasParent, detach_from_parents. intros Hp.
  apply orb_false_elim in Hp as [Hp _]. apply orb_false_elim in Hp as [H1 H2].
  destruct (_singleParent (h !!! this)) as [single|].
  - apply Nat.eqb_neq in H1. rewrite remove_teardowns_ne by done.
    unfold teardowns_of. by rewrite upd_lookup_eq.
  - destruct (_parents (h !!! this)) as [ps|]; [|done].
    transitivity (teardowns_of (upd this (set_parents None) h) this);
      [|unfold teardowns_of; by rewrite upd_lookup_eq].
    generalize (upd this (set_parents None) h). clear -H2.
    induction ps as [|p ps IH]; intros h0; [done|]. simpl in *.
    apply orb_false_elim in H2 as [Hp H2]. apply Nat.eqb_neq in Hp.
    rewrite IH by done.
    exact (remove_teardowns_ne p (TSub this) h0 this (not_eq_sym Hp)).
Qed.

(** ** Adapters: every run ends and delivers in order *)

Lemma quiet_callbacks subs c tr tr' :
  adapter_events tr = [] →
  quiet_once_closed subs c (tr ++ tr')
  = quiet_once_closed subs (c || negb (Nat.eqb (count_closed subs tr) 0)) tr'.
Proof.
  revert c. induction tr as [|e tr IH]; intros c He.
  { simpl. by rewrite orb_false_r. }
  unfold adapter_events, count_closed in *. destruct e; simpl in *; try done;
    try (by apply IH).
  rewrite IH by done. f_equal. destruct (s =? subs); simpl.
  - by rewrite !orb_true_r.
  - by rewrite orb_false_r.
Qed.

Lemma exhaustion_callbacks iterable ex tr tr' :
  adapter_events tr = [] →
  complete_by_exhaustion iterable ex (tr ++ tr')
  = complete_by_exhaustion iterable ex tr'.
Proof.
  intros He. induction tr as [|e tr IH]; [done|].
  unfold adapter_events in *. destruct e; simpl in *; try done; by apply IH.
Qed.

Lemma closed_after x h tr h' s :
  step_ok x h tr h' →
  is_closed h' s = is_closed h s || negb (Nat.eqb (count_closed s tr) 0).
Proof.
  intros H. pose proof (ok_closed _ _ _ _ H s) as Hs.
  destruct (is_closed h s), (is_closed h' s), (count_closed s tr);
    simpl in *; try done; lia.
Qed.

(** After callbacks ran, the rest of the trace is judged from the flag they
    left. *)
Lemma quiet_after_callbacks x h tr h' subs tr' :
  step_ok x h tr h' →
  quiet_once_closed subs (is_closed h subs) (tr ++ tr')
  = quiet_once_closed subs (is_closed h' subs) tr'.
Proof.
  intros H. rewrite quiet_callbacks by apply (ok_msgs _ _ _ _ H).
  by rewrite <- (closed_after _ _ _ _ _ H).
Qed.

Lemma call_sink_halts sink hist type payload subs h :
  ∃ n0 r h' tr,
    (∀ n, n0 ≤ n →
       call_sink n sink hist type payload subs h
       = Some (r, h', EvMsg type payload :: tr))
    ∧ step_ok None h tr h'
    ∧ exec_body n0 (sink hist type payload subs) h = Some (r, h', tr).
Proof.
  destruct (exec_body_halts (sink hist type payload subs) h)
    as (n0 & r & h' & tr & H).
  exists n0, r, h', tr. split; [|split].
  - intros n Hn. unfold call_sink. by apply bind_emit, H.
  - eapply exec_body_sound. by apply (H n0).
  - by apply H.
Qed.

(** The pull loop: it ends within any window, and it pulls and delivers
    only while the token is open; [COMPLETE] is last. *)
Lemma iterate_safe k iterable sink subs i hist h :
  ∃ n0 r h' tr,
    (∀ n, n0 ≤ n → iterate k n iterable sink subs i hist h = Some (r, h', tr))
    ∧ quiet_once_closed subs (is_closed h subs) tr = true
    ∧ terminal_last (messages tr) = true
    ∧ ∀ ex, complete_by_exhaustion iterable ex tr = true.
Proof.
  revert i hist h. induction k as [|k IH]; intros i hist h.
  { by exists 0, (Returned Running), h, []. }
  destruct (closed (h !!! subs)) eqn:Hc.
  { exists 0, (Returned Finished), h, []. split; [|done].
    intros n _. simpl. by rewrite bind_read, Hc. }
  assert (∀ n r h' tr,
    (emit (EvPull i);;
     match iterable i with
     | None => call_sink n sink hist COMPLETE VUndefined subs;; ret Finished
     | Some value =>
         call_sink n sink hist NEXT value subs;;
         iterate k n iterable sink subs (S i) (hist ++ [(NEXT, value)])
     end) h = Some (r, h', tr) →
    iterate (S k) n iterable sink subs i hist h = Some (r, h', tr)) as Hstep.
  { intros n r h' tr H. simpl. by rewrite bind_read, Hc. }
  unfold is_closed. rewrite Hc.
  destruct (iterable i) as [v|] eqn:Hi.
  - destruct (call_sink_halts sink hist NEXT v subs h)
      as (n1 & r1 & h1 & tr1 & H1 & Hok1 & _).
    destruct r1 as [[]|e].
    + destruct (IH (S i) (hist ++ [(NEXT, v)]) h1)
        as (n2 & r2 & h2 & tr2 & H2 & Hq2 & Ht2 & Hx2).
      exists (n1 `max` n2), r2, h2, (EvPull i :: (EvMsg NEXT v :: tr1) ++ tr2).
      split; [|split; [|split]].
      * intros n Hn. apply Hstep, bind_emit.
        eapply bind_returned; [apply H1|apply H2]; lia.
      * simpl. rewrite <- Hq2.
        rewrite <- (quiet_after_callbacks _ _ _ _ subs tr2 Hok1).
        unfold is_closed. by rewrite Hc.
      * unfold messages. simpl. fold (messages (tr1 ++ tr2)).
        rewrite messages_app.
        by rewrite (adapter_events_messages _ (ok_msgs _ _ _ _ Hok1)).
      * intros ex. simpl.
        by rewrite (exhaustion_callbacks _ _ _ _ (ok_msgs _ _ _ _ Hok1)).
    + exists n1, (Thrown e), h1, (EvPull i :: EvMsg NEXT v :: tr1).
      split; [|split; [|split]].
      * intros n Hn. apply Hstep, bind_emit. by apply bind_thrown, H1.
      * simpl. rewrite <- (app_nil_r tr1).
        by rewrite (quiet_callbacks subs false tr1 [] (ok_msgs _ _ _ _ Hok1)).
      * unfold messages. simpl. fold (messages tr1).
        by rewrite (adapter_events_messages _ (ok_msgs _ _ _ _ Hok1)).
      * intros ex. simpl. rewrite <- (app_nil_r tr1).
        by rewrite (exhaustion_callbacks _ _ _ _ (ok_msgs _ _ _ _ Hok1)).
  - destruct (call_sink_halts sink hist COMPLETE VUndefined subs h)
      as (n1 & r1 & h1 & tr1 & H1 & Hok1 & _).
    exists n1, (match r1 with Returned _ => Returned Finished
                         | Thrown e => Thrown e end),
      h1, (EvPull i :: EvMsg COMPLETE VUndefined :: tr1).
    split; [|split; [|split]].
    + intros n Hn. apply Hstep, bind_emit. destruct r1 as [[]|e].
      * rewrite <- (app_nil_r (_ :: tr1)).
        eapply bind_returned; [by apply H1|done].
      * by apply bind_thrown, H1.
    + simpl. rewrite <- (app_nil_r tr1).
      by rewrite (quiet_callbacks subs false tr1 [] (ok_msgs _ _ _ _ Hok1)).
    + unfold messages. simpl. fold (messages tr1).
      by rewrite (adapter_events_messages _ (ok_msgs _ _ _ _ Hok1)).
    + intros ex. simpl. rewrite Hi, bool_decide_eq_true_2 by done. simpl.
      rewrite <- (app_nil_r tr1).
      by rewrite (exhaustion_callbacks _ _ _ _ (ok_msgs _ _ _ _ Hok1)).
Qed.

(** With a passive sink and an open token, a finite sequence is delivered
    item by item, then [COMPLETE]. *)
Lemma iterate_of_list l sink subs :
  passive sink subs →
  ∀ k i hist h,
    is_closed h subs = false → i ≤ length l → length l - i < k →
    ∃ n0 h' tr,
      (∀ n, n0 ≤ n →
         iterate k n (of_list l) sink subs i hist h
         = Some (Returned Finished, h', tr))
      ∧ messages tr = map (EvMsg NEXT) (drop i l) ++ [EvMsg COMPLETE VUndefined].
Proof.
  intros Hpassive. induction k as [|k IH]; intros i hist h Hc Hi Hk; [lia|].
  unfold is_closed in Hc.
  assert (∀ n r h' tr,
    (emit (EvPull i);;
     match of_list l i with
     | None => call_sink n sink hist COMPLETE VUndefined subs;; ret Finished
     | Some value =>
         call_sink n sink hist NEXT value subs;;
         iterate k n (of_list l) sink subs (S i) (hist ++ [(NEXT, value)])
     end) h = Some (r, h', tr) →
    iterate (S k) n (of_list l) sink subs i hist h = Some (r, h', tr)) as Hstep.
  { intros n r h' tr H. simpl. by rewrite bind_read, Hc. }
  unfold of_list in *. destruct (l !! i) as [v|] eqn:Hl.
  - destruct (call_sink_halts sink hist NEXT v subs h)
      as (n1 & r1 & h1 & tr1 & H1 & Hok1 & Hb1).
    destruct (Hpassive _ _ _ _ _ _ _ _ Hb1) as (-> & Hc1).
    apply lookup_lt_Some in Hl as Hlt.
    destruct (IH (S i) (hist ++ [(NEXT, v)]) h1)
      as (n2 & h2 & tr2 & H2 & Hm2); [by apply Hc1|lia|lia|].
    exists (n1 `max` n2), h2, (EvPull i :: (EvMsg NEXT v :: tr1) ++ tr2).
    split.
    + intros n Hn. apply Hstep, bind_emit.
      eapply bind_returned; [apply H1|apply H2]; lia.
    + unfold messages. simpl. fold (messages (tr1 ++ tr2)).
      rewrite messages_app, Hm2.
      rewrite (adapter_events_messages _ (ok_msgs _ _ _ _ Hok1)).
      by rewrite (drop_S l v i Hl).
  - destruct (call_sink_halts sink hist COMPLETE VUndefined subs h)
      as (n1 & r1 & h1 & tr1 & H1 & Hok1 & Hb1).
    destruct (Hpassive _ _ _ _ _ _ _ _ Hb1) as (-> & Hc1).
    exists n1, h1, (EvPull i :: EvMsg COMPLETE VUndefined :: tr1). split.
    + intros n Hn. apply Hstep, bind_emit.
      rewrite <- (app_nil_r (_ :: tr1)).
      eapply bind_returned; [by apply H1|done].
    + apply lookup_ge_None in Hl. rewrite drop_ge by done.
      unfold messages. simpl. fold (messages tr1).
      by rewrite (adapter_events_messages _ (ok_msgs _ _ _ _ Hok1)).
Qed.

(** The callbacks of [promise.then]: one [NEXT] then [COMPLETE], or one
    [ERROR]; nothing when the promise is fulfilled on a closed token. *)
Lemma promiseSource_then_safe p sink subs h :
  ∃ n0 r h' tr,
    (∀ n, n0 ≤ n → promiseSource_then n p sink subs h = Some (r, h', tr))
    ∧ terminal_last (messages tr) = true
    ∧ (is_closed h subs = true → ∀ v, p = Fulfilled v → tr = []).
Proof.
  destruct p as [v|err]; unfold promiseSource_then.
  - destruct (closed (h !!! subs)) eqn:Hc.
    { exists 0, (Returned tt), h, []. split; [|done].
      intros n _. by rewrite bind_read, Hc. }
    destruct (call_sink_halts sink [] NEXT v subs h)
      as (n1 & r1 & h1 & tr1 & H1 & Hok1 & _).
    pose proof (adapter_events_messages _ (ok_msgs _ _ _ _ Hok1)) as Hm1.
    destruct r1 as [[]|e].
    + destruct (call_sink_halts sink [(NEXT, v)] COMPLETE VUndefined subs h1)
        as (n2 & r2 & h2 & tr2 & H2 & Hok2 & _).
      pose proof (adapter_events_messages _ (ok_msgs _ _ _ _ Hok2)) as Hm2.
      exists (n1 `max` n2), r2, h2,
        ((EvMsg NEXT v :: tr1) ++ EvMsg COMPLETE VUndefined :: tr2).
      split; [|split].
      * intros n Hn. rewrite bind_read, Hc. cbn [negb].
        eapply bind_returned; [apply H1|apply H2]; lia.
      * rewrite messages_app. unfold messages at 1 2. simpl.
        fold (messages tr1). fold (messages tr2). by rewrite Hm1, Hm2.
      * unfold is_closed. congruence.
    + exists n1, (Thrown e), h1, (EvMsg NEXT v :: tr1). split; [|split].
      * intros n Hn. rewrite bind_read, Hc. cbn [negb].
        by apply bind_thrown, H1.
      * unfold messages. simpl. fold (messages tr1). by rewrite Hm1.
      * unfold is_closed. congruence.
  - destruct (call_sink_halts sink [] ERROR err subs h)
      as (n1 & r1 & h1 & tr1 & H1 & Hok1 & _).
    pose proof (adapter_events_messages _ (ok_msgs _ _ _ _ Hok1)) as Hm1.
    exists n1, r1, h1, (EvMsg ERROR err :: tr1). split; [done|split; [|done]].
    unfold messages. simpl. fold (messages tr1). by rewrite Hm1.
Qed.

Lemma exec_body_quiet n cs h r h' tr :
  exec_body n cs h = Some (r, h', tr) → messages tr = [].
Proof.
  intros H. apply adapter_events_messages.
  apply (ok_msgs _ _ _ _ (exec_body_sound _ _ _ _ _ _ H)).
Qed.

(** The life of a deferred-value subscription, whatever runs before the
    promise settles. *)
Lemma promiseSource_safe promise env sink subs h :
  ∃ n0 r h' tr,
    (∀ n, n0 ≤ n →
       promiseSource promise env n SUBSCRIBE sink subs h = Some (r, h', tr))
    ∧ terminal_last (messages tr) = true.
Proof.
  destruct (exec_body_halts env h) as (n1 & r1 & h1 & tr1 & H1).
  pose proof (exec_body_quiet _ _ _ _ _ _ (H1 n1 (le_n _))) as Hm1.
  destruct promise as [p|].
  - destruct (promiseSource_then_safe p sink subs h1)
      as (n2 & r2 & h2 & tr2 & H2 & Ht2 & _).
    exists (n1 `max` n2), r2, h2, (tr1 ++ tr2). split.
    + intros n Hn. simpl. eapply bind_try; [apply H1|apply H2]; lia.
    + by rewrite messages_app, Hm1.
  - exists n1, (Returned tt), h1, (tr1 ++ []). split.
    + intros n Hn. simpl. eapply bind_try; [by apply H1|done].
    + by rewrite messages_app, Hm1.
Qed.

(** The async pull chain: at most one terminal message, nothing after. *)
Lemma getNextValue_safe steps sink subs hist h :
  ∃ n0 r h' tr,
    (∀ n, n0 ≤ n → getNextValue n steps sink subs hist h = Some (r, h', tr))
    ∧ terminal_last (messages tr) = true.
Proof.
  revert hist h. induction steps as [|[env step] steps IH]; intros hist h.
  { by exists 0, (Returned tt), h, []. }
  destruct (exec_body_halts env h) as (n1 & r1 & h1 & tr1 & H1).
  pose proof (exec_body_quiet _ _ _ _ _ _ (H1 n1 (le_n _))) as Hm1.
  assert (∀ type payload, ∃ n0 r h' tr,
    (∀ n, n0 ≤ n →
       (_ <- try_ (exec_body n env);;
        call_sink n sink hist type payload subs) h = Some (r, h', tr))
    ∧ messages tr = [EvMsg type payload]) as Hone.
  { intros type payload.
    destruct (call_sink_halts sink hist type payload subs h1)
      as (n2 & r2 & h2 & tr2 & H2 & Hok2 & _).
    exists (n1 `max` n2), r2, h2, (tr1 ++ EvMsg type payload :: tr2). split.
    - intros n Hn. eapply bind_try; [apply H1|apply H2]; lia.
    - rewrite messages_app, Hm1. unfold messages. simpl. fold (messages tr2).
      by rewrite (adapter_events_messages _ (ok_msgs _ _ _ _ Hok2)). }
  destruct step as [v| |err].
  - destruct (call_sink_halts sink hist NEXT v subs h1)
      as (n2 & r2 & h2 & tr2 & H2 & Hok2 & _).
    pose proof (adapter_events_messages _ (ok_msgs _ _ _ _ Hok2)) as Hm2.
    destruct r2 as [[]|e].
    + destruct (IH (hist ++ [(NEXT, v)]) h2) as (n3 & r3 & h3 & tr3 & H3 & Ht3).
      exists (n1 `max` (n2 `max` n3)), r3, h3,
        (tr1 ++ (EvMsg NEXT v :: tr2) ++ tr3). split.
      * intros n Hn. cbn [getNextValue]. eapply bind_try; [apply H1; lia|].
        eapply bind_returned; [apply H2|apply H3]; lia.
      * rewrite !messages_app, Hm1. unfold messages at 1. simpl.
        fold (messages tr2). by rewrite Hm2.
    + exists (n1 `max` n2), (Thrown e), h2, (tr1 ++ EvMsg NEXT v :: tr2). split.
      * intros n Hn. cbn [getNextValue]. eapply bind_try; [apply H1; lia|].
        apply bind_thrown, H2. lia.
      * rewrite messages_app, Hm1. unfold messages. simpl.
        fold (messages tr2). by rewrite Hm2.
  - destruct (Hone COMPLETE VUndefined) as (n0 & r & h' & tr & H & Hm).
    exists n0, r, h', tr. split; [done|by rewrite Hm].
  - destruct (Hone ERROR err) as (n0 & r & h' & tr & H & Hm).
    exists n0, r, h', tr. split; [done|by rewrite Hm].
Qed.

(** The interop adapter when the conversion returned [undefined] or
    [null]: one [ERROR] is delivered, and then the caller of [SUBSCRIBE]
    gets an exception. *)
Lemma symbolObservableSource_nullish f sink subs h :
  ∃ n0 e h' tr,
    (∀ n, n0 ≤ n →
       symbolObservableSource Nullish f n SUBSCRIBE sink subs h
       = Some (Thrown e, h',
               EvMsg ERROR (VError
                 "invalid Symbol.observable implementation, observable not returned")
               :: tr))
    ∧ messages tr = []
    ∧ (passive sink subs →
       e = VTypeError "Cannot read properties of undefined (reading 'subscribe')").
Proof.
  destruct (call_sink_halts sink [] ERROR (VError
    "invalid Symbol.observable implementation, observable not returned") subs h)
    as (n1 & r1 & h1 & tr1 & H1 & Hok1 & Hb1).
  pose proof (adapter_events_messages _ (ok_msgs _ _ _ _ Hok1)) as Hm1.
  destruct r1 as [[]|e].
  - eexists n1, _, h1, tr1. split; [|split; [done|done]].
    intros n Hn. cbn [symbolObservableSource]. rewrite <- (app_nil_r (_ :: tr1)).
    eapply bind_returned; [by apply H1|done].
  - exists n1, e, h1, tr1. split; [|split; [done|]].
    + intros n Hn. cbn [symbolObservableSource]. by apply bind_thrown, H1.
    + intros Hp. by destruct (Hp _ _ _ _ _ _ _ _ Hb1) as ([=] & _).
Qed.

(** ... and when it returned a falsy primitive: two [ERROR] messages. *)
Lemma symbolObservableSource_falsy f sink subs h :
  passive sink subs →
  ∃ n0 h' tr,
    (∀ n, n0 ≤ n →
       symbolObservableSource FalsyPrimitive f n SUBSCRIBE sink subs h
       = Some (Returned tt, h', tr))
    ∧ messages tr =
      [EvMsg ERROR (VError
         "invalid Symbol.observable implementation, observable not returned");
       EvMsg ERROR (VError
         "invalid Symbol.observable implementation, no subscribe method on returned value")].
Proof.
  intros Hp.
  destruct (call_sink_halts sink [] ERROR (VError
    "invalid Symbol.observable implementation, observable not returned") subs h)
    as (n1 & r1 & h1 & tr1 & H1 & Hok1 & Hb1).
  destruct (Hp _ _ _ _ _ _ _ _ Hb1) as (-> & _).
  destruct (call_sink_halts sink [(ERROR, VError
    "invalid Symbol.observable implementation, observable not returned")]
    ERROR (VError
    "invalid Symbol.observable implementation, no subscribe method on returned value")
    subs h1) as (n2 & r2 & h2 & tr2 & H2 & Hok2 & Hb2).
  destruct (Hp _ _ _ _ _ _ _ _ Hb2) as (-> & _).
  eexists (n1 `max` n2), h2, _. split.
  - intros n Hn. cbn [symbolObservableSource].
    eapply bind_returned; [apply H1|apply H2]; lia.
  - rewrite messages_app. unfold messages. simpl.
    fold (messages tr1). fold (messages tr2).
    by rewrite (adapter_events_messages _ (ok_msgs _ _ _ _ Hok1)),
      (adapter_events_messages _ (ok_msgs _ _ _ _ Hok2)).
Qed.

(** ... and when it returned something without [subscribe]: one [ERROR],
    nothing thrown by the adapter. *)
Lemma symbolObservableSource_no_subscribe f sink subs h :
  ∃ n0 r h' tr,
    (∀ n, n0 ≤ n →
       symbolObservableSource NoSubscribe f n SUBSCRIBE sink subs h
       = Some (r, h', tr))
    ∧ messages tr =
      [EvMsg ERROR (VError
         "invalid Symbol.observable implementation, no subscribe method on returned value")]
    ∧ (passive sink subs → r = Returned tt).
Proof.
  destruct (call_sink_halts sink [] ERROR (VError
    "invalid Symbol.observable implementation, no subscribe method on returned value")
    subs h) as (n1 & r1 & h1 & tr1 & H1 & Hok1 & Hb1).
  exists n1, r1, h1, (EvMsg ERROR (VError
    "invalid Symbol.observable implementation, no subscribe method on returned value")
    :: tr1).
  split; [done|split].
  - unfold messages. simpl. fold (messages tr1).
    by rewrite (adapter_events_messages _ (ok_msgs _ _ _ _ Hok1)).
  - intros Hp. by destruct (Hp _ _ _ _ _ _ _ _ Hb1) as (-> & _).
Qed.

(** ** [unsubscribe]: the claims about disposal *)

Lemma silent_passive subs : passive silent subs.
Proof.
  intros hist type payload [|n] h r h' tr; [done|].
  by intros [= <- <- <-].
Qed.

Lemma pass_start_closed this h : is_closed (pass_start this h) this = true.
Proof.
  unfold pass_start, is_closed.
  destruct (shrinks_detach this (upd this (set_closed true) h) this) as (-> & _).
  by rewrite upd_lookup_eq.
Qed.

Lemma pass_start_teardowns this h :
  _hasParent (h !!! this) this = false →
  teardowns_of (pass_start this h) this = teardowns_of h this.
Proof.
  intros Hp. unfold pass_start. rewrite detach_teardowns.
  - unfold teardowns_of. by rewrite upd_lookup_eq.
  - by rewrite upd_lookup_eq.
Qed.

(** Without a release action the teardowns that run are the stored ones. *)
Lemma released_nothing this h r0 h1 tr1 :
  released this (pass_start this h) r0 h1 tr1 →
  _unsubscribe (h !!! this) = None →
  r0 = Returned tt ∧ h1 = pass_start this h ∧ tr1 = [].
Proof.
  intros [Hu|n body r h1' tr Hu Hb] Hnone; [done|].
  exfalso. unfold pass_start in Hu.
  destruct (shrinks_detach this (upd this (set_closed true) h) this)
    as (_ & Hu' & _).
  rewrite Hu', upd_lookup_eq in Hu. simpl in Hu. congruence.
Qed.

(** The whole story of disposing an open token, for enough fuel. *)
Lemma unsubscribe_open_halts this h :
  is_closed h this = false →
  ∃ n0 r h' tr r0 h1 tr1 rs tr2,
    (∀ n, n0 ≤ n → unsubscribe n this h = Some (r, h', tr))
    ∧ released this (pass_start this h) r0 h1 tr1
    ∧ pass this (teardowns_of h1 this) (upd this (set_teardowns None) h1)
           rs h' tr2
    ∧ tr = EvClosed this :: tr1 ++ tr2
    ∧ r = aggregate (r0 :: rs)
    ∧ is_closed h1 this = true.
Proof.
  intros Hc. destruct (unsubscribe_halts this h) as (n0 & r & h' & tr & H).
  destruct (unsubscribe_open _ _ _ _ _ _ Hc (H n0 (le_n _)))
    as (r0 & h1 & tr1 & rs & tr2 & Hrel & Hp & -> & ->).
  exists n0, (aggregate (r0 :: rs)), h', (EvClosed this :: tr1 ++ tr2),
    r0, h1, tr1, rs, tr2.
  repeat split; try done.
  destruct (released_sound _ _ _ _ _ Hrel (pass_start_closed this h)) as (Hok & _).
  eapply step_ok_mono; [exact Hok|apply pass_start_closed].
Qed.

Lemma release_events_pass_start this h :
  release_events this (pass_start this h) = release_events this h.
Proof.
  unfold release_events, pass_start.
  destruct (shrinks_detach this (upd this (set_closed true) h) this)
    as (_ & -> & _).
  by rewrite upd_lookup_eq.
Qed.

(** What the pass of [this] itself executed during its disposal. *)
Lemma unsubscribe_own_events this h r0 h1 tr1 rs h' tr2 :
  released this (pass_start this h) r0 h1 tr1 →
  pass this (teardowns_of h1 this) (upd this (set_teardowns None) h1) rs h' tr2 →
  own_events this (EvClosed this :: tr1 ++ tr2)
  = release_events this h ++ map (EvTeardown this) (teardowns_of h1 this)
  ∧ own_events this tr2 = map (EvTeardown this) (teardowns_of h1 this)
  ∧ length rs = length (teardowns_of h1 this)
  ∧ step_ok (Some this) (pass_start this h) tr1 h1
  ∧ step_ok (Some this) (upd this (set_teardowns None) h1) tr2 h'.
Proof.
  intros Hrel Hp.
  destruct (released_sound _ _ _ _ _ Hrel (pass_start_closed this h))
    as (Hok1 & Hown1).
  assert (is_closed (upd this (set_teardowns None) h1) this = true) as Hc1.
  { unfold is_closed. rewrite upd_lookup_eq. simpl.
    eapply (step_ok_mono _ _ _ _ this Hok1), pass_start_closed. }
  destruct (pass_sound _ _ _ _ _ _ Hp Hc1) as (Hok2 & Hown2 & Hlen).
  repeat apply conj; try done.
  unfold own_events at 1. simpl. fold (own_events this (tr1 ++ tr2)).
  by rewrite own_events_app, Hown1, Hown2, release_events_pass_start.
Qed.

(** C2. Disposing a token twice is disposing it once: the second
    [unsubscribe] returns at once, leaves the store as it is and does
    nothing that could be observed, so the two calls together have the
    trace of the first.  In that trace the release action of the token
    occurs once if the token had one, and the teardowns the token holds
    when its pass reaches them are each executed once, in order. *)
Theorem unsubscribe_idempotent this h :
  ∃ n0 r h' tr,
    (∀ n, n0 ≤ n → unsubscribe n this h = Some (r, h', tr))
    ∧ (∀ m, unsubscribe (S m) this h' = Some (Returned tt, h', []))
    ∧ (∀ n m, n0 ≤ n →
         (_ <- try_ (unsubscribe n this);; unsubscribe (S m) this) h
         = Some (Returned tt, h', tr))
    ∧ (is_closed h this = true → r = Returned tt ∧ h' = h ∧ tr = [])
    ∧ (is_closed h this = false →
         ∃ r0 h1 tr1,
           released this (pass_start this h) r0 h1 tr1
           ∧ own_events this tr
             = release_events this h
               ++ map (EvTeardown this) (teardowns_of h1 this)
           ∧ (_unsubscribe (h !!! this) = None →
              _hasParent (h !!! this) this = false →
              own_events this tr = map (EvTeardown this) (teardowns_of h this))).
Proof.
  destruct (unsubscribe_halts this h) as (n0 & r & h' & tr & H).
  pose proof (unsubscribe_closes _ _ _ _ _ _ (H n0 (le_n _))) as Hc'.
  exists (S n0), r, h', tr. repeat apply conj.
  - intros n Hn. apply H. lia.
  - intros m. by apply unsubscribe_closed.
  - intros n m Hn. rewrite <- (app_nil_r tr).
    eapply bind_try; [apply H; lia|by apply unsubscribe_closed].
  - intros Hc. pose proof (H (S n0) (le_S _ _ (le_n _))) as H1.
    rewrite unsubscribe_closed in H1 by done. by injection H1 as <- <- <-.
  - intros Hc.
    destruct (unsubscribe_open _ _ _ _ _ _ Hc (H n0 (le_n _)))
      as (r0 & h1 & tr1 & rs & tr2 & Hrel & Hp & -> & ->).
    destruct (unsubscribe_own_events _ _ _ _ _ _ _ _ Hrel Hp) as (Hown & _).
    exists r0, h1, tr1. repeat apply conj; try done.
    intros Hnone Hpar. rewrite Hown.
    destruct (released_nothing _ _ _ _ _ Hrel Hnone) as (_ & -> & _).
    unfold release_events. rewrite Hnone. simpl.
    by rewrite pass_start_teardowns.
Qed.

(** C3. Disposing an open token always ends.  Every teardown the token
    holds when its pass starts is executed, once and in order, whatever the
    teardowns before it did; the call returns normally when neither the
    release action nor a teardown raised, and otherwise raises one
    [UnsubscriptionError] whose list is what was raised, in order, with the
    lists of raised [UnsubscriptionError]s spliced in.  The teardowns held
    when the pass starts are the stored ones, less those the release action
    took out with [remove]. *)
Theorem unsubscribe_aggregates_errors this h :
  is_closed h this = false →
  ∃ n0 r h' tr r0 h1 tr1 rs tr2,
    (∀ n, n0 ≤ n → unsubscribe n this h = Some (r, h', tr))
    ∧ released this (pass_start this h) r0 h1 tr1
    ∧ pass this (teardowns_of h1 this) (upd this (set_teardowns None) h1)
           rs h' tr2
    ∧ tr = EvClosed this :: tr1 ++ tr2
    ∧ own_events this tr2 = map (EvTeardown this) (teardowns_of h1 this)
    ∧ length rs = length (teardowns_of h1 this)
    ∧ r = (if existsb failed (r0 :: rs)
           then Thrown (VUnsubscriptionError (concat (map raised (r0 :: rs))))
           else Returned tt)
    ∧ (_hasParent (h !!! this) this = false →
       teardowns_of h1 this `sublist_of` teardowns_of h this)
    ∧ (_unsubscribe (h !!! this) = None →
       _hasParent (h !!! this) this = false →
       r0 = Returned tt ∧ teardowns_of h1 this = teardowns_of h this).
Proof.
  intros Hc.
  destruct (unsubscribe_open_halts this h Hc)
    as (n0 & r & h' & tr & r0 & h1 & tr1 & rs & tr2
        & H & Hrel & Hp & -> & -> & Hc1).
  destruct (unsubscribe_own_events _ _ _ _ _ _ _ _ Hrel Hp)
    as (_ & Hown & Hlen & Hok1 & _).
  exists n0, (aggregate (r0 :: rs)), h', (EvClosed this :: tr1 ++ tr2),
    r0, h1, tr1, rs, tr2.
  repeat apply conj; try done.
  - intros Hpar. rewrite <- (pass_start_teardowns this h Hpar).
    apply (ok_stored _ _ _ _ Hok1), pass_start_closed.
  - intros Hnone Hpar.
    destruct (released_nothing _ _ _ _ _ Hrel Hnone) as (-> & -> & _).
    split; [done|by apply pass_start_teardowns].
Qed.

(** The scenario of the specification: three teardowns, three different
    errors. *)
Lemma three_failing_run :
  unsubscribe 8 0 three_failing
  = Some (Thrown (VUnsubscriptionError [VNum 1; VNum 2; VNum 3]),
          {[ 0 := set_closed true (new_Subscription None) ]},
          [EvClosed 0;
           EvTeardown 0 (TFun 1 [CLog 1; CThrow (VNum 1)]); EvLog 1;
           EvTeardown 0 (TFun 2 [CLog 2; CThrow (VNum 2)]); EvLog 2;
           EvTeardown 0 (TFun 3 [CLog 3; CThrow (VNum 3)]); EvLog 3]).
Proof. vm_compute. reflexivity. Qed.

Lemma unsubscribe_aggregates_errors_witness :
  is_closed three_failing 0 = false
  ∧ ∃ n0 r h' tr r0 h1 tr1 rs tr2,
      (∀ n, n0 ≤ n → unsubscribe n 0 three_failing = Some (r, h', tr))
      ∧ released 0 (pass_start 0 three_failing) r0 h1 tr1
      ∧ pass 0 (teardowns_of h1 0) (upd 0 (set_teardowns None) h1) rs h' tr2
      ∧ tr = EvClosed 0 :: tr1 ++ tr2
      ∧ own_events 0 tr2 = map (EvTeardown 0) (teardowns_of h1 0)
      ∧ length rs = length (teardowns_of h1 0)
      ∧ r = (if existsb failed (r0 :: rs)
             then Thrown (VUnsubscriptionError (concat (map raised (r0 :: rs))))
             else Returned tt)
      ∧ (_hasParent (three_failing !!! 0) 0 = false →
         teardowns_of h1 0 `sublist_of` teardowns_of three_failing 0)
      ∧ (_unsubscribe (three_failing !!! 0) = None →
         _hasParent (three_failing !!! 0) 0 = false →
         r0 = Returned tt ∧ teardowns_of h1 0 = teardowns_of three_failing 0).
Proof.
  split; [reflexivity|].
  apply (unsubscribe_aggregates_errors 0 three_failing). reflexivity.
Defined.

(** [add] of an open child to an open parent appends it to the parent's
    teardowns. *)
Lemma add_attaches_child n parent child h :
  is_closed h parent = false → is_closed h child = false →
  child ≠ parent → _hasParent (h !!! child) parent = false →
  ∃ h',
    add (S n) parent (Some (TSub child)) h = Some (Returned tt, h', [])
    ∧ teardowns_of h' parent = teardowns_of h parent ++ [TSub child]
    ∧ _hasParent (h' !!! child) parent = true.
Proof.
  unfold is_closed. intros Hp Hc Hne Hhas.
  eexists. split; [|split].
  - cbn [add add_body same_teardown].
    apply Nat.eqb_neq in Hne as ->. rewrite bind_read, Hp, bind_read, Hc, Hhas.
    simpl. rewrite bind_modify. reflexivity.
  - unfold teardowns_of. rewrite upd_lookup_eq. simpl. f_equal.
    unfold _addParent. repeat case_match; rewrite ?upd_lookup_ne by done; done.
  - rewrite upd_lookup_ne by done. unfold _addParent.
    destruct (_singleParent (h !!! child)) as [single|] eqn:Hs;
      [|destruct (_parents (h !!! child)) as [ps|] eqn:Hps];
      unfold _hasParent; rewrite !upd_lookup_eq; simpl.
    + by rewrite Nat.eqb_refl, !orb_true_r.
    + rewrite Hs, existsb_app. simpl. by rewrite Nat.eqb_refl, !orb_true_r.
    + by rewrite Nat.eqb_refl.
Qed.

Lemma count_closed_once x h tr h' s :
  step_ok x h tr h' →
  count_closed s tr
  = if is_closed h s then 0 else if is_closed h' s then 1 else 0.
Proof.
  intros H. pose proof (ok_closed _ _ _ _ H s) as Hs.
  destruct (is_closed h s), (is_closed h' s); simpl in *; lia.
Qed.

(** C4. Disposing an open parent always ends.  The first thing that
    happens is that the parent's [closed] flag is set: the release action
    and the teardowns run in stores where the parent is closed, and
    [unsubscribe] on a closed token, parent or descendant, does nothing.
    Every child the parent holds when its pass starts is closed at the end;
    in the whole run every [closed] flag goes from false to true at most
    once, and exactly once for each such child that was open. *)
Theorem unsubscribe_disposes_children this h :
  is_closed h this = false →
  ∃ n0 r h' tr r0 h1 tr1,
    (∀ n, n0 ≤ n → unsubscribe n this h = Some (r, h', tr))
    ∧ released this (pass_start this h) r0 h1 tr1
    ∧ (∃ rest, tr = EvClosed this :: rest)
    ∧ is_closed (pass_start this h) this = true
    ∧ is_closed h1 this = true
    ∧ is_closed h' this = true
    ∧ (∀ child, TSub child ∈ teardowns_of h1 this → is_closed h' child = true)
    ∧ (∀ s, count_closed s tr
            = if is_closed h s then 0 else if is_closed h' s then 1 else 0)
    ∧ (∀ child, TSub child ∈ teardowns_of h1 this →
         is_closed h child = false → count_closed child tr = 1)
    ∧ (_unsubscribe (h !!! this) = None →
       _hasParent (h !!! this) this = false →
       teardowns_of h1 this = teardowns_of h this)
    ∧ (∀ s h0 m, is_closed h0 s = true →
         unsubscribe (S m) s h0 = Some (Returned tt, h0, [])).
Proof.
  intros Hc.
  destruct (unsubscribe_open_halts this h Hc)
    as (n0 & r & h' & tr & r0 & h1 & tr1 & rs & tr2
        & H & Hrel & Hp & -> & -> & Hc1).
  pose proof (unsubscribe_sound _ _ _ _ _ _ (H n0 (le_n _))) as Hok.
  assert (∀ child, TSub child ∈ teardowns_of h1 this →
    is_closed h' child = true) as Hchildren.
  { intros child Hin. eapply pass_closes; [exact Hp| |exact Hin].
    unfold is_closed. by rewrite upd_lookup_eq. }
  exists n0, (aggregate (r0 :: rs)), h', (EvClosed this :: tr1 ++ tr2),
    r0, h1, tr1.
  repeat apply conj; try done.
  - by eexists.
  - apply pass_start_closed.
  - by eapply unsubscribe_closes, (H n0).
  - intros s. by eapply count_closed_once.
  - intros child Hin Ho. rewrite (count_closed_once _ _ _ _ child Hok), Ho.
    by rewrite Hchildren.
  - intros Hnone Hpar.
    destruct (released_nothing _ _ _ _ _ Hrel Hnone) as (_ & -> & _).
    by apply pass_start_teardowns.
  - intros s h0 m Hs. by apply unsubscribe_closed.
Qed.

(** A parent, two children, and a teardown that disposes the parent from
    inside the parent's own pass. *)
Lemma family_run :
  ∃ h',
    unsubscribe 9 0 family
    = Some (Returned tt, h',
            [EvClosed 0; EvRelease 0; EvLog 0;
             EvTeardown 0 (TSub 1); EvClosed 1;
             EvTeardown 1 (TFun 8 [CUnsubscribe 0; CLog 8]); EvLog 8;
             EvTeardown 0 (TFun 7 [CLog 7]); EvLog 7;
             EvTeardown 0 (TSub 2); EvClosed 2])
    ∧ is_closed h' 0 = true ∧ is_closed h' 1 = true ∧ is_closed h' 2 = true.
Proof. eexists. vm_compute. repeat split; reflexivity. Qed.

Lemma unsubscribe_disposes_children_witness :
  is_closed family 0 = false
  ∧ ∃ n0 r h' tr r0 h1 tr1,
      (∀ n, n0 ≤ n → unsubscribe n 0 family = Some (r, h', tr))
      ∧ released 0 (pass_start 0 family) r0 h1 tr1
      ∧ (∃ rest, tr = EvClosed 0 :: rest)
      ∧ is_closed (pass_start 0 family) 0 = true
      ∧ is_closed h1 0 = true
      ∧ is_closed h' 0 = true
      ∧ (∀ child, TSub child ∈ teardowns_of h1 0 → is_closed h' child = true)
      ∧ (∀ s, count_closed s tr
              = if is_closed family s then 0
                else if is_closed h' s then 1 else 0)
      ∧ (∀ child, TSub child ∈ teardowns_of h1 0 →
           is_closed family child = false → count_closed child tr = 1)
      ∧ (_unsubscribe (family !!! 0) = None →
         _hasParent (family !!! 0) 0 = false →
         teardowns_of h1 0 = teardowns_of family 0)
      ∧ (∀ s h0 m, is_closed h0 s = true →
           unsubscribe (S m) s h0 = Some (Returned tt, h0, [])).
Proof.
  split; [reflexivity|].
  apply (unsubscribe_disposes_children 0 family). reflexivity.
Defined.

(** ** [add]: the claims about attaching teardowns *)

Lemma same_teardown_sub t this :
  t ≠ TSub this → same_teardown t (TSub this) = false.
Proof.
  destruct t as [| s |]; try done. intros Hne. simpl.
  apply Nat.eqb_neq. congruence.
Qed.

(** [add] on a closed token runs the teardown and nothing else. *)
Lemma add_closed_runs this t h :
  is_closed h this = true → t ≠ TSub this →
  ∃ n0 r h' tr,
    (∀ n, n0 ≤ n →
       add n this (Some t) h = Some (r, h', EvImmediate this t :: tr))
    ∧ (∀ n, n0 ≤ n →
         match t with
         | TFun _ body | TObj _ body => exec_body n body h
         | TSub child => unsubscribe n child h
         end = Some (r, h', tr))
    ∧ teardowns_of h' this `sublist_of` teardowns_of h this
    ∧ is_closed h' this = true.
Proof.
  intros Hc Hne. destruct (add_halts this (Some t) h) as (n0 & r & h' & tr & H).
  pose proof (add_sound _ _ _ _ _ _ _ (H _ (le_n _))) as Hok.
  assert (∀ n, S (S n0) ≤ n → ∃ m, n = S (S m) ∧ n0 ≤ m) as Hfuel.
  { intros n Hn. exists (n - 2). lia. }
  assert (∀ m, n0 ≤ m → ∃ tr',
    tr = EvImmediate this t :: tr'
    ∧ execTeardown (S m) t h = Some (r, h', tr')) as Hrun.
  { intros m Hm. pose proof (H (S (S m)) ltac:(lia)) as Ha.
    cbn [add add_body] in Ha. rewrite same_teardown_sub in Ha by done.
    unfold is_closed in Hc. rewrite bind_read, Hc in Ha.
    apply bind_emit_inv in Ha as (tr' & Ha & ->). by exists tr'. }
  destruct (Hrun n0 (le_n _)) as (tr' & -> & _).
  exists (S (S n0)), r, h', tr'. repeat apply conj.
  - intros n Hn. apply H. lia.
  - intros n (m & -> & Hm)%Hfuel.
    destruct (Hrun m Hm) as (tr'' & [= <-] & Ht).
    cbn [execTeardown execTeardown_body] in Ht.
    destruct (fuel_S m) as (_ & Hb & _ & _ & Hu & _).
    destruct (fuel_S (S m)) as (_ & Hb' & _ & _ & Hu' & _).
    destruct t; [by apply Hb', Hb|by apply Hu', Hu|by apply Hb', Hb].
  - by apply (ok_stored _ _ _ _ Hok).
  - by eapply step_ok_mono.
Qed.

(** C6. [add] does nothing (stores nothing, runs nothing, throws
    nothing) for [undefined] and for the token itself.  On a closed token
    it executes the teardown there and then (the body of a function or an
    unsubscribable, [unsubscribe] of a token) and stores nothing: the
    token's teardown list can only have shrunk when [add] returns. *)
Theorem add_noop_or_immediate this h :
  (∀ n, add (S n) this None h = Some (Returned tt, h, []))
  ∧ (∀ n, add (S n) this (Some (TSub this)) h = Some (Returned tt, h, []))
  ∧ (is_closed h this = true →
     ∀ t, t ≠ TSub this →
       ∃ n0 r h' tr,
         (∀ n, n0 ≤ n →
            add n this (Some t) h = Some (r, h', EvImmediate this t :: tr))
         ∧ (∀ n, n0 ≤ n →
              match t with
              | TFun _ body | TObj _ body => exec_body n body h
              | TSub child => unsubscribe n child h
              end = Some (r, h', tr))
         ∧ teardowns_of h' this `sublist_of` teardowns_of h this
         ∧ is_closed h' this = true).
Proof.
  repeat apply conj.
  - done.
  - intros n. cbn [add add_body same_teardown]. by rewrite Nat.eqb_refl.
  - intros Hc t Hne. by apply add_closed_runs.
Qed.

(** Adding a plain action to a closed token runs it during the call. *)
Lemma add_to_closed_run :
  add 4 0 (Some (TFun 5 [CLog 5])) with_EMPTY
  = Some (Returned tt, with_EMPTY, [EvImmediate 0 (TFun 5 [CLog 5]); EvLog 5]).
Proof. vm_compute. reflexivity. Qed.

(** C10. [Subscription.EMPTY] is closed.  In a store that holds it,
    [unsubscribe] on it does nothing; [add] on it executes the teardown at
    once and leaves it with no teardown stored; and whatever program runs,
    it is closed and empty afterwards, its flag never flips and its pass
    never runs. *)
Theorem EMPTY_is_inert e h :
  h !!! e = EMPTY →
  closed EMPTY = true
  ∧ (∀ n, unsubscribe (S n) e h = Some (Returned tt, h, []))
  ∧ (∀ t, t ≠ TSub e →
       ∃ n0 r h' tr,
         (∀ n, n0 ≤ n →
            add n e (Some t) h = Some (r, h', EvImmediate e t :: tr))
         ∧ (∀ n, n0 ≤ n →
              match t with
              | TFun _ body | TObj _ body => exec_body n body h
              | TSub child => unsubscribe n child h
              end = Some (r, h', tr))
         ∧ teardowns_of h' e = []
         ∧ is_closed h' e = true)
  ∧ (∀ n cs r h' tr,
       exec_body n cs h = Some (r, h', tr) →
       is_closed h' e = true ∧ teardowns_of h' e = []
       ∧ count_closed e tr = 0 ∧ own_events e tr = []).
Proof.
  intros He.
  assert (is_closed h e = true) as Hc by (unfold is_closed; by rewrite He).
  assert (teardowns_of h e = []) as Ht by (unfold teardowns_of; by rewrite He).
  repeat apply conj.
  - done.
  - intros n. by apply unsubscribe_closed.
  - intros t Hne.
    destruct (add_closed_runs e t h Hc Hne) as (n0 & r & h' & tr & H1 & H2 & H3 & H4).
    exists n0, r, h', tr. repeat apply conj; try done.
    rewrite Ht in H3. by apply sublist_nil_r.
  - intros n cs r h' tr H.
    pose proof (exec_body_sound _ _ _ _ _ _ H) as Hok.
    repeat apply conj.
    + by eapply step_ok_mono.
    + apply sublist_nil_r. rewrite <- Ht. by apply (ok_stored _ _ _ _ Hok).
    + by rewrite (count_closed_once _ _ _ _ e Hok), Hc.
    + by apply (ok_own _ _ _ _ Hok).
Qed.

Lemma EMPTY_is_inert_witness :
  with_EMPTY !!! 0 = EMPTY
  ∧ closed EMPTY = true
  ∧ (∀ n, unsubscribe (S n) 0 with_EMPTY = Some (Returned tt, with_EMPTY, []))
  ∧ (∀ t, t ≠ TSub 0 →
       ∃ n0 r h' tr,
         (∀ n, n0 ≤ n →
            add n 0 (Some t) with_EMPTY = Some (r, h', EvImmediate 0 t :: tr))
         ∧ (∀ n, n0 ≤ n →
              match t with
              | TFun _ body | TObj _ body => exec_body n body with_EMPTY
              | TSub child => unsubscribe n child with_EMPTY
              end = Some (r, h', tr))
         ∧ teardowns_of h' 0 = []
         ∧ is_closed h' 0 = true)
  ∧ (∀ n cs r h' tr,
       exec_body n cs with_EMPTY = Some (r, h', tr) →
       is_closed h' 0 = true ∧ teardowns_of h' 0 = []
       ∧ count_closed 0 tr = 0 ∧ own_events 0 tr = []).
Proof.
  split; [reflexivity|]. apply (EMPTY_is_inert 0 with_EMPTY). reflexivity.
Defined.

(** ** The adapters: the claims about [from.ts] *)

(** C9. [fromSource] tests the shapes in the order stream, promise,
    array-like, iterable, interop, async iterable and takes the adapter of
    the first that matches; when none matches it throws the error
    "Unable to convert from input to Observable source" to its caller. *)
Theorem fromSource_precedence {Input : Type}
    (isObservable isPromiseLike isArrayLike : Input → bool)
    (isIterable isInteropObservable isAsyncIterable : Input → bool)
    (input : Input) :
  fromSource isObservable isPromiseLike isArrayLike
             isIterable isInteropObservable isAsyncIterable input
  = dispatch_spec isObservable isPromiseLike isArrayLike
                  isIterable isInteropObservable isAsyncIterable input
  ∧ (existsb (fun shape => shape.1 input)
       (precedence isObservable isPromiseLike isArrayLike
                   isIterable isInteropObservable isAsyncIterable) = false
     ↔ fromSource isObservable isPromiseLike isArrayLike
                  isIterable isInteropObservable isAsyncIterable input
       = Thrown (VError "Unable to convert from input to Observable source")).
Proof.
  unfold fromSource, dispatch_spec, precedence. simpl.
  destruct (isObservable input), (isPromiseLike input), (isArrayLike input),
    (isIterable input), (isInteropObservable input), (isAsyncIterable input);
    simpl; split; try done; split; done.
Qed.

(** C7. Subscribing to the pull-sequence adapter over [1, 2, 3] with an
    open token and a sink that neither throws nor disposes the token
    delivers NEXT(1), NEXT(2), NEXT(3), COMPLETE(undefined), in that order
    and nothing else, and the adapter returns. *)
Theorem iterableSource_one_two_three sink subs h k :
  passive sink subs → is_closed h subs = false → 4 ≤ k →
  ∃ n0 h' tr,
    (∀ n, n0 ≤ n →
       iterableSource (of_list [VNum 1; VNum 2; VNum 3]) k n SUBSCRIBE sink subs h
       = Some (Returned Finished, h', tr))
    ∧ messages tr
      = [EvMsg NEXT (VNum 1); EvMsg NEXT (VNum 2); EvMsg NEXT (VNum 3);
         EvMsg COMPLETE VUndefined].
Proof.
  intros Hp Hc Hk.
  destruct (iterate_of_list [VNum 1; VNum 2; VNum 3] sink subs Hp k 0 [] h)
    as (n0 & h' & tr & H & Hm); [done|simpl; lia|simpl; lia|].
  by exists n0, h', tr.
Qed.

Lemma iterableSource_one_two_three_witness :
  passive silent 0 ∧ is_closed ∅ 0 = false ∧ 4 ≤ 4
  ∧ ∃ n0 h' tr,
      (∀ n, n0 ≤ n →
         iterableSource (of_list [VNum 1; VNum 2; VNum 3]) 4 n SUBSCRIBE silent 0 ∅
         = Some (Returned Finished, h', tr))
      ∧ messages tr
        = [EvMsg NEXT (VNum 1); EvMsg NEXT (VNum 2); EvMsg NEXT (VNum 3);
           EvMsg COMPLETE VUndefined].
Proof.
  split; [apply silent_passive|]. split; [reflexivity|]. split; [lia|].
  apply (iterableSource_one_two_three silent 0 ∅ 4);
    [apply silent_passive|reflexivity|lia].
Defined.

Lemma one_two_three_run :
  iterableSource (of_list [VNum 1; VNum 2; VNum 3]) 4 1 SUBSCRIBE silent 0 ∅
  = Some (Returned Finished, ∅,
          [EvPull 0; EvMsg NEXT (VNum 1); EvPull 1; EvMsg NEXT (VNum 2);
           EvPull 2; EvMsg NEXT (VNum 3); EvPull 3; EvMsg COMPLETE VUndefined]).
Proof. vm_compute. reflexivity. Qed.

Lemma exec_body_unsubscribe n s h r h' tr :
  exec_body n [CUnsubscribe s] h = Some (r, h', tr) →
  ∃ m, unsubscribe m s h = Some (r, h', tr).
Proof.
  destruct n as [|[|n]]; [done|done|]. rewrite exec_body_S.
  cbn [exec exec_cmd].
  intros [(e & H & ->)|([] & h1 & tr1 & tr2 & H & H' & ->)]%bind_inv.
  - by exists n.
  - destruct n as [|n]; [done|]. injection H' as <- <- <-.
    rewrite app_nil_r. by exists (S n).
Qed.

(** C8. The pull loop reads [closed] before every pull: in any run,
    nothing is pulled and nothing is delivered once the token is closed,
    and [COMPLETE] is delivered only right after a pull that found the
    sequence exhausted.  In particular, over a sequence that starts with 1
    (an infinite one too), with a sink that disposes the token on NEXT(1),
    the adapter stops: NEXT(1) is the only message ever delivered. *)
Theorem iterableSource_cancellation iterable sink subs h k :
  ∃ n0 r h' tr,
    (∀ n, n0 ≤ n →
       iterableSource iterable k n SUBSCRIBE sink subs h = Some (r, h', tr))
    ∧ quiet_once_closed subs (is_closed h subs) tr = true
    ∧ complete_by_exhaustion iterable false tr = true
    ∧ (iterable 0 = Some (VNum 1) →
       sink [] NEXT (VNum 1) subs = [CUnsubscribe subs] →
       is_closed h subs = false → 2 ≤ k →
       messages tr = [EvMsg NEXT (VNum 1)]
       ∧ r ≠ Returned Running
       ∧ is_closed h' subs = true).
Proof.
  destruct (iterate_safe k iterable sink subs 0 [] h)
    as (n0 & r & h' & tr & H & Hq & _ & Hx).
  exists n0, r, h', tr. repeat apply conj; try done.
  intros Hi Hs Hc Hk. specialize (H n0 (le_n _)).
  destruct k as [|[|k]]; [lia|lia|]. cbn [iterate] in H.
  unfold is_closed in Hc. rewrite bind_read, Hc, Hi in H.
  apply bind_emit_inv in H as (tr' & H & ->).
  unfold call_sink in H. rewrite Hs in H.
  apply bind_inv in H as [(e & H & ->)|([] & h1 & tr1 & tr2 & H & H' & ->)];
    apply bind_emit_inv in H as (tr1' & H & ->);
    pose proof (exec_body_quiet _ _ _ _ _ _ H) as Hm;
    apply exec_body_unsubscribe in H as (m & H);
    apply unsubscribe_closes in H.
  - repeat split; try done. unfold messages. simpl. fold (messages tr1').
    by rewrite Hm.
  - unfold is_closed in H. rewrite bind_read, H in H'.
    injection H' as <- <- <-. repeat split; try done.
    rewrite app_nil_r. unfold messages. simpl. fold (messages tr1').
    by rewrite Hm.
Qed.

Lemma cancellation_run :
  ∃ h',
    iterableSource naturals 1000 4 SUBSCRIBE dispose_on_first 0 ∅
    = Some (Returned Finished, h',
            [EvPull 0; EvMsg NEXT (VNum 1); EvClosed 0])
    ∧ is_closed h' 0 = true.
Proof. eexists. vm_compute. split; reflexivity. Qed.

(** C1, as the code has it.  In every run of the pull-sequence, the
    deferred-value and the async-pull-sequence adapter at most one terminal
    message is delivered and no message follows it.  The pull-sequence
    adapter moreover pulls and delivers nothing once the token is closed,
    and the deferred-value adapter delivers nothing when the promise is
    fulfilled on a closed token.  (The async-pull-sequence adapter never
    reads [closed].) *)
Theorem adapters_terminal_discipline :
  (∀ iterable k sink subs h,
     ∃ n0 r h' tr,
       (∀ n, n0 ≤ n →
          iterableSource iterable k n SUBSCRIBE sink subs h = Some (r, h', tr))
       ∧ terminal_last (messages tr) = true
       ∧ quiet_once_closed subs (is_closed h subs) tr = true)
  ∧ (∀ promise env sink subs h,
       ∃ n0 r h' tr,
         (∀ n, n0 ≤ n →
            promiseSource promise env n SUBSCRIBE sink subs h = Some (r, h', tr))
         ∧ terminal_last (messages tr) = true)
  ∧ (∀ n v sink subs h,
       is_closed h subs = true →
       promiseSource_then n (Fulfilled v) sink subs h = Some (Returned tt, h, []))
  ∧ (∀ steps sink subs h,
       ∃ n0 r h' tr,
         (∀ n, n0 ≤ n →
            asyncIterableSource steps n SUBSCRIBE sink subs h = Some (r, h', tr))
         ∧ terminal_last (messages tr) = true).
Proof.
  repeat apply conj.
  - intros iterable k sink subs h.
    destruct (iterate_safe k iterable sink subs 0 [] h)
      as (n0 & r & h' & tr & H & Hq & Ht & _).
    by exists n0, r, h', tr.
  - apply promiseSource_safe.
  - intros n v sink subs h Hc. unfold promiseSource_then, is_closed in *.
    by rewrite bind_read, Hc.
  - intros steps sink subs h. apply getNextValue_safe.
Qed.

(** The async-pull-sequence adapter on a token that is already closed: the
    values still arrive, and so does [COMPLETE]. *)
Lemma asyncIterableSource_delivers_after_close :
  is_closed with_EMPTY 0 = true
  ∧ asyncIterableSource [([], Yield (VNum 1)); ([], Done)] 1 SUBSCRIBE
      silent 0 with_EMPTY
    = Some (Returned tt, with_EMPTY,
            [EvMsg NEXT (VNum 1); EvMsg COMPLETE VUndefined])
  ∧ quiet_once_closed 0 (is_closed with_EMPTY 0)
      [EvMsg NEXT (VNum 1); EvMsg COMPLETE VUndefined] = false.
Proof. vm_compute. repeat split; reflexivity. Qed.

(** The deferred-value adapter on a closed token: a rejection is still
    delivered. *)
Lemma promiseSource_rejects_after_close :
  promiseSource_then 1 (Rejected (VNum 7)) silent 0 with_EMPTY
  = Some (Returned tt, with_EMPTY, [EvMsg ERROR (VNum 7)]).
Proof. vm_compute. reflexivity. Qed.

(** C5, on the code.  When the conversion returns [undefined] or [null],
    the adapter delivers one [ERROR] and then the caller of [SUBSCRIBE]
    gets an exception: with a sink that does not throw, the [TypeError] of
    reading [subscribe] from nothing.  When it returns a falsy primitive,
    two [ERROR] messages are delivered.  Only for a value without
    [subscribe] is exactly one [ERROR] delivered and nothing thrown. *)
Theorem symbolObservableSource_invalid f sink subs h :
  (∃ n0 e h' tr,
     (∀ n, n0 ≤ n →
        symbolObservableSource Nullish f n SUBSCRIBE sink subs h
        = Some (Thrown e, h',
                EvMsg ERROR (VError
                  "invalid Symbol.observable implementation, observable not returned")
                :: tr))
     ∧ messages tr = []
     ∧ (passive sink subs →
        e = VTypeError "Cannot read properties of undefined (reading 'subscribe')"))
  ∧ (passive sink subs →
     ∃ n0 h' tr,
       (∀ n, n0 ≤ n →
          symbolObservableSource FalsyPrimitive f n SUBSCRIBE sink subs h
          = Some (Returned tt, h', tr))
       ∧ length (messages tr) = 2)
  ∧ (∃ n0 r h' tr,
       (∀ n, n0 ≤ n →
          symbolObservableSource NoSubscribe f n SUBSCRIBE sink subs h
          = Some (r, h', tr))
       ∧ messages tr =
         [EvMsg ERROR (VError
            "invalid Symbol.observable implementation, no subscribe method on returned value")]
       ∧ (passive sink subs → r = Returned tt)).
Proof.
  repeat apply conj.
  - apply symbolObservableSource_nullish.
  - intros Hp.
    destruct (symbolObservableSource_falsy f sink subs h Hp)
      as (n0 & h' & tr & H & Hm).
    exists n0, h', tr. split; [done|by rewrite Hm].
  - apply symbolObservableSource_no_subscribe.
Qed.

(** An external observable that sends NEXT(1) while subscribing and hands
    back a handle: its [unsubscribe] is what the registered teardown calls
    when the token is disposed later.  If the sink disposes the token during
    that first NEXT, the teardown runs before the handle exists and calls
    nothing. *)
Lemma interop_runs :
  (∃ h1 h2,
     symbolObservableSource (ObservableLike [(NEXT, VNum 1)] (Some [CLog 9]))
       5 3 SUBSCRIBE silent 0 ∅
     = Some (Returned tt, h1, [EvMsg NEXT (VNum 1)])
     ∧ teardowns_of h1 0 = [TFun 5 [CLog 9]]
     ∧ unsubscribe 5 0 h1
       = Some (Returned tt, h2,
               [EvClosed 0; EvTeardown 0 (TFun 5 [CLog 9]); EvLog 9]))
  ∧ (∃ h1,
       symbolObservableSource (ObservableLike [(NEXT, VNum 1)] (Some [CLog 9]))
         5 6 SUBSCRIBE dispose_on_first 0 ∅
       = Some (Returned tt, h1,
               [EvMsg NEXT (VNum 1); EvClosed 0; EvTeardown 0 (TFun 5 [])])
       ∧ teardowns_of h1 0 = []).
Proof. split; repeat eexists; vm_compute; reflexivity. Qed.

(** The deferred-value adapter: a promise that resolves to "x" gives
    NEXT("x") then COMPLETE(undefined); one that rejects gives ERROR alone. *)
Lemma deferred_runs :
  promiseSource (Some (Fulfilled (VStr "x"))) [] 1 SUBSCRIBE silent 0 ∅
  = Some (Returned tt, ∅, [EvMsg NEXT (VStr "x"); EvMsg COMPLETE VUndefined])
  ∧ promiseSource (Some (Rejected (VError "err"))) [] 1 SUBSCRIBE silent 0 ∅
    = Some (Returned tt, ∅, [EvMsg ERROR (VError "err")]).
Proof. split; vm_compute; reflexivity. Qed.

Lemma nullish_run :
  symbolObservableSource Nullish 9 1 SUBSCRIBE silent 0 ∅
  = Some (Thrown (VTypeError
            "Cannot read properties of undefined (reading 'subscribe')"),
          ∅,
          [EvMsg ERROR (VError
             "invalid Symbol.observable implementation, observable not returned")]).
Proof. vm_compute. reflexivity. Qed.

(** * Groundwork for the further properties *)

(** ** Properties of the store that every run keeps *)

Lemma keeps_ret {A} P (a : A) : keeps P (ret a).
Proof. by intros h r h' tr HP [= <- <- <-]. Qed.

Lemma keeps_throw {A} P e : keeps P (@throw A e).
Proof. by intros h r h' tr HP [= <- <- <-]. Qed.

Lemma keeps_read P s : keeps P (read s).
Proof. by intros h r h' tr HP [= <- <- <-]. Qed.

Lemma keeps_emit P e : keeps P (emit e).
Proof. by intros h r h' tr HP [= <- <- <-]. Qed.

Lemma keeps_modify P f : (∀ h, P h → P (f h)) → keeps P (modify f).
Proof. intros Hf h r h' tr HP [= <- <- <-]. by apply Hf. Qed.

Lemma keeps_bind {A B} P (m : M A) (k : A → M B) :
  keeps P m → (∀ a, keeps P (k a)) → keeps P (bind m k).
Proof.
  intros Hm Hk h r h' tr HP
    [(e & H & _)|(a & h1 & tr1 & tr2 & H & H' & ->)]%bind_inv.
  - by eapply Hm.
  - eapply Hk; [|exact H']. by eapply Hm.
Qed.

Lemma keeps_try {A} P (m : M A) : keeps P m → keeps P (try_ m).
Proof. intros Hm h r h' tr HP (r0 & H & _)%try_inv. by eapply Hm. Qed.

Lemma keeps_out_of_fuel {A} P : keeps P (@out_of_fuel A).
Proof. by intros h r h' tr HP. Qed.

Ltac keeps_steps :=
  repeat first
    [ apply keeps_ret | apply keeps_throw | apply keeps_read
    | apply keeps_emit | apply keeps_out_of_fuel
    | apply keeps_try
    | apply keeps_bind; [|intros ?]
    | apply keeps_modify; intros ? ].

(** [unsubscribe] with one unit of fuel spelled out. *)
Lemma unsubscribe_S_inv n this h r h' tr :
  is_closed h this = false →
  unsubscribe (S n) this h = Some (r, h', tr) →
  ∃ r0 h1 tr1 tr2,
    match _unsubscribe (pass_start this h !!! this) with
    | Some body =>
        ∃ trb,
          exec_body n body (release_null this (pass_start this h))
          = Some (r0, h1, trb)
          ∧ tr1 = EvRelease this :: trb
    | None => h1 = release_null this (pass_start this h)
    end
    ∧ (errors <-
         match _teardowns (h1 !!! this) with
         | Some ts => run_teardowns n this ts (catch_release r0)
         | None => ret (catch_release r0)
         end;;
       match errors with
       | Some errors => throw (VUnsubscriptionError errors)
       | None => ret tt
       end) (upd this (set_teardowns None) h1) = Some (r, h', tr2)
    ∧ tr = EvClosed this :: tr1 ++ tr2.
Proof.
  intros Hc H. cbn [unsubscribe] in H. unfold unsubscribe_body in H.
  rewrite bind_read in H. unfold is_closed in Hc. rewrite Hc in H.
  rewrite bind_modify in H. apply bind_emit_inv in H as (tr' & H & ->).
  rewrite bind_modify, bind_read in H.
  change (detach_from_parents this (upd this (set_closed true) h))
    with (pass_start this h) in H.
  unfold release_null.
  destruct (_unsubscribe (pass_start this h !!! this)) as [body|] eqn:Hu.
  - apply bind_inv in H as [(e & H & _)|(a & h1 & tr1 & tr2 & H & H' & ->)].
    + exfalso. destruct (_ctorUnsubscribe (pass_start this h !!! this));
        [rewrite bind_modify in H|rewrite bind_ret in H];
        apply bind_emit_inv in H as (? & H & _);
        by apply bind_try_inv in H as (? & ? & ? & ? & _ & [=] & _).
    + assert (∃ r0 trb, exec_body n body
        (if _ctorUnsubscribe (pass_start this h !!! this)
         then upd this (set_unsubscribe None) (pass_start this h)
         else pass_start this h) = Some (r0, h1, trb)
        ∧ tr1 = EvRelease this :: trb ∧ a = catch_release r0)
        as (r0 & trb & Hb & -> & ->).
      { destruct (_ctorUnsubscribe (pass_start this h !!! this));
          [rewrite bind_modify in H|rewrite bind_ret in H];
          apply bind_emit_inv in H as (? & H & ->);
          apply bind_try_inv in H
            as (r0 & ? & trb & ? & Hb & [= <- <- <-] & ->);
          exists r0, trb; by rewrite app_nil_r. }
      rewrite bind_read, bind_modify in H'.
      exists r0, h1, (EvRelease this :: trb), tr2.
      split; [by exists trb|]. by split.
  - rewrite bind_ret, bind_read, bind_modify in H.
    exists (Returned tt), (pass_start this h), [], tr'. by repeat split.
Qed.

Section Family.
Variable F : (ref → Prop) → heap → Prop.
Hypothesis F_remove : ∀ X s t h, F X h → F X (remove s t h).
Hypothesis F_attach :
  ∀ X this t h, F X h → is_closed h this = false →
    (∀ child, t = TSub child →
       child ≠ this ∧ is_closed h child = false
       ∧ _hasParent (h !!! child) this = false) →
    F X (attach this t h).
Hypothesis F_enter :
  ∀ X this h, F X h → is_closed h this = false →
    F (plus X this) (release_null this (pass_start this h)).
Hypothesis F_leave :
  ∀ X this h, F (plus X this) h → is_closed h this = true →
    F X (upd this (set_teardowns None) h).

(** A property of the store that may be suspended for the tokens whose
    release action is running is kept by every run. *)
Lemma runs_keep_family n :
  ∀ X,
    (∀ c, keeps (F X) (exec n c))
    ∧ (∀ cs, keeps (F X) (exec_body n cs))
    ∧ (∀ t, keeps (F X) (execTeardown n t))
    ∧ (∀ this ts errors, keeps (F X) (run_teardowns n this ts errors))
    ∧ (∀ this, keeps (F X) (unsubscribe n this))
    ∧ (∀ this t, keeps (F X) (add n this t)).
Proof.
  induction n as [|n IH]; intros X.
  { repeat apply conj; repeat intros ?; discriminate. }
  destruct (IH X) as (IHc & IHb & IHt & IHl & IHu & IHa).
  repeat apply conj.
  - intros c. destruct c; cbn [exec exec_cmd]; keeps_steps; try done.
    + by apply F_remove.
    + destruct (closed a); apply IHb.
  - intros [|c cs]; cbn [exec_body]; keeps_steps; done.
  - intros []; cbn [execTeardown execTeardown_body]; done.
  - intros this [|t ts] errors; cbn [run_teardowns]; keeps_steps; done.
  - intros this h r h' tr HF H.
    destruct (is_closed h this) eqn:Hc.
    { rewrite unsubscribe_closed in H by done. by injection H as <- <- <-. }
    apply unsubscribe_S_inv in H
      as (r0 & h1 & tr1 & tr2 & Hrel & Hrest & ->); [|done].
    pose proof (F_enter X this h HF Hc) as HF0.
    assert (is_closed (release_null this (pass_start this h)) this = true)
      as Hc0.
    { unfold release_null, is_closed.
      destruct (_unsubscribe _); [destruct (_ctorUnsubscribe _)|];
        rewrite ?upd_lookup_eq; apply pass_start_closed. }
    assert (F (plus X this) h1 ∧ is_closed h1 this = true) as [HF1 Hc1].
    { destruct (_unsubscribe (pass_start this h !!! this)) as [body|].
      - destruct Hrel as (trb & Hb & _).
        destruct (IH (plus X this)) as (_ & IHb' & _). split.
        + by eapply IHb'.
        + eapply step_ok_mono; [by eapply exec_body_sound|done].
      - by subst h1. }
    assert (keeps (F X)
      (errors <-
         match _teardowns (h1 !!! this) with
         | Some ts => run_teardowns n this ts (catch_release r0)
         | None => ret (catch_release r0)
         end;;
       match errors with
       | Some errors => throw (VUnsubscriptionError errors)
       | None => ret tt
       end)) as Hk.
    { keeps_steps.
      - destruct (_teardowns _); [apply IHl|apply keeps_ret].
      - match goal with
        | |- keeps _ (match ?x with _ => _ end) => destruct x
        end; keeps_steps. }
    eapply Hk; [|exact Hrest]. by apply F_leave.
  - intros this [t|] h r h' tr HI H; cbn [add add_body] in H;
      [|by injection H as <- <- <-].
    destruct (same_teardown t (TSub this)) eqn:Hsame;
      [by injection H as <- <- <-|].
    rewrite bind_read in H. destruct (closed (h !!! this)) eqn:Hc.
    { apply bind_emit_inv in H as (tr' & H & ->). by eapply IHt. }
    destruct t as [f body|child|o body].
    + injection H as <- <- <-. by apply (F_attach X this (TFun f body)).
    + rewrite bind_read in H.
      destruct (closed (h !!! child) || _hasParent (h !!! child) this) eqn:Hg;
        [by injection H as <- <- <-|].
      rewrite bind_modify in H. injection H as <- <- <-.
      apply orb_false_elim in Hg as [Hcc Hhp].
      apply (F_attach X this (TSub child)); [done|done|].
      intros ? [= <-]. simpl in Hsame. apply Nat.eqb_neq in Hsame. done.
    + injection H as <- <- <-. by apply (F_attach X this (TObj o body)).
Qed.
End Family.

Section Kept.
Variable I : heap → Prop.
Hypothesis I_remove : ∀ s t h, I h → I (remove s t h).
Hypothesis I_close :
  ∀ this h, I h → is_closed h this = false → I (pass_start this h).
Hypothesis I_release :
  ∀ this h, I h → is_closed h this = true →
    I (upd this (set_unsubscribe None) h).
Hypothesis I_clear :
  ∀ this h, I h → is_closed h this = true →
    I (upd this (set_teardowns None) h).
Hypothesis I_attach :
  ∀ this t h, I h → is_closed h this = false →
    (∀ child, t = TSub child →
       child ≠ this ∧ is_closed h child = false
       ∧ _hasParent (h !!! child) this = false) →
    I (attach this t h).

(** A property of the store that each step of [remove], [add] and
    [unsubscribe] keeps is kept by every run. *)
Lemma runs_keep n :
  (∀ c, keeps I (exec n c))
  ∧ (∀ cs, keeps I (exec_body n cs))
  ∧ (∀ t, keeps I (execTeardown n t))
  ∧ (∀ this ts errors, keeps I (run_teardowns n this ts errors))
  ∧ (∀ this, keeps I (unsubscribe n this))
  ∧ (∀ this t, keeps I (add n this t)).
Proof.
  apply (runs_keep_family (fun _ => I)) with (X := fun _ => False).
  - intros _. apply I_remove.
  - intros _. apply I_attach.
  - intros _ this h HI Hopen. unfold release_null.
    pose proof (I_close this h HI Hopen) as H0.
    destruct (_unsubscribe _); [|done].
    destruct (_ctorUnsubscribe _); [|done].
    apply I_release; [done|apply pass_start_closed].
  - intros _. apply I_clear.
Qed.
End Kept.

(** ** Lists of teardowns and of parents *)

Lemma same_teardown_TSub_r u c : same_teardown u (TSub c) = true → u = TSub c.
Proof. destruct u; simpl; try done. by intros ->%Nat.eqb_eq. Qed.

Lemma same_teardown_TSub_l c t : same_teardown (TSub c) t = true → t = TSub c.
Proof. destruct t; simpl; try done. by intros ->%Nat.eqb_eq. Qed.

Lemma TSub_eq_or_not t c : t = TSub c ∨ t ≠ TSub c.
Proof.
  destruct t as [| child |]; try by right.
  destruct (decide (child = c)) as [->|]; [by left|right; congruence].
Qed.

Lemma occurrences_app t l1 l2 :
  occurrences t (l1 ++ l2) = occurrences t l1 + occurrences t l2.
Proof. unfold occurrences. by rewrite List.filter_app, length_app. Qed.

Lemma indexOf_None {A} (same : A → A → bool) l x :
  indexOf same l x = None ↔ List.filter (fun u => same u x) l = [].
Proof.
  induction l as [|y l IH]; simpl; [done|].
  destruct (same y x); [done|].
  destruct (indexOf same l x); simpl.
  - split; [done|]. intros H. by apply IH in H.
  - split; [|done]. intros _. by apply IH.
Qed.

Lemma indexOf_Some {A} (same : A → A → bool) l x i :
  indexOf same l x = Some i →
  ∃ y, l !! i = Some y ∧ same y x = true
       ∧ List.filter (fun u => same u x) (take i l) = [].
Proof.
  revert i. induction l as [|y l IH]; intros i; simpl; [done|].
  destruct (same y x) eqn:Hy.
  - intros [= <-]. by exists y.
  - destruct (indexOf same l x) as [j|]; [|done]. simpl. intros [= <-].
    destruct (IH j eq_refl) as (z & Hz & Hs & Hf). exists z.
    simpl. by rewrite Hy.
Qed.

Lemma filter_delete_hit {A} (f : A → bool) l i y :
  l !! i = Some y → f y = true →
  S (length (List.filter f (delete i l))) = length (List.filter f l).
Proof.
  revert i. induction l as [|z l IH]; intros [|i]; simpl; try done.
  - intros [= ->] ->. done.
  - intros Hl Hy. destruct (f z); simpl; by rewrite (IH i).
Qed.

Lemma filter_delete_miss {A} (f : A → bool) l i y :
  l !! i = Some y → f y = false →
  List.filter f (delete i l) = List.filter f l.
Proof.
  revert i. induction l as [|z l IH]; intros [|i]; simpl; try done.
  - intros [= ->] ->. done.
  - intros Hl Hy. destruct (f z); simpl; by rewrite (IH i).
Qed.

(** What [indexOf] and [splice] do to the number of occurrences. *)
Lemma occurrences_splice t ts i :
  indexOf same_teardown ts t = Some i →
  S (occurrences t (delete i ts)) = occurrences t ts.
Proof.
  intros (y & Hy & Hs & _)%indexOf_Some. unfold occurrences.
  by eapply filter_delete_hit.
Qed.

Lemma occurrences_splice_other c t ts i :
  indexOf same_teardown ts t = Some i → t ≠ TSub c →
  occurrences (TSub c) (delete i ts) = occurrences (TSub c) ts.
Proof.
  intros (y & Hy & Hs & _)%indexOf_Some Hne. unfold occurrences.
  erewrite filter_delete_miss; [done|exact Hy|].
  destruct (same_teardown y (TSub c)) eqn:Hc; [|done].
  apply same_teardown_TSub_r in Hc as ->.
  by apply same_teardown_TSub_l in Hs.
Qed.

Lemma occurrences_absent t ts :
  indexOf same_teardown ts t = None → occurrences t ts = 0.
Proof. intros H%indexOf_None. unfold occurrences. by rewrite H. Qed.

Lemma existsb_delete_other (p q : nat) ps i :
  ps !! i = Some q → q ≠ p →
  existsb (Nat.eqb p) (delete i ps) = existsb (Nat.eqb p) ps.
Proof.
  revert i. induction ps as [|z ps IH]; intros [|i]; simpl; try done.
  - intros [= ->] Hne. apply Nat.eqb_neq in Hne. rewrite Nat.eqb_sym in Hne.
    by rewrite Hne.
  - intros Hl Hne. by rewrite (IH i).
Qed.

(** ** [remove], [_removeParent] and [_addParent], record by record *)

Lemma removeParent_lookup this parent h k :
  _removeParent this parent h !!! k
  = if decide (k = this) then drop_parent parent (h !!! k) else h !!! k.
Proof.
  unfold _removeParent, drop_parent. case_decide as Hk; [subst k|].
  - repeat case_match; by rewrite ?upd_lookup_eq.
  - repeat case_match; by rewrite ?upd_lookup_ne.
Qed.

Lemma addParent_lookup this parent h k :
  _addParent this parent h !!! k
  = if decide (k = this) then take_parent parent (h !!! k) else h !!! k.
Proof.
  unfold _addParent, take_parent. case_decide as Hk; [subst k|].
  - repeat case_match; by rewrite ?upd_lookup_eq.
  - repeat case_match; by rewrite ?upd_lookup_ne.
Qed.

Lemma remove_lookup this t h k :
  remove this t h !!! k
  = (match t with
     | TSub child => if decide (k = child) then drop_parent this else id
     | _ => id
     end)
      ((if decide (k = this) then splice_teardown t else id) (h !!! k)).
Proof.
  unfold remove.
  set (h1 := match _teardowns (h !!! this) with
             | Some ts =>
                 match indexOf same_teardown ts t with
                 | Some index =>
                     upd this (set_teardowns (Some (delete index ts))) h
                 | None => h
                 end
             | None => h
             end).
  assert (h1 !!! k
          = (if decide (k = this) then splice_teardown t else id) (h !!! k))
    as H1.
  { unfold h1, splice_teardown. case_decide as Hk; [subst k|]; simpl.
    - repeat case_match; by rewrite ?upd_lookup_eq.
    - repeat case_match; by rewrite ?upd_lookup_ne. }
  destruct t as [f body|child|o body]; try done.
  rewrite removeParent_lookup. destruct (decide (k = child)); by rewrite H1.
Qed.

Lemma splice_fields t x :
  closed (splice_teardown t x) = closed x
  ∧ _singleParent (splice_teardown t x) = _singleParent x
  ∧ _parents (splice_teardown t x) = _parents x
  ∧ _unsubscribe (splice_teardown t x) = _unsubscribe x.
Proof. unfold splice_teardown. by repeat case_match. Qed.

Lemma splice_teardowns t x :
  default [] (_teardowns (splice_teardown t x))
  = match indexOf same_teardown (default [] (_teardowns x)) t with
    | Some index => delete index (default [] (_teardowns x))
    | None => default [] (_teardowns x)
    end.
Proof.
  unfold splice_teardown. destruct (_teardowns x) as [ts|] eqn:E; simpl.
  - destruct (indexOf same_teardown ts t); simpl; by rewrite ?E.
  - by rewrite E.
Qed.

Lemma drop_fields parent x :
  closed (drop_parent parent x) = closed x
  ∧ _teardowns (drop_parent parent x) = _teardowns x
  ∧ _unsubscribe (drop_parent parent x) = _unsubscribe x.
Proof. unfold drop_parent. by repeat case_match. Qed.

Lemma drop_exclusive parent x :
  exclusive x → exclusive (drop_parent parent x).
Proof.
  unfold exclusive, drop_parent. intros [H|H]; rewrite H.
  - destruct (_parents x); [|by left].
    destruct (indexOf Nat.eqb l parent); simpl; by left.
  - destruct (_singleParent x); [|by right].
    destruct (Nat.eqb n parent); simpl; by right.
Qed.

Lemma hasParent_eq x p :
  _hasParent x p
  = match _singleParent x with Some q => Nat.eqb q p | None => false end
    || match _parents x with
       | Some ps => existsb (Nat.eqb p) ps
       | None => false
       end.
Proof. unfold _hasParent. by rewrite orb_false_r. Qed.

Lemma drop_hasParent parent x p :
  exclusive x → p ≠ parent → _hasParent x p = true →
  _hasParent (drop_parent parent x) p = true.
Proof.
  rewrite !hasParent_eq. unfold exclusive, drop_parent.
  destruct (_singleParent x) as [q|] eqn:Hs.
  - intros [H|H]; [done|]. intros Hne. rewrite H, orb_false_r.
    intros ->%Nat.eqb_eq. apply Nat.eqb_neq in Hne. rewrite Hne.
    by rewrite Hs, H, Nat.eqb_refl.
  - intros _ Hne. simpl. destruct (_parents x) as [ps|] eqn:Hps; [|done].
    destruct (indexOf Nat.eqb ps parent) as [i|] eqn:Hi.
    + simpl. rewrite Hs. simpl.
      apply indexOf_Some in Hi as (q & Hq & ->%Nat.eqb_eq & _).
      by erewrite existsb_delete_other.
    + by rewrite Hs, Hps.
Qed.

Lemma take_fields parent x :
  closed (take_parent parent x) = closed x
  ∧ _teardowns (take_parent parent x) = _teardowns x
  ∧ _unsubscribe (take_parent parent x) = _unsubscribe x.
Proof. unfold take_parent. by repeat case_match. Qed.

Lemma take_exclusive parent x : exclusive (take_parent parent x).
Proof. unfold exclusive, take_parent. repeat case_match; simpl; auto. Qed.

Lemma take_hasParent parent x p :
  exclusive x →
  _hasParent (take_parent parent x) p = _hasParent x p || Nat.eqb p parent.
Proof.
  rewrite !hasParent_eq. unfold exclusive, take_parent.
  destruct (_singleParent x) as [q|] eqn:Hs.
  - intros [H|H]; [done|]. rewrite H. simpl.
    by rewrite !orb_false_r, (Nat.eqb_sym p q).
  - intros _. destruct (_parents x) as [ps|] eqn:Hps; simpl.
    + by rewrite Hs, existsb_app; simpl; rewrite orb_false_r.
    + by rewrite Hps, orb_false_r, Nat.eqb_sym.
Qed.

Lemma remove_is_closed s t h k : is_closed (remove s t h) k = is_closed h k.
Proof.
  unfold is_closed. rewrite remove_lookup.
  set (y := (if decide (k = s) then splice_teardown t else id) (h !!! k)).
  assert (closed y = closed (h !!! k)) as <-.
  { unfold y. case_decide; [apply splice_fields|done]. }
  destruct t as [| child |]; simpl; try done.
  destruct (decide (k = child)); [|done]. apply drop_fields.
Qed.

Lemma remove_exclusive s t h k :
  exclusive (h !!! k) → exclusive (remove s t h !!! k).
Proof.
  intros He. rewrite remove_lookup.
  assert (exclusive
            ((if decide (k = s) then splice_teardown t else id) (h !!! k)))
    as H1.
  { case_decide; [|done]. unfold exclusive.
    destruct (splice_fields t (h !!! k)) as (_ & -> & -> & _). done. }
  destruct t as [| child |]; simpl; try done.
  destruct (decide (k = child)); [|done]. by apply drop_exclusive.
Qed.

Lemma remove_teardowns_of s t h k :
  teardowns_of (remove s t h) k
  = if decide (k = s)
    then match indexOf same_teardown (teardowns_of h s) t with
         | Some index => delete index (teardowns_of h s)
         | None => teardowns_of h s
         end
    else teardowns_of h k.
Proof.
  unfold teardowns_of. rewrite remove_lookup.
  assert (∀ x, default [] (_teardowns
            (match t with
             | TSub child => if decide (k = child) then drop_parent s else id
             | _ => id
             end x)) = default [] (_teardowns x)) as H1.
  { intros x. destruct t as [| child |]; try done.
    case_decide; [|done]. by destruct (drop_fields s x) as (_ & -> & _). }
  rewrite H1. case_decide; [subst k|done]. apply splice_teardowns.
Qed.

Lemma remove_hasParent s t h k p :
  exclusive (h !!! k) → _hasParent (h !!! k) p = true →
  (t = TSub k → p ≠ s) →
  _hasParent (remove s t h !!! k) p = true.
Proof.
  intros He Hp Hne. rewrite remove_lookup.
  set (x := (if decide (k = s) then splice_teardown t else id) (h !!! k)).
  assert (_singleParent x = _singleParent (h !!! k)
          ∧ _parents x = _parents (h !!! k)) as [H1 H2].
  { unfold x. case_decide; [|done].
    by destruct (splice_fields t (h !!! k)) as (_ & -> & -> & _). }
  assert (_hasParent x p = true) as Hx.
  { rewrite hasParent_eq in Hp |- *. by rewrite H1, H2. }
  assert (exclusive x) as Hex.
  { unfold exclusive. by rewrite H1, H2. }
  destruct t as [| child |]; simpl; try done.
  destruct (decide (k = child)) as [<-|]; [|done].
  apply drop_hasParent; auto.
Qed.

(** ** The tree stays consistent *)

Lemma tree_ok_on_ext (C C' : ref → Prop) h h' :
  tree_ok_on C h →
  (∀ c, C' c → C c) →
  (∀ k, exclusive (h !!! k) → exclusive (h' !!! k)) →
  (∀ k, is_closed h' k = false →
        is_closed h k = false ∧ teardowns_of h' k = teardowns_of h k) →
  (∀ c, C' c → is_closed h c = false → is_closed h' c = false) →
  (∀ c p, C' c → exclusive (h !!! c) → _hasParent (h !!! c) p = true →
          _hasParent (h' !!! c) p = true) →
  tree_ok_on C' h'.
Proof.
  intros H HC Hex Hopen Hcl Hpar p. destruct (H p) as [He HK].
  split; [by apply Hex|]. intros Hp c Hc.
  destruct (Hopen p Hp) as [Hp' ->]. intros Hocc.
  destruct (HK Hp' c (HC c Hc) Hocc) as (H1 & H2 & H3).
  split; [by apply Hcl|]. split; [|done].
  apply Hpar; auto. apply H.
Qed.

Lemma tree_ok_remove C s t h : tree_ok_on C h → tree_ok_on C (remove s t h).
Proof.
  intros H p. destruct (H p) as [He HK].
  split; [by apply remove_exclusive|].
  rewrite remove_is_closed. intros Hp c HC.
  rewrite remove_teardowns_of. case_decide as Hps.
  - subst p. destruct (indexOf same_teardown (teardowns_of h s) t)
      as [i|] eqn:Hi.
    + destruct (TSub_eq_or_not t c) as [->|Hne].
      * intros Hocc. exfalso.
        pose proof (occurrences_splice _ _ _ Hi) as HS.
        destruct (HK Hp c HC) as (_ & _ & H1); lia.
      * rewrite (occurrences_splice_other _ _ _ _ Hi Hne). intros Hocc.
        destruct (HK Hp c HC Hocc) as (H1 & H2 & H3).
        rewrite remove_is_closed. repeat apply conj; try done.
        apply remove_hasParent; [apply H|done|]. by intros ->.
    + intros Hocc. destruct (HK Hp c HC Hocc) as (H1 & H2 & H3).
      rewrite remove_is_closed. repeat apply conj; try done.
      apply remove_hasParent; [apply H|done|]. intros ->.
      apply occurrences_absent in Hi. lia.
  - intros Hocc. destruct (HK Hp c HC Hocc) as (H1 & H2 & H3).
    rewrite remove_is_closed. repeat apply conj; try done.
    apply remove_hasParent; [apply H|done|]. intros _. done.
Qed.

Lemma tree_ok_foldl_remove C t ps h :
  tree_ok_on C h →
  tree_ok_on C (foldl (fun h parent => remove parent t h) h ps).
Proof.
  revert h. induction ps as [|p ps IH]; intros h H; simpl; [done|].
  by apply IH, tree_ok_remove.
Qed.

(** One [remove] takes out one occurrence, in the list it names. *)
Lemma remove_occurrences s t h p :
  occurrences t (teardowns_of (remove s t h) p)
  = if decide (p = s)
    then pred (occurrences t (teardowns_of h p))
    else occurrences t (teardowns_of h p).
Proof.
  rewrite remove_teardowns_of. case_decide as Hp; [subst p|done].
  destruct (indexOf same_teardown (teardowns_of h s) t) as [i|] eqn:Hi.
  - by rewrite <- (occurrences_splice _ _ _ Hi).
  - by rewrite (occurrences_absent _ _ Hi).
Qed.

Lemma foldl_remove_occurrences t ps h p :
  occurrences t
    (teardowns_of (foldl (fun h parent => remove parent t h) h ps) p)
  ≤ (if existsb (Nat.eqb p) ps then pred else id)
      (occurrences t (teardowns_of h p)).
Proof.
  revert h. induction ps as [|q ps IH]; intros h; simpl; [done|].
  specialize (IH (remove q t h)). rewrite remove_occurrences in IH.
  destruct (Nat.eqb_spec p q) as [->|Hne]; simpl.
  - rewrite decide_True in IH by done.
    destruct (existsb (Nat.eqb q) ps); simpl in *; lia.
  - rewrite decide_False in IH by done. done.
Qed.

Lemma foldl_remove_is_closed t ps h p :
  is_closed (foldl (fun h parent => remove parent t h) h ps) p
  = is_closed h p.
Proof.
  revert h. induction ps as [|q ps IH]; intros h; simpl; [done|].
  rewrite IH. apply remove_is_closed.
Qed.

Lemma tree_ok_on_join x h :
  tree_ok_on (fun c => c ≠ x) h →
  (∀ p, is_closed h p = false →
        occurrences (TSub x) (teardowns_of h p) = 0) →
  tree_ok h.
Proof.
  intros H Hx p. destruct (H p) as [He HK]. split; [done|].
  intros Hp c _ Hocc. destruct (decide (c = x)) as [->|Hne].
  - by rewrite Hx in Hocc.
  - by apply HK.
Qed.

Lemma tree_ok_close this h :
  tree_ok h → is_closed h this = false → tree_ok (pass_start this h).
Proof.
  intros H Hopen. unfold pass_start.
  set (h1 := upd this (set_closed true) h).
  assert (tree_ok_on (fun c => c ≠ this) h1) as H1.
  { eapply (tree_ok_on_ext _ _ h); [exact H|done|..].
    - intros k. unfold h1. destruct (decide (k = this)) as [->|].
      + by rewrite upd_lookup_eq.
      + by rewrite upd_lookup_ne.
    - intros k. unfold h1, is_closed, teardowns_of.
      destruct (decide (k = this)) as [->|].
      + by rewrite upd_lookup_eq.
      + by rewrite upd_lookup_ne.
    - intros c Hc. unfold h1, is_closed. by rewrite upd_lookup_ne.
    - intros c p Hc _. unfold h1. by rewrite upd_lookup_ne. }
  assert (∀ p, is_closed h1 p = false →
               occurrences (TSub this) (teardowns_of h1 p) ≤ 1
               ∧ (occurrences (TSub this) (teardowns_of h1 p) ≠ 0 →
                  _hasParent (h !!! this) p = true)) as F.
  { intros p. unfold h1, is_closed, teardowns_of.
    destruct (decide (p = this)) as [->|Hne].
    - by rewrite upd_lookup_eq.
    - rewrite upd_lookup_ne by done. intros Hp.
      destruct (H p) as [_ HK]. specialize (HK Hp this I).
      fold (teardowns_of h p) in *. split.
      + destruct (decide (occurrences (TSub this) (teardowns_of h p) = 0));
          [lia|]. destruct HK as (_ & _ & ->); done.
      + intros Hocc. by destruct HK as (_ & -> & _). }
  assert (h1 !!! this = set_closed true (h !!! this)) as Hthis.
  { unfold h1. by rewrite upd_lookup_eq. }
  destruct (H this) as [Hex _].
  apply (tree_ok_on_join this).
  - unfold detach_from_parents. rewrite Hthis.
    cbn [_singleParent _parents set_closed].
    destruct (_singleParent (h !!! this)) as [q|] eqn:Hs.
    + apply (tree_ok_remove (fun c => c ≠ this)).
      eapply (tree_ok_on_ext _ _ h1); [exact H1|done|..].
      * intros k. destruct (decide (k = this)) as [->|].
        -- rewrite upd_lookup_eq. intros _. by left.
        -- by rewrite upd_lookup_ne.
      * intros k. unfold is_closed, teardowns_of.
        destruct (decide (k = this)) as [->|].
        -- by rewrite upd_lookup_eq.
        -- by rewrite upd_lookup_ne.
      * intros c Hc. unfold is_closed. by rewrite upd_lookup_ne.
      * intros c p Hc _. by rewrite upd_lookup_ne.
    + destruct (_parents (h !!! this)) as [ps|] eqn:Hps; [|done].
      apply (tree_ok_foldl_remove (fun c => c ≠ this)).
      eapply (tree_ok_on_ext _ _ h1); [exact H1|done|..].
      * intros k. destruct (decide (k = this)) as [->|].
        -- rewrite upd_lookup_eq. intros _. by right.
        -- by rewrite upd_lookup_ne.
      * intros k. unfold is_closed, teardowns_of.
        destruct (decide (k = this)) as [->|].
        -- by rewrite upd_lookup_eq.
        -- by rewrite upd_lookup_ne.
      * intros c Hc. unfold is_closed. by rewrite upd_lookup_ne.
      * intros c p Hc _. by rewrite upd_lookup_ne.
  - intros p. unfold detach_from_parents. rewrite Hthis.
    cbn [_singleParent _parents set_closed]. intros Hp.
    setoid_rewrite hasParent_eq in F.
    destruct (_singleParent (h !!! this)) as [q|] eqn:Hs.
    + rewrite remove_is_closed in Hp. rewrite remove_occurrences.
      assert (is_closed h1 p = false) as Hp1.
      { revert Hp. unfold is_closed. destruct (decide (p = this)) as [->|].
        - by rewrite upd_lookup_eq, Hthis.
        - by rewrite upd_lookup_ne. }
      assert (teardowns_of (upd this (set_singleParent None) h1) p
              = teardowns_of h1 p) as ->.
      { unfold teardowns_of. destruct (decide (p = this)) as [->|].
        - by rewrite upd_lookup_eq.
        - by rewrite upd_lookup_ne. }
      destruct (F p Hp1) as [Hle Hpar]. case_decide as Hpq; [lia|].
      destruct (decide (occurrences (TSub this) (teardowns_of h1 p) = 0))
        as [|Hocc]; [done|]. specialize (Hpar Hocc).
      destruct Hex as [Hex|Hex]; [congruence|]. rewrite Hex in Hpar.
      rewrite orb_false_r in Hpar. apply Nat.eqb_eq in Hpar. congruence.
    + destruct (_parents (h !!! this)) as [ps|] eqn:Hps.
      * rewrite foldl_remove_is_closed in Hp.
        assert (is_closed h1 p = false) as Hp1.
        { revert Hp. unfold is_closed. destruct (decide (p = this)) as [->|].
          - by rewrite upd_lookup_eq, Hthis.
          - by rewrite upd_lookup_ne. }
        pose proof (foldl_remove_occurrences (TSub this) ps
                      (upd this (set_parents None) h1) p) as Hfold.
        assert (teardowns_of (upd this (set_parents None) h1) p
                = teardowns_of h1 p) as Heq.
        { unfold teardowns_of. destruct (decide (p = this)) as [->|].
          - by rewrite upd_lookup_eq.
          - by rewrite upd_lookup_ne. }
        rewrite Heq in Hfold. destruct (F p Hp1) as [Hle Hpar].
        destruct (decide (occurrences (TSub this) (teardowns_of h1 p) = 0))
          as [H0|Hocc].
        -- assert (∀ b : bool, (if b then pred else id) 0 = 0) as Hz
             by (by intros []).
           rewrite H0, Hz in Hfold. lia.
        -- specialize (Hpar Hocc). simpl in Hpar. rewrite Hpar in Hfold.
           lia.
      * destruct (F p Hp) as [Hle Hpar].
        destruct (decide (occurrences (TSub this) (teardowns_of h1 p) = 0))
          as [H0|Hocc]; [done|]. by specialize (Hpar Hocc).
Qed.

Lemma tree_ok_release this h :
  tree_ok h → tree_ok (upd this (set_unsubscribe None) h).
Proof.
  intros H. eapply (tree_ok_on_ext _ _ h); [exact H|done|..].
  - intros k. destruct (decide (k = this)) as [->|].
    + by rewrite upd_lookup_eq.
    + by rewrite upd_lookup_ne.
  - intros k. unfold is_closed, teardowns_of.
    destruct (decide (k = this)) as [->|].
    + by rewrite upd_lookup_eq.
    + by rewrite upd_lookup_ne.
  - intros c _. unfold is_closed. destruct (decide (c = this)) as [->|].
    + by rewrite upd_lookup_eq.
    + by rewrite upd_lookup_ne.
  - intros c p _ _. destruct (decide (c = this)) as [->|].
    + by rewrite upd_lookup_eq.
    + by rewrite upd_lookup_ne.
Qed.

Lemma tree_ok_clear this h :
  tree_ok h → is_closed h this = true →
  tree_ok (upd this (set_teardowns None) h).
Proof.
  intros H Hc. eapply (tree_ok_on_ext _ _ h); [exact H|done|..].
  - intros k. destruct (decide (k = this)) as [->|].
    + by rewrite upd_lookup_eq.
    + by rewrite upd_lookup_ne.
  - intros k. unfold is_closed, teardowns_of in *.
    destruct (decide (k = this)) as [->|].
    + rewrite upd_lookup_eq. simpl. congruence.
    + by rewrite upd_lookup_ne.
  - intros c _. unfold is_closed. destruct (decide (c = this)) as [->|].
    + by rewrite upd_lookup_eq.
    + by rewrite upd_lookup_ne.
  - intros c p _ _. destruct (decide (c = this)) as [->|].
    + by rewrite upd_lookup_eq.
    + by rewrite upd_lookup_ne.
Qed.

Lemma tree_ok_addParent child parent h :
  tree_ok h → tree_ok (_addParent child parent h).
Proof.
  intros H. eapply (tree_ok_on_ext _ _ h); [exact H|done|..].
  - intros k _. rewrite addParent_lookup. case_decide; [|apply H].
    apply take_exclusive.
  - intros k. unfold is_closed, teardowns_of. rewrite addParent_lookup.
    case_decide; [|done].
    by destruct (take_fields parent (h !!! k)) as (-> & -> & _).
  - intros c _. unfold is_closed. rewrite addParent_lookup.
    case_decide; [|done].
    by destruct (take_fields parent (h !!! c)) as (-> & _).
  - intros c p _ He Hp. rewrite addParent_lookup. case_decide; [|done].
    by rewrite take_hasParent, Hp.
Qed.

Lemma tree_ok_push this t h :
  tree_ok h → is_closed h this = false →
  (∀ child, t = TSub child →
     occurrences t (teardowns_of h this) = 0
     ∧ is_closed h child = false ∧ _hasParent (h !!! child) this = true) →
  tree_ok
    (upd this
       (fun x => set_teardowns (Some (default [] (_teardowns x) ++ [t])) x)
       h).
Proof.
  intros H Hopen Ht.
  set (push := fun x =>
         set_teardowns (Some (default [] (_teardowns x) ++ [t])) x).
  assert (∀ k, is_closed (upd this push h) k = is_closed h k) as Hcl.
  { intros k. unfold is_closed. destruct (decide (k = this)) as [->|].
    - by rewrite upd_lookup_eq.
    - by rewrite upd_lookup_ne. }
  assert (∀ k p, _hasParent (upd this push h !!! k) p
                 = _hasParent (h !!! k) p) as Hpar.
  { intros k p. destruct (decide (k = this)) as [->|].
    - by rewrite upd_lookup_eq.
    - by rewrite upd_lookup_ne. }
  intros p. destruct (H p) as [He HK]. split.
  { destruct (decide (p = this)) as [->|].
    - by rewrite upd_lookup_eq.
    - by rewrite upd_lookup_ne. }
  rewrite Hcl. intros Hp c _. rewrite Hcl, Hpar.
  destruct (decide (p = this)) as [->|Hne].
  - assert (teardowns_of (upd this push h) this = teardowns_of h this ++ [t])
      as ->.
    { unfold teardowns_of. by rewrite upd_lookup_eq. }
    rewrite occurrences_app.
    destruct (TSub_eq_or_not t c) as [->|Hc].
    + destruct (Ht c eq_refl) as (H0 & H1 & H2). rewrite H0.
      intros _. repeat apply conj; try done.
      unfold occurrences. simpl. by rewrite Nat.eqb_refl.
    + assert (occurrences (TSub c) [t] = 0) as ->.
      { unfold occurrences. simpl.
        destruct (same_teardown t (TSub c)) eqn:Hs; [|done].
        by apply same_teardown_TSub_r in Hs. }
      rewrite Nat.add_0_r. by apply HK.
  - assert (teardowns_of (upd this push h) p = teardowns_of h p) as ->.
    { unfold teardowns_of. by rewrite upd_lookup_ne. }
    by apply HK.
Qed.

Lemma tree_ok_attach this t h :
  tree_ok h → is_closed h this = false →
  (∀ child, t = TSub child →
     child ≠ this ∧ is_closed h child = false
     ∧ _hasParent (h !!! child) this = false) →
  tree_ok (attach this t h).
Proof.
  intros H Hopen Ht. unfold attach.
  assert (∀ child, t = TSub child →
            occurrences t (teardowns_of h this) = 0) as Hfresh.
  { intros child ->. destruct (Ht child eq_refl) as (_ & _ & Hno).
    destruct (H this) as [_ HK]. specialize (HK Hopen child I).
    destruct (decide (occurrences (TSub child) (teardowns_of h this) = 0));
      [done|]. destruct HK as (_ & HK & _); [done|congruence]. }
  destruct t as [f body|child|o body].
  - apply tree_ok_push; [done..|]. by intros.
  - destruct (Ht child eq_refl) as (Hne & Hc & Hno).
    apply tree_ok_push.
    + by apply tree_ok_addParent.
    + unfold is_closed. rewrite addParent_lookup.
      by rewrite decide_False by done.
    + intros c [= <-]. split; [|split].
      * unfold teardowns_of. rewrite addParent_lookup.
        rewrite decide_False by done. by apply (Hfresh child).
      * unfold is_closed. rewrite addParent_lookup.
        rewrite decide_True by done.
        by destruct (take_fields this (h !!! child)) as (-> & _).
      * rewrite addParent_lookup, decide_True by done.
        rewrite take_hasParent by apply H.
        by rewrite Nat.eqb_refl, orb_true_r.
  - apply tree_ok_push; [done..|]. by intros.
Qed.

Lemma tree_ok_empty : tree_ok ∅.
Proof.
  intros p. split; [by left|]. intros _ c _.
  unfold teardowns_of. by rewrite lookup_total_empty.
Qed.

(** The tree stays consistent in every run. *)
Lemma tree_ok_kept n :
  (∀ c, keeps tree_ok (exec n c)) ∧ (∀ cs, keeps tree_ok (exec_body n cs))
  ∧ (∀ t, keeps tree_ok (execTeardown n t))
  ∧ (∀ this ts errors, keeps tree_ok (run_teardowns n this ts errors))
  ∧ (∀ this, keeps tree_ok (unsubscribe n this))
  ∧ (∀ this t, keeps tree_ok (add n this t)).
Proof.
  apply runs_keep.
  - intros. by apply (tree_ok_remove (fun _ => True)).
  - apply tree_ok_close.
  - intros. by apply tree_ok_release.
  - apply tree_ok_clear.
  - apply tree_ok_attach.
Qed.

(** ** Disposed tokens *)

Lemma set_unsubscribe_same x :
  _unsubscribe x = None → set_unsubscribe None x = x.
Proof. destruct x. simpl. by intros ->. Qed.

Lemma set_teardowns_same x :
  _teardowns x = None → set_teardowns None x = x.
Proof. destruct x. simpl. by intros ->. Qed.

Lemma splice_teardown_none t x :
  _teardowns x = None → splice_teardown t x = x.
Proof. unfold splice_teardown. by intros ->. Qed.

Lemma drop_parent_none parent x :
  _singleParent x = None → _parents x = None → drop_parent parent x = x.
Proof. unfold drop_parent. by intros -> ->. Qed.

Section Retired.
Variable s : ref.
Variable Q : Subscription → Prop.
Hypothesis Q_retired : ∀ x, Q x → retired x.
Hypothesis Q_splice : ∀ t x, Q x → Q (splice_teardown t x).
Hypothesis Q_clear : ∀ x, Q x → Q (set_teardowns None x).

Lemma retired_remove s' t h : Q (h !!! s) → Q (remove s' t h !!! s).
Proof.
  intros H. rewrite remove_lookup.
  set (y := (if decide (s = s') then splice_teardown t else id) (h !!! s)).
  assert (Q y) as Hy. { unfold y. case_decide; [by apply Q_splice|done]. }
  destruct t as [| child |]; try done.
  destruct (decide (s = child)); [|done].
  destruct (Q_retired _ Hy) as (_ & H1 & H2 & _).
  by rewrite drop_parent_none.
Qed.

Lemma retired_foldl_remove t ps h :
  Q (h !!! s) → Q (foldl (fun h parent => remove parent t h) h ps !!! s).
Proof.
  revert h. induction ps as [|p ps IH]; intros h H; simpl; [done|].
  by apply IH, retired_remove.
Qed.

Lemma retired_close this h :
  Q (h !!! s) → is_closed h this = false → Q (pass_start this h !!! s).
Proof.
  intros H Hopen. destruct (Q_retired _ H) as (Hc & _).
  assert (s ≠ this) as Hne. { intros ->. unfold is_closed in Hopen. congruence. }
  unfold pass_start, detach_from_parents.
  destruct (_singleParent _); [|destruct (_parents _)].
  - apply retired_remove. by rewrite !upd_lookup_ne.
  - apply retired_foldl_remove. by rewrite !upd_lookup_ne.
  - by rewrite upd_lookup_ne.
Qed.

Lemma retired_release this h :
  Q (h !!! s) → Q (upd this (set_unsubscribe None) h !!! s).
Proof.
  intros H. destruct (decide (s = this)) as [<-|].
  - rewrite upd_lookup_eq. destruct (Q_retired _ H) as (_ & _ & _ & Hu).
    by rewrite set_unsubscribe_same.
  - by rewrite upd_lookup_ne.
Qed.

Lemma retired_clear this h :
  Q (h !!! s) → Q (upd this (set_teardowns None) h !!! s).
Proof.
  intros H. destruct (decide (s = this)) as [<-|].
  - rewrite upd_lookup_eq. by apply Q_clear.
  - by rewrite upd_lookup_ne.
Qed.

Lemma retired_attach this t h :
  Q (h !!! s) → is_closed h this = false →
  (∀ child, t = TSub child →
     child ≠ this ∧ is_closed h child = false
     ∧ _hasParent (h !!! child) this = false) →
  Q (attach this t h !!! s).
Proof.
  intros H Hopen Ht. destruct (Q_retired _ H) as (Hc & _).
  assert (s ≠ this) as Hne. { intros ->. unfold is_closed in Hopen. congruence. }
  unfold attach. rewrite upd_lookup_ne by done.
  destruct t as [| child |]; try done.
  rewrite addParent_lookup. case_decide as Hs; [subst child|done].
  destruct (Ht s eq_refl) as (_ & Hcs & _). unfold is_closed in Hcs.
  congruence.
Qed.

Lemma retired_kept n :
  (∀ c, keeps (fun h => Q (h !!! s)) (exec n c))
  ∧ (∀ cs, keeps (fun h => Q (h !!! s)) (exec_body n cs))
  ∧ (∀ t, keeps (fun h => Q (h !!! s)) (execTeardown n t))
  ∧ (∀ this ts errors,
       keeps (fun h => Q (h !!! s)) (run_teardowns n this ts errors))
  ∧ (∀ this, keeps (fun h => Q (h !!! s)) (unsubscribe n this))
  ∧ (∀ this t, keeps (fun h => Q (h !!! s)) (add n this t)).
Proof.
  apply (runs_keep (fun h => Q (h !!! s))).
  - intros. by apply retired_remove.
  - apply retired_close.
  - intros. by apply retired_release.
  - intros. by apply retired_clear.
  - apply retired_attach.
Qed.
End Retired.

Lemma retired_stays s n :
  (∀ cs, keeps (fun h => retired (h !!! s)) (exec_body n cs))
  ∧ (∀ t, keeps (fun h => retired (h !!! s)) (execTeardown n t)).
Proof.
  destruct (retired_kept s retired) with (n := n) as (_ & H1 & H2 & _);
    [done|..].
  - intros t x (H1 & H2 & H3 & H4).
    destruct (splice_fields t x) as (E1 & E2 & E3 & E4).
    unfold retired. by rewrite E1, E2, E3, E4.
  - by intros x (H1 & H2 & H3 & H4).
  - split; [apply H1|apply H2].
Qed.

Lemma spent_stays s x n :
  spent x →
  (∀ c, keeps (fun h => h !!! s = x) (exec n c))
  ∧ (∀ cs, keeps (fun h => h !!! s = x) (exec_body n cs))
  ∧ (∀ t, keeps (fun h => h !!! s = x) (execTeardown n t))
  ∧ (∀ this ts errors,
       keeps (fun h => h !!! s = x) (run_teardowns n this ts errors))
  ∧ (∀ this, keeps (fun h => h !!! s = x) (unsubscribe n this))
  ∧ (∀ this t, keeps (fun h => h !!! s = x) (add n this t)).
Proof.
  intros [Hr Ht]. apply (retired_kept s (fun y => y = x)).
  - by intros y ->.
  - intros t y ->. by apply splice_teardown_none.
  - intros y ->. by apply set_teardowns_same.
Qed.

(** What [pass_start] leaves of the token's parent fields. *)
Lemma pass_start_this this h :
  exclusive (h !!! this) →
  closed (pass_start this h !!! this) = true
  ∧ _singleParent (pass_start this h !!! this) = None
  ∧ _parents (pass_start this h !!! this) = None
  ∧ _unsubscribe (pass_start this h !!! this) = _unsubscribe (h !!! this)
  ∧ _ctorUnsubscribe (pass_start this h !!! this)
    = _ctorUnsubscribe (h !!! this).
Proof.
  intros Hex.
  set (P := fun y : Subscription =>
         closed y = true ∧ _singleParent y = None ∧ _parents y = None
         ∧ _unsubscribe y = _unsubscribe (h !!! this)
         ∧ _ctorUnsubscribe y = _ctorUnsubscribe (h !!! this)).
  assert (∀ p h0, P (h0 !!! this) → P (remove p (TSub this) h0 !!! this))
    as Hrem.
  { intros p h0 (H1 & H2 & H3 & H4 & H5). rewrite remove_lookup.
    rewrite decide_True by done.
    set (y := (if decide (this = p) then splice_teardown (TSub this) else id)
                (h0 !!! this)).
    assert (P y) as (Y1 & Y2 & Y3 & Y4 & Y5).
    { unfold y. case_decide; [|done]. unfold P, splice_teardown.
      by repeat case_match. }
    rewrite drop_parent_none by done. done. }
  change (P (pass_start this h !!! this)).
  unfold pass_start, detach_from_parents. rewrite upd_lookup_eq.
  cbn [_singleParent _parents set_closed].
  destruct (_singleParent (h !!! this)) as [q|] eqn:Hs.
  - destruct Hex as [Hex|Hex]; [congruence|]. apply Hrem.
    rewrite !upd_lookup_eq. by unfold P.
  - destruct (_parents (h !!! this)) as [ps|] eqn:Hps.
    + assert (∀ l h0, P (h0 !!! this) →
                P (foldl (fun h parent => remove parent (TSub this) h) h0 l
                     !!! this)) as Hfold.
      { induction l as [|p l IH]; intros h0 H0; simpl; [done|].
        by apply IH, Hrem. }
      apply Hfold. rewrite !upd_lookup_eq. by unfold P.
    + rewrite upd_lookup_eq. by unfold P.
Qed.

Lemma occurrences_TSub c ts :
  occurrences (TSub c) ts = 0 ↔ TSub c ∉ ts.
Proof.
  unfold occurrences. induction ts as [|u ts IH]; simpl.
  - split; [intros _; apply not_elem_of_nil|done].
  - rewrite not_elem_of_cons. destruct (same_teardown u (TSub c)) eqn:Hu.
    + apply same_teardown_TSub_r in Hu as ->. simpl. split; [done|].
      by intros [? _].
    + rewrite IH. split; [|by intros [_ ?]]. intros H. split; [|done].
      intros <-. simpl in Hu. by rewrite Nat.eqb_refl in Hu.
Qed.

Lemma shared_child_built :
  exec_body 9 build_shared_child ∅ = Some (Returned tt, shared_child, []).
Proof. vm_compute. reflexivity. Qed.

Lemma shared_child_tree_ok : tree_ok shared_child.
Proof.
  destruct (tree_ok_kept 9) as (_ & H & _).
  exact (H _ _ _ _ _ tree_ok_empty shared_child_built).
Qed.

(** ** [add] and [remove] *)

Lemma same_teardown_refl t : same_teardown t t = true.
Proof. destruct t; simpl; apply Nat.eqb_refl. Qed.

Lemma splice_remove_first t ts :
  match indexOf same_teardown ts t with
  | Some index => delete index ts
  | None => ts
  end = remove_first t ts.
Proof.
  induction ts as [|u ts IH]; simpl; [done|].
  destruct (same_teardown u t); [done|].
  destruct (indexOf same_teardown ts t); simpl in *; by rewrite <- IH.
Qed.

Lemma remove_first_fresh t ts :
  occurrences t ts = 0 → remove_first t (ts ++ [t]) = ts.
Proof.
  unfold occurrences. induction ts as [|u ts IH]; simpl.
  - by rewrite same_teardown_refl.
  - destruct (same_teardown u t); [done|]. intros H. by rewrite IH.
Qed.

Lemma indexOf_fresh {A} (same : A → A → bool) l x y :
  List.filter (fun u => same u x) l = [] → same y x = true →
  indexOf same (l ++ [y]) x = Some (length l).
Proof.
  intros Hl Hy. induction l as [|z l IH]; simpl in *.
  - by rewrite Hy.
  - destruct (same z x); [done|]. by rewrite IH.
Qed.

Lemma delete_last {A} (l : list A) y : delete (length l) (l ++ [y]) = l.
Proof. induction l as [|z l IH]; simpl; by rewrite ?IH. Qed.

Lemma existsb_filter (p : nat) ps :
  existsb (Nat.eqb p) ps = false →
  List.filter (fun u => Nat.eqb u p) ps = [].
Proof.
  induction ps as [|q ps IH]; simpl; [done|].
  rewrite (Nat.eqb_sym q p). destruct (Nat.eqb p q); [done|]. apply IH.
Qed.

Lemma drop_hasParent_other parent x p :
  exclusive x → p ≠ parent →
  _hasParent (drop_parent parent x) p = _hasParent x p.
Proof.
  rewrite !hasParent_eq. unfold exclusive, drop_parent.
  destruct (_singleParent x) as [q|] eqn:Hs.
  - intros [H|H]; [done|]. intros Hne. rewrite H, orb_false_r.
    destruct (Nat.eqb_spec q parent) as [->|Hq].
    + simpl. rewrite H. symmetry. apply Nat.eqb_neq. congruence.
    + by rewrite Hs, H, orb_false_r.
  - intros _ Hne. simpl. destruct (_parents x) as [ps|] eqn:Hps.
    + destruct (indexOf Nat.eqb ps parent) as [i|] eqn:Hi.
      * simpl. rewrite Hs. simpl.
        apply indexOf_Some in Hi as (q & Hq & ->%Nat.eqb_eq & _).
        by erewrite existsb_delete_other.
      * by rewrite Hs, Hps.
    + by rewrite Hs, Hps.
Qed.

(** Taking a parent and dropping it again leaves the parents as they
    were. *)
Lemma drop_take parent x p :
  exclusive x → _hasParent x parent = false →
  _hasParent (drop_parent parent (take_parent parent x)) p = _hasParent x p.
Proof.
  rewrite !hasParent_eq. unfold exclusive, drop_parent, take_parent.
  destruct (_singleParent x) as [q|] eqn:Hs.
  - intros [H|H]; [done|]. rewrite H, orb_false_r. intros Hq. simpl.
    rewrite Hq. simpl. rewrite Nat.eqb_refl. simpl.
    by rewrite (Nat.eqb_sym p q).
  - intros _. simpl. destruct (_parents x) as [ps|] eqn:Hps; simpl.
    + intros Hno. rewrite Hs. simpl.
      rewrite (indexOf_fresh Nat.eqb ps parent parent);
        [|by apply existsb_filter|apply Nat.eqb_refl].
      simpl. by rewrite Hs, delete_last.
    + intros _. rewrite Nat.eqb_refl. simpl. by rewrite Hps.
Qed.

(** [add] on an open token stores the teardown. *)
Lemma add_open n this t h :
  is_closed h this = false →
  (∀ child, t = TSub child →
     child ≠ this ∧ is_closed h child = false
     ∧ _hasParent (h !!! child) this = false) →
  add (S n) this (Some t) h = Some (Returned tt, attach this t h, []).
Proof.
  unfold is_closed. intros Hopen Ht. cbn [add add_body].
  destruct t as [f body|child|o body]; cbn [same_teardown].
  - rewrite bind_read, Hopen. done.
  - destruct (Ht child eq_refl) as (Hne & Hc & Hno).
    apply Nat.eqb_neq in Hne as ->. rewrite bind_read, Hopen, bind_read.
    rewrite Hc, Hno. simpl. by rewrite bind_modify.
  - rewrite bind_read, Hopen. done.
Qed.

Lemma attach_lookup this t h k :
  attach this t h !!! k
  = (if decide (k = this)
     then fun x => set_teardowns (Some (default [] (_teardowns x) ++ [t])) x
     else id)
      ((match t with
        | TSub child => if decide (k = child) then take_parent this else id
        | _ => id
        end) (h !!! k)).
Proof.
  unfold attach. destruct (decide (k = this)) as [->|Hne].
  - rewrite upd_lookup_eq. destruct t as [| child |]; try done.
    rewrite addParent_lookup. by destruct (decide (this = child)).
  - rewrite upd_lookup_ne by done. destruct t as [| child |]; try done.
    rewrite addParent_lookup. by destruct (decide (k = child)).
Qed.

Lemma attach_teardowns_of this t h k :
  teardowns_of (attach this t h) k
  = if decide (k = this) then teardowns_of h this ++ [t]
    else teardowns_of h k.
Proof.
  unfold teardowns_of. rewrite attach_lookup.
  assert (∀ x, _teardowns
            (match t with
             | TSub child => if decide (k = child) then take_parent this else id
             | _ => id
             end x) = _teardowns x) as H1.
  { intros x. destruct t as [| child |]; try done.
    destruct (decide (k = child)); [|done]. apply take_fields. }
  destruct (decide (k = this)) as [->|]; simpl; by rewrite H1.
Qed.

Lemma attach_is_closed this t h k :
  is_closed (attach this t h) k = is_closed h k.
Proof.
  unfold is_closed. rewrite attach_lookup.
  assert (∀ x, closed
            (match t with
             | TSub child => if decide (k = child) then take_parent this else id
             | _ => id
             end x) = closed x) as H1.
  { intros x. destruct t as [| child |]; try done.
    destruct (decide (k = child)); [|done]. apply take_fields. }
  destruct (decide (k = this)); simpl; by rewrite H1.
Qed.

(** ** The links stay exact *)

Lemma existsb_elem_of (p : nat) ps : existsb (Nat.eqb p) ps = true ↔ p ∈ ps.
Proof.
  induction ps as [|q ps IH]; simpl.
  - split; [done|by intros ?%elem_of_nil].
  - by rewrite orb_true_iff, elem_of_cons, IH, Nat.eqb_eq.
Qed.

Lemma NoDup_delete_lookup {A} (l : list A) i x :
  NoDup l → l !! i = Some x → x ∉ delete i l.
Proof.
  revert i. induction l as [|y l IH]; intros [|i]; simpl; try done.
  - intros Hnd [= ->]. by apply NoDup_cons in Hnd as [? _].
  - intros [Hn Hnd]%NoDup_cons Hl. rewrite not_elem_of_cons.
    split; [|by eapply IH]. intros ->. apply Hn.
    by eapply list_elem_of_lookup_2.
Qed.

Lemma drop_hasParent_rev parent x p :
  exclusive x → _hasParent (drop_parent parent x) p = true →
  _hasParent x p = true.
Proof.
  intros Hex. destruct (decide (p = parent)) as [->|Hne];
    [|by rewrite drop_hasParent_other].
  rewrite !hasParent_eq. unfold drop_parent.
  destruct (_singleParent x) as [q|] eqn:Hs.
  - destruct Hex as [Hex|Hex]; [congruence|]. rewrite Hex, orb_false_r.
    destruct (Nat.eqb_spec q parent) as [->|Hq]; [done|].
    rewrite Hs, Hex, orb_false_r. by intros ?%Nat.eqb_eq.
  - simpl. destruct (_parents x) as [ps|] eqn:Hps; [|by rewrite Hs, Hps].
    destruct (indexOf Nat.eqb ps parent) as [i|] eqn:Hi;
      [|by rewrite Hs, Hps].
    simpl. rewrite Hs. simpl. rewrite !existsb_elem_of.
    intros H. by eapply list_elem_of_delete_inv.
Qed.

Lemma drop_hasParent_self parent x :
  exclusive x → (∀ ps, _parents x = Some ps → NoDup ps) →
  _hasParent (drop_parent parent x) parent = false.
Proof.
  intros Hex Hnd. rewrite hasParent_eq. unfold drop_parent.
  destruct (_singleParent x) as [q|] eqn:Hs.
  - destruct Hex as [Hex|Hex]; [congruence|].
    destruct (Nat.eqb_spec q parent) as [->|Hq]; simpl.
    + by rewrite Hex.
    + rewrite Hs, Hex, orb_false_r. by apply Nat.eqb_neq.
  - destruct (_parents x) as [ps|] eqn:Hps; [|by rewrite Hs, Hps].
    specialize (Hnd ps eq_refl).
    destruct (indexOf Nat.eqb ps parent) as [i|] eqn:Hi.
    + simpl. rewrite Hs. simpl.
      apply indexOf_Some in Hi as (q & Hq & ->%Nat.eqb_eq & _).
      apply not_true_is_false. rewrite existsb_elem_of.
      by apply NoDup_delete_lookup.
    + rewrite Hs, Hps. simpl. apply indexOf_None in Hi.
      apply not_true_is_false. rewrite existsb_elem_of. intros Hin.
      apply list_elem_of_lookup in Hin as [i Hin].
      assert (parent ∈ List.filter (fun u => Nat.eqb u parent) ps) as Hf.
      { apply list_elem_of_In, List.filter_In. split.
        - apply list_elem_of_In. by eapply list_elem_of_lookup_2.
        - apply Nat.eqb_refl. }
      rewrite Hi in Hf. by apply elem_of_nil in Hf.
Qed.

Lemma drop_NoDup parent x ps :
  (∀ ps, _parents x = Some ps → NoDup ps) →
  _parents (drop_parent parent x) = Some ps → NoDup ps.
Proof.
  intros Hnd. unfold drop_parent.
  destruct (_singleParent x) as [q|]; [destruct (Nat.eqb q parent)|];
    try apply Hnd.
  destruct (_parents x) as [qs|] eqn:Hps; [|by rewrite Hps].
  destruct (indexOf Nat.eqb qs parent) as [i|].
  - simpl. intros [= <-]. eapply sublist_NoDup; [|apply sublist_delete].
    by apply Hnd.
  - rewrite Hps. intros [= <-]. by apply Hnd.
Qed.

Lemma take_NoDup parent x ps :
  exclusive x → _hasParent x parent = false →
  (∀ ps, _parents x = Some ps → NoDup ps) →
  _parents (take_parent parent x) = Some ps → NoDup ps.
Proof.
  intros Hex. rewrite hasParent_eq. unfold take_parent.
  destruct (_singleParent x) as [q|] eqn:Hs.
  - intros [Hq _]%orb_false_elim _. simpl. intros [= <-].
    apply NoDup_cons. split; [|apply NoDup_singleton].
    rewrite list_elem_of_singleton. intros ->.
    by rewrite Nat.eqb_refl in Hq.
  - simpl. destruct (_parents x) as [qs|] eqn:Hps.
    + intros Hno Hnd. simpl. intros [= <-]. apply NoDup_app.
      repeat apply conj; [by apply Hnd| |apply NoDup_singleton].
      intros q Hq ->%list_elem_of_singleton.
      apply existsb_elem_of in Hq. congruence.
    + intros _ _. simpl. by rewrite Hps.
Qed.

(** The parent fields of [k] after [remove]. *)
Lemma remove_parents s t h k :
  ∃ y,
    _singleParent y = _singleParent (h !!! k)
    ∧ _parents y = _parents (h !!! k)
    ∧ ((t = TSub k ∧ remove s t h !!! k = drop_parent s y)
       ∨ (t ≠ TSub k ∧ remove s t h !!! k = y)).
Proof.
  exists ((if decide (k = s) then splice_teardown t else id) (h !!! k)).
  repeat apply conj.
  - case_decide; [apply splice_fields|done].
  - case_decide; [apply splice_fields|done].
  - rewrite remove_lookup. destruct t as [f body|child|o body];
      try (right; by split).
    destruct (decide (k = child)) as [->|Hne]; [by left|].
    right. split; [congruence|done].
Qed.

Lemma remove_parent_fields s t h k :
  t ≠ TSub k →
  _singleParent (remove s t h !!! k) = _singleParent (h !!! k)
  ∧ _parents (remove s t h !!! k) = _parents (h !!! k).
Proof.
  intros Hne. destruct (remove_parents s t h k)
    as (y & H1 & H2 & [[? _]|[_ ->]]); done.
Qed.

Lemma remove_other_occurrences s t h c p :
  t ≠ TSub c →
  occurrences (TSub c) (teardowns_of (remove s t h) p)
  = occurrences (TSub c) (teardowns_of h p).
Proof.
  intros Hne. rewrite remove_teardowns_of.
  destruct (decide (p = s)) as [->|]; [|done].
  destruct (indexOf same_teardown (teardowns_of h s) t) as [i|] eqn:Hi;
    [|done].
  by apply (occurrences_splice_other c t).
Qed.

(** What [pass_start] leaves of the other tokens. *)
Lemma pass_start_others this h c :
  c ≠ this →
  _singleParent (pass_start this h !!! c) = _singleParent (h !!! c)
  ∧ _parents (pass_start this h !!! c) = _parents (h !!! c)
  ∧ is_closed (pass_start this h) c = is_closed h c
  ∧ ∀ p, p ≠ this →
      occurrences (TSub c) (teardowns_of (pass_start this h) p)
      = occurrences (TSub c) (teardowns_of h p).
Proof.
  intros Hne.
  set (P := fun h0 : heap =>
         _singleParent (h0 !!! c) = _singleParent (h !!! c)
         ∧ _parents (h0 !!! c) = _parents (h !!! c)
         ∧ is_closed h0 c = is_closed h c
         ∧ ∀ p, p ≠ this →
             occurrences (TSub c) (teardowns_of h0 p)
             = occurrences (TSub c) (teardowns_of h p)).
  assert (∀ f, (∀ x, _teardowns (f x) = _teardowns x) →
               P (upd this f h)) as Hupd.
  { intros f Hf. unfold P, is_closed, teardowns_of.
    rewrite upd_lookup_ne by done. repeat apply conj; try done.
    intros p Hp. by rewrite upd_lookup_ne. }
  assert (∀ f h0, P h0 → P (upd this f h0)) as Hupd2.
  { intros f h0 (H1 & H2 & H3 & H4). unfold P, is_closed, teardowns_of in *.
    rewrite upd_lookup_ne by done. repeat apply conj; try done.
    intros p Hp. rewrite upd_lookup_ne by done. by apply H4. }
  assert (∀ q h0, P h0 → P (remove q (TSub this) h0)) as Hrem.
  { intros q h0 (H1 & H2 & H3 & H4).
    assert (TSub this ≠ TSub c) as Ht by congruence.
    destruct (remove_parent_fields q (TSub this) h0 c Ht) as [E1 E2].
    unfold P. rewrite E1, E2, remove_is_closed.
    repeat apply conj; try done.
    intros p Hp. rewrite remove_other_occurrences by done. by apply H4. }
  change (P (pass_start this h)). unfold pass_start, detach_from_parents.
  rewrite upd_lookup_eq. cbn [_singleParent _parents set_closed].
  destruct (_singleParent (h !!! this)) as [q|].
  - apply Hrem, Hupd2, Hupd. done.
  - destruct (_parents (h !!! this)) as [ps|]; [|by apply Hupd].
    assert (∀ l h0, P h0 →
              P (foldl (fun h parent => remove parent (TSub this) h) h0 l))
      as Hfold.
    { induction l as [|p l IH]; intros h0 H0; simpl; [done|].
      by apply IH, Hrem. }
    apply Hfold, Hupd2, Hupd. done.
Qed.

Lemma linked_remove s t h : linked h → linked (remove s t h).
Proof.
  intros (Htree & Hnd & Hback). repeat apply conj.
  - by apply (tree_ok_remove (fun _ => True)).
  - intros c ps. destruct (remove_parents s t h c)
      as (y & H1 & H2 & [[_ ->]|[_ ->]]).
    + apply drop_NoDup. intros qs. rewrite H2. apply Hnd.
    + rewrite H2. apply Hnd.
  - intros p c. rewrite remove_is_closed. intros Hp Hpar.
    destruct (Htree c) as [Hex _]. destruct (Htree p) as [_ HK].
    destruct (remove_parents s t h c) as (y & H1 & H2 & Hy).
    assert (exclusive y) as Hexy by (unfold exclusive; by rewrite H1, H2).
    assert (_hasParent y p = _hasParent (h !!! c) p) as Hhy.
    { by rewrite !hasParent_eq, H1, H2. }
    destruct Hy as [[-> Hrec]|[Hne Hrec]]; rewrite Hrec in Hpar.
    + destruct (decide (p = s)) as [->|Hps].
      * rewrite drop_hasParent_self in Hpar; [done|done|].
        intros qs. rewrite H2. apply Hnd.
      * rewrite remove_teardowns_of, decide_False by done.
        apply Hback; [done|]. rewrite <- Hhy.
        by apply (drop_hasParent_rev s).
    + rewrite remove_other_occurrences by done.
      apply Hback; [done|]. by rewrite <- Hhy.
Qed.

Lemma linked_close this h :
  linked h → is_closed h this = false → linked (pass_start this h).
Proof.
  intros (Htree & Hnd & Hback) Hopen.
  destruct (Htree this) as [Hex _].
  destruct (pass_start_this this h Hex) as (P1 & P2 & P3 & _).
  repeat apply conj.
  - by apply tree_ok_close.
  - intros c ps. destruct (decide (c = this)) as [->|Hne].
    + by rewrite P3.
    + destruct (pass_start_others this h c Hne) as (_ & -> & _).
      apply Hnd.
  - intros p c Hp Hpar.
    assert (p ≠ this) as Hpt.
    { intros ->. by rewrite pass_start_closed in Hp. }
    destruct (pass_start_others this h p Hpt) as (_ & _ & Hcp & _).
    rewrite Hcp in Hp.
    destruct (decide (c = this)) as [->|Hne].
    + rewrite hasParent_eq, P2, P3 in Hpar. done.
    + destruct (pass_start_others this h c Hne) as (E1 & E2 & _ & Hocc).
      rewrite Hocc by done. apply Hback; [done|].
      rewrite hasParent_eq in Hpar |- *. by rewrite <- E1, <- E2.
Qed.

Lemma linked_fields this f h :
  (∀ x, closed (f x) = closed x ∧ _singleParent (f x) = _singleParent x
        ∧ _parents (f x) = _parents x) →
  (is_closed h this = false → ∀ x, _teardowns (f x) = _teardowns x) →
  tree_ok (upd this f h) → linked h → linked (upd this f h).
Proof.
  intros Hf Hts Htree' (Htree & Hnd & Hback).
  assert (∀ k, _parents (upd this f h !!! k) = _parents (h !!! k)
               ∧ _singleParent (upd this f h !!! k) = _singleParent (h !!! k)
               ∧ is_closed (upd this f h) k = is_closed h k) as Hk.
  { intros k. unfold is_closed. destruct (decide (k = this)) as [->|].
    - rewrite upd_lookup_eq. by destruct (Hf (h !!! this)) as (-> & -> & ->).
    - by rewrite upd_lookup_ne. }
  repeat apply conj; [done|..].
  - intros c ps. destruct (Hk c) as (-> & _). apply Hnd.
  - intros p c. destruct (Hk p) as (_ & _ & ->). intros Hp Hpar.
    assert (teardowns_of (upd this f h) p = teardowns_of h p) as ->.
    { unfold teardowns_of. destruct (decide (p = this)) as [->|].
      - by rewrite upd_lookup_eq, Hts.
      - by rewrite upd_lookup_ne. }
    apply Hback; [done|]. destruct (Hk c) as (E1 & E2 & _).
    rewrite hasParent_eq in Hpar |- *. by rewrite <- E1, <- E2.
Qed.

Lemma linked_release this h :
  linked h → linked (upd this (set_unsubscribe None) h).
Proof.
  intros H. apply linked_fields; try done.
  apply tree_ok_release, H.
Qed.

Lemma linked_clear this h :
  linked h → is_closed h this = true →
  linked (upd this (set_teardowns None) h).
Proof.
  intros H Hc. apply linked_fields; try done.
  - congruence.
  - by apply tree_ok_clear; [apply H|].
Qed.

Lemma linked_attach this t h :
  linked h → is_closed h this = false →
  (∀ child, t = TSub child →
     child ≠ this ∧ is_closed h child = false
     ∧ _hasParent (h !!! child) this = false) →
  linked (attach this t h).
Proof.
  intros (Htree & Hnd & Hback) Hopen Ht.
  assert (∀ k, let y := match t with
                        | TSub child =>
                            if decide (k = child) then take_parent this else id
                        | _ => id
                        end (h !!! k) in
               _singleParent (attach this t h !!! k) = _singleParent y
               ∧ _parents (attach this t h !!! k) = _parents y) as Hrec.
  { intros k. simpl. rewrite attach_lookup. by destruct (decide (k = this)). }
  repeat apply conj.
  - by apply tree_ok_attach.
  - intros c ps. destruct (Hrec c) as [_ ->].
    destruct t as [f body|child|o body]; try apply Hnd.
    destruct (decide (c = child)) as [->|]; [|apply Hnd].
    destruct (Ht child eq_refl) as (_ & _ & Hno).
    apply take_NoDup; [apply Htree|done|apply Hnd].
  - intros p c. rewrite attach_is_closed. intros Hp Hpar.
    rewrite hasParent_eq in Hpar. destruct (Hrec c) as [E1 E2].
    rewrite E1, E2, <- hasParent_eq in Hpar. clear E1 E2.
    rewrite attach_teardowns_of.
    destruct t as [f body|child|o body].
    + destruct (decide (p = this)) as [->|]; [|by apply Hback].
      rewrite occurrences_app. specialize (Hback this c Hopen Hpar). lia.
    + destruct (Ht child eq_refl) as (Hct & Hcc & Hno).
      destruct (decide (c = child)) as [->|Hne].
      * rewrite take_hasParent in Hpar by apply Htree.
        destruct (decide (p = this)) as [->|Hpt].
        -- rewrite occurrences_app. unfold occurrences at 2. simpl.
           rewrite Nat.eqb_refl. simpl. lia.
        -- apply orb_true_iff in Hpar as [Hpar|Hpar]; [by apply Hback|].
           by apply Nat.eqb_eq in Hpar.
      * destruct (decide (p = this)) as [->|]; [|by apply Hback].
        rewrite occurrences_app. specialize (Hback this c Hopen Hpar). lia.
    + destruct (decide (p = this)) as [->|]; [|by apply Hback].
      rewrite occurrences_app. specialize (Hback this c Hopen Hpar). lia.
Qed.

Lemma linked_empty : linked ∅.
Proof.
  repeat apply conj; [apply tree_ok_empty|..].
  - intros c ps. by rewrite lookup_total_empty.
  - intros p c _. by rewrite lookup_total_empty.
Qed.

(** The links stay exact in every run. *)
Lemma linked_kept n :
  (∀ c, keeps linked (exec n c)) ∧ (∀ cs, keeps linked (exec_body n cs))
  ∧ (∀ t, keeps linked (execTeardown n t))
  ∧ (∀ this ts errors, keeps linked (run_teardowns n this ts errors))
  ∧ (∀ this, keeps linked (unsubscribe n this))
  ∧ (∀ this t, keeps linked (add n this t)).
Proof.
  apply runs_keep.
  - intros. by apply linked_remove.
  - apply linked_close.
  - intros. by apply linked_release.
  - apply linked_clear.
  - apply linked_attach.
Qed.

(** ** Disposed tokens hold nothing *)

Lemma splice_ctor t x :
  _ctorUnsubscribe (splice_teardown t x) = _ctorUnsubscribe x.
Proof. unfold splice_teardown. by repeat case_match. Qed.

Lemma drop_ctor parent x :
  _ctorUnsubscribe (drop_parent parent x) = _ctorUnsubscribe x.
Proof. unfold drop_parent. by repeat case_match. Qed.

Lemma take_ctor parent x :
  _ctorUnsubscribe (take_parent parent x) = _ctorUnsubscribe x.
Proof. unfold take_parent. by repeat case_match. Qed.

Lemma rest_ok_splice P t x : rest_ok P x → rest_ok P (splice_teardown t x).
Proof.
  intros (Hex & Hct & Hcl).
  destruct (splice_fields t x) as (E1 & E2 & E3 & E4).
  pose proof (splice_ctor t x) as E5.
  unfold rest_ok, exclusive, ctor_ok, retired.
  rewrite E1, E2, E3, E4, E5. split; [done|split; [done|]].
  intros Hc. destruct (Hcl Hc) as [Hr Hts]. split; [done|].
  intros HP. by rewrite splice_teardown_none; apply Hts.
Qed.

Lemma rest_ok_drop P parent x : rest_ok P x → rest_ok P (drop_parent parent x).
Proof.
  intros (Hex & Hct & Hcl).
  destruct (drop_fields parent x) as (E1 & E2 & E3).
  pose proof (drop_ctor parent x) as E5.
  repeat apply conj.
  - by apply drop_exclusive.
  - unfold ctor_ok. by rewrite E3, E5.
  - rewrite E1. intros Hc. destruct (Hcl Hc) as [(H1 & H2 & H3 & H4) Hts].
    by rewrite drop_parent_none.
Qed.

Lemma rest_ok_take P parent x :
  closed x = false → rest_ok P x → rest_ok P (take_parent parent x).
Proof.
  intros Hopen (Hex & Hct & Hcl).
  destruct (take_fields parent x) as (E1 & E2 & E3).
  pose proof (take_ctor parent x) as E5.
  repeat apply conj.
  - apply take_exclusive.
  - unfold ctor_ok. by rewrite E3, E5.
  - rewrite E1. congruence.
Qed.

Lemma rest_ok_remove P s t h k :
  rest_ok P (h !!! k) → rest_ok P (remove s t h !!! k).
Proof.
  intros H. rewrite remove_lookup.
  assert (rest_ok P
            ((if decide (k = s) then splice_teardown t else id) (h !!! k)))
    as H1.
  { case_decide; [by apply rest_ok_splice|done]. }
  destruct t as [| child |]; try done.
  destruct (decide (k = child)); [|done]. by apply rest_ok_drop.
Qed.

Lemma rest_ok_weaken (P Q : Prop) x : (¬ Q → ¬ P) → rest_ok P x → rest_ok Q x.
Proof.
  intros HPQ (Hex & Hct & Hcl). repeat apply conj; try done.
  intros Hc. destruct (Hcl Hc) as [Hr Hts]. split; [done|].
  intros HQ. by apply Hts, HPQ.
Qed.

Lemma at_rest_remove X s t h : at_rest_but X h → at_rest_but X (remove s t h).
Proof. intros H k. by apply rest_ok_remove. Qed.

Lemma at_rest_attach X this t h :
  at_rest_but X h → is_closed h this = false →
  (∀ child, t = TSub child →
     child ≠ this ∧ is_closed h child = false
     ∧ _hasParent (h !!! child) this = false) →
  at_rest_but X (attach this t h).
Proof.
  intros H Hopen Ht k. rewrite attach_lookup. unfold is_closed in *.
  set (y := match t with
            | TSub child => if decide (k = child) then take_parent this else id
            | _ => id
            end (h !!! k)).
  assert (rest_ok (X k) y ∧ closed y = closed (h !!! k)) as [Hy Hcy].
  { unfold y. destruct t as [| child |]; try (split; [apply H|done]).
    destruct (decide (k = child)) as [->|]; [|split; [apply H|done]].
    destruct (Ht child eq_refl) as (_ & Hc & _). split.
    - by apply rest_ok_take.
    - apply take_fields. }
  destruct (decide (k = this)) as [->|]; [|done].
  destruct Hy as (Hex & Hct & Hcl). repeat apply conj; try done.
  simpl. congruence.
Qed.

Lemma at_rest_enter X this h :
  at_rest_but X h → is_closed h this = false →
  at_rest_but (plus X this) (release_null this (pass_start this h)).
Proof.
  intros H Hopen.
  assert (∀ k, k ≠ this → rest_ok (X k) (pass_start this h !!! k)) as Hothers.
  { intros k Hk.
    assert (∀ h0, rest_ok (X k) (h0 !!! k) →
                  rest_ok (X k) (detach_from_parents this h0 !!! k)) as Hd.
    { intros h0 H0. unfold detach_from_parents.
      destruct (_singleParent (h0 !!! this)) as [q|].
      - apply rest_ok_remove. by rewrite upd_lookup_ne.
      - destruct (_parents (h0 !!! this)) as [ps|]; [|done].
        assert (∀ l h1, rest_ok (X k) (h1 !!! k) →
                  rest_ok (X k)
                    (foldl (fun h parent => remove parent (TSub this) h) h1 l
                       !!! k)) as Hfold.
        { induction l as [|p l IH]; intros h1 H1; simpl; [done|].
          apply IH. exact (rest_ok_remove (X k) p (TSub this) h1 k H1). }
        apply Hfold. by rewrite upd_lookup_ne. }
    unfold pass_start. apply Hd. rewrite upd_lookup_ne by done. apply H. }
  destruct (H this) as (Hex & Hct & _).
  destruct (pass_start_this this h Hex) as (P1 & P2 & P3 & P4 & P5).
  intros k. destruct (decide (k = this)) as [->|Hk].
  - assert (∀ x, closed x = true → _singleParent x = None →
                 _parents x = None → _unsubscribe x = None →
                 rest_ok (plus X this this) x) as Hthis.
    { intros x H1 H2 H3 H4. split; [by left|split; [by left|]].
      intros _. split; [done|]. intros Hno. exfalso. apply Hno. by right. }
    unfold release_null.
    destruct (_unsubscribe (pass_start this h !!! this)) as [body|] eqn:Hu.
    + destruct Hct as [Hn|Hctor]; [congruence|].
      rewrite P5, Hctor, upd_lookup_eq. by apply Hthis.
    + by apply Hthis.
  - assert (release_null this (pass_start this h) !!! k
            = pass_start this h !!! k) as ->.
    { unfold release_null.
      destruct (_unsubscribe _); [destruct (_ctorUnsubscribe _)|];
        by rewrite ?upd_lookup_ne. }
    eapply rest_ok_weaken; [|by apply Hothers]. intros Hno HX.
    apply Hno. by left.
Qed.

Lemma at_rest_leave X this h :
  at_rest_but (plus X this) h → is_closed h this = true →
  at_rest_but X (upd this (set_teardowns None) h).
Proof.
  intros H Hc k. destruct (decide (k = this)) as [->|Hk].
  - rewrite upd_lookup_eq. destruct (H this) as (Hex & Hct & Hcl).
    destruct (Hcl Hc) as [Hr _]. repeat apply conj; try done.
  - rewrite upd_lookup_ne by done. eapply rest_ok_weaken; [|apply H].
    intros Hno [HX|]; [by apply Hno|done].
Qed.

(** A store at rest is at rest after every run. *)
Lemma at_rest_kept n X :
  (∀ c, keeps (at_rest_but X) (exec n c))
  ∧ (∀ cs, keeps (at_rest_but X) (exec_body n cs))
  ∧ (∀ t, keeps (at_rest_but X) (execTeardown n t))
  ∧ (∀ this ts errors, keeps (at_rest_but X) (run_teardowns n this ts errors))
  ∧ (∀ this, keeps (at_rest_but X) (unsubscribe n this))
  ∧ (∀ this t, keeps (at_rest_but X) (add n this t)).
Proof.
  apply (runs_keep_family at_rest_but).
  - apply at_rest_remove.
  - apply at_rest_attach.
  - apply at_rest_enter.
  - apply at_rest_leave.
Qed.

Lemma family_at_rest : at_rest family.
Proof.
  intros s. unfold family.
  assert (∀ x, closed x = false → _parents x = None →
               (_unsubscribe x = None ∨ _ctorUnsubscribe x = true) →
               rest_ok False x) as Hopen.
  { intros x H1 H2 H3. split; [by right|split; [done|congruence]]. }
  destruct (decide (s = 0)) as [->|H0];
    [apply Hopen; [done..|by right]|].
  destruct (decide (s = 1)) as [->|H1];
    [apply Hopen; [done..|by left]|].
  destruct (decide (s = 2)) as [->|H2];
    [apply Hopen; [done..|by left]|].
  rewrite !lookup_total_insert_ne, lookup_total_singleton_ne by done.
  apply Hopen; [done..|by left].
Qed.

(** ** Adapters *)

Lemma call_sink_inv n sink hist type payload subs h r h' tr :
  call_sink n sink hist type payload subs h = Some (r, h', tr) →
  ∃ tr',
    exec_body n (sink hist type payload subs) h = Some (r, h', tr')
    ∧ tr = EvMsg type payload :: tr'
    ∧ messages tr = [EvMsg type payload].
Proof.
  unfold call_sink. intros (tr' & H & ->)%bind_emit_inv. exists tr'.
  repeat apply conj; try done. unfold messages. simpl. fold (messages tr').
  by rewrite (exec_body_quiet _ _ _ _ _ _ H).
Qed.

Lemma call_sink_calm n sink hist type payload subs h r h' tr :
  calm sink →
  call_sink n sink hist type payload subs h = Some (r, h', tr) →
  r = Returned tt ∧ messages tr = [EvMsg type payload].
Proof.
  intros Hcalm (tr' & H & _ & Hm)%call_sink_inv. split; [|done].
  by eapply Hcalm.
Qed.

Lemma call_sink_inert n sink hist type payload subs h r h' tr :
  inert sink →
  call_sink n sink hist type payload subs h = Some (r, h', tr) → h' = h.
Proof.
  intros Hin (tr' & H & _)%call_sink_inv. by destruct (Hin _ _ _ _ _ _ _ _ _ H).
Qed.

Lemma inert_calm sink : inert sink → calm sink.
Proof.
  intros Hin hist type payload subs n h r h' tr H.
  by destruct (Hin _ _ _ _ _ _ _ _ _ H).
Qed.

Lemma silent_inert : inert silent.
Proof.
  intros hist type payload subs [|n] h r h' tr; [done|].
  unfold silent. rewrite exec_body_S. by intros [= <- <- <-].
Qed.

Lemma dispose_quietly_calm : calm dispose_quietly.
Proof.
  intros hist type payload subs [|[|n]] h r h' tr; try done.
  unfold dispose_quietly. rewrite exec_body_S. cbn [exec exec_cmd].
  intros [(e & H & ->)|(a & h1 & tr1 & tr2 & H & H' & ->)]%bind_inv.
  - apply bind_try_inv in H as (r0 & h2 & tr1 & tr2 & _ & H & _).
    by injection H.
  - destruct n as [|n]; [done|]. rewrite exec_body_S in H'.
    by injection H' as <- <- <-.
Qed.

Lemma getNextValue_delivers sink subs :
  calm sink →
  ∀ steps n hist h r h' tr,
    getNextValue n steps sink subs hist h = Some (r, h', tr) →
    r = Returned tt ∧ messages tr = deliveries (delivered steps).
Proof.
  intros Hcalm. induction steps as [|[env step] steps IH];
    intros n hist h r h' tr; cbn [getNextValue delivered].
  { by intros [= <- <- <-]. }
  intros (r0 & h1 & tr1 & tr2 & Henv & H & ->)%bind_try_inv.
  rewrite messages_app, (exec_body_quiet _ _ _ _ _ _ Henv). simpl.
  destruct step as [v| |err].
  - apply bind_inv in H as
      [(e & H & ->)|([] & h2 & tr3 & tr4 & H1 & H2 & ->)].
    + by destruct (call_sink_calm _ _ _ _ _ _ _ _ _ _ Hcalm H).
    + destruct (call_sink_calm _ _ _ _ _ _ _ _ _ _ Hcalm H1) as [_ Hm].
      destruct (IH _ _ _ _ _ _ H2) as [-> Hm2].
      by rewrite messages_app, Hm, Hm2.
  - by apply (call_sink_calm _ _ _ _ _ _ _ _ _ _ Hcalm H).
  - by apply (call_sink_calm _ _ _ _ _ _ _ _ _ _ Hcalm H).
Qed.

Lemma forward_delivers sink subs :
  calm sink →
  ∀ emits n hist h r h' tr,
    forward n emits sink subs hist h = Some (r, h', tr) →
    r = Returned tt ∧ messages tr = deliveries emits.
Proof.
  intros Hcalm. induction emits as [|[type payload] emits IH];
    intros n hist h r h' tr; cbn [forward].
  { by intros [= <- <- <-]. }
  intros [(e & H & ->)|([] & h2 & tr3 & tr4 & H1 & H2 & ->)]%bind_inv.
  - by destruct (call_sink_calm _ _ _ _ _ _ _ _ _ _ Hcalm H).
  - destruct (call_sink_calm _ _ _ _ _ _ _ _ _ _ Hcalm H1) as [_ Hm].
    destruct (IH _ _ _ _ _ _ H2) as [-> Hm2].
    by rewrite messages_app, Hm, Hm2.
Qed.

Lemma forward_inert sink subs :
  inert sink →
  ∀ emits n hist h r h' tr,
    forward n emits sink subs hist h = Some (r, h', tr) → h' = h.
Proof.
  intros Hin. induction emits as [|[type payload] emits IH];
    intros n hist h r h' tr; cbn [forward].
  { by intros [= <- <- <-]. }
  intros [(e & H & ->)|([] & h2 & tr3 & tr4 & H1 & H2 & ->)]%bind_inv.
  - by eapply call_sink_inert.
  - apply (call_sink_inert _ _ _ _ _ _ _ _ _ _ Hin) in H1 as ->.
    by eapply IH.
Qed.

Lemma forward_halts emits sink subs hist h :
  ∃ n0 r h' tr,
    ∀ n, n0 ≤ n → forward n emits sink subs hist h = Some (r, h', tr).
Proof.
  revert hist h. induction emits as [|[type payload] emits IH];
    intros hist h.
  { by exists 0, (Returned tt), h, []. }
  destruct (call_sink_halts sink hist type payload subs h)
    as (n1 & r1 & h1 & tr1 & H1 & _).
  destruct r1 as [[]|e].
  - destruct (IH (hist ++ [(type, payload)]) h1) as (n2 & r2 & h2 & tr2 & H2).
    exists (n1 `max` n2), r2, h2, ((EvMsg type payload :: tr1) ++ tr2).
    intros n Hn. cbn [forward].
    eapply bind_returned; [apply H1|apply H2]; lia.
  - exists n1, (Thrown e), h1, (EvMsg type payload :: tr1).
    intros n Hn. cbn [forward]. by apply bind_thrown, H1.
Qed.

(** [subs.add(() => ...)] while [subscription] is still undefined. *)
Lemma add_empty_function n subs f h r h1 tr :
  add n subs (Some (TFun f [])) h = Some (r, h1, tr) →
  r = Returned tt ∧ messages tr = []
  ∧ h1 = (if is_closed h subs then h else attach subs (TFun f []) h)
  ∧ (is_closed h subs = false → tr = []).
Proof.
  destruct n as [|n]; [done|]. cbn [add add_body same_teardown].
  rewrite bind_read. unfold is_closed. destruct (closed (h !!! subs)).
  - intros (tr' & H & ->)%bind_emit_inv. destruct n as [|n]; [done|].
    cbn [execTeardown execTeardown_body] in H.
    destruct n as [|n]; [done|]. rewrite exec_body_S in H.
    by injection H as <- <- <-.
  - by intros [= <- <- <-].
Qed.

Lemma assign_fresh f body ts :
  occurrences (TFun f []) ts = 0 →
  (fun t => match t with
            | TFun g b => if Nat.eqb g f then TFun g body else t
            | _ => t
            end) <$> ts = ts.
Proof.
  unfold occurrences. induction ts as [|u ts IH]; [done|].
  rewrite fmap_cons. simpl.
  destruct u as [g b| |]; simpl; try (intros H; by rewrite IH).
  destruct (Nat.eqb g f); [done|]. intros H. by rewrite IH.
Qed.






Lemma iterate_endless iterable sink subs :
  passive sink subs → (∀ i, iterable i ≠ None) →
  ∀ k i hist h,
    is_closed h subs = false →
    ∃ n0 h' tr,
      (∀ n, n0 ≤ n →
         iterate k n iterable sink subs i hist h
         = Some (Returned Running, h', tr))
      ∧ messages tr = map (EvMsg NEXT) (omap iterable (seq i k))
      ∧ is_closed h' subs = false.
Proof.
  intros Hpassive Hendless. induction k as [|k IH]; intros i hist h Hc.
  { by exists 0, h, []. }
  destruct (iterable i) as [v|] eqn:Hi; [|by destruct (Hendless i)].
  destruct (call_sink_halts sink hist NEXT v subs h)
    as (n1 & r1 & h1 & tr1 & H1 & Hok1 & Hb1).
  destruct (Hpassive _ _ _ _ _ _ _ _ Hb1) as (-> & Hc1).
  destruct (IH (S i) (hist ++ [(NEXT, v)]) h1 (Hc1 Hc))
    as (n2 & h2 & tr2 & H2 & Hm2 & Hc2).
  exists (n1 `max` n2), h2, (EvPull i :: (EvMsg NEXT v :: tr1) ++ tr2).
  split; [|split; [|done]].
  - intros n Hn. cbn [iterate]. unfold is_closed in Hc.
    rewrite bind_read, Hc. apply bind_emit. rewrite Hi.
    eapply bind_returned; [apply H1|apply H2]; lia.
  - unfold messages. simpl. fold (messages (tr1 ++ tr2)).
    rewrite messages_app, Hm2.
    rewrite (adapter_events_messages _ (ok_msgs _ _ _ _ Hok1)).
    by rewrite Hi.
Qed.

(** What [dispose_quietly] does is one [unsubscribe]. *)
Lemma dispose_quietly_inv n hist type payload subs h r h' tr :
  exec_body n (dispose_quietly hist type payload subs) h = Some (r, h', tr) →
  ∃ m r0, unsubscribe m subs h = Some (r0, h', tr).
Proof.
  destruct n as [|[|n]]; try done.
  unfold dispose_quietly. rewrite exec_body_S. cbn [exec exec_cmd].
  intros [(e & H & ->)|(a & h1 & tr1 & tr2 & H & H' & ->)]%bind_inv.
  - apply bind_try_inv in H as (r0 & h2 & tr1 & tr2 & _ & H & _).
    by injection H.
  - apply bind_try_inv in H as (r0 & h2 & tr3 & tr4 & Hu & H & ->).
    injection H as <- <- <-.
    destruct n as [|n]; [done|]. rewrite exec_body_S in H'.
    injection H' as <- <- <-. rewrite !app_nil_r.
    apply exec_body_unsubscribe in Hu as (m & Hu). by exists m, r0.
Qed.

(** Forwarding to a closed token runs no pass of it and stores nothing in
    it. *)
Lemma forward_closed sink subs :
  ∀ emits n hist h r h' tr,
    forward n emits sink subs hist h = Some (r, h', tr) →
    is_closed h subs = true →
    own_events subs tr = [] ∧ is_closed h' subs = true
    ∧ teardowns_of h' subs `sublist_of` teardowns_of h subs.
Proof.
  induction emits as [|[type payload] emits IH];
    intros n hist h r h' tr; cbn [forward].
  { by intros [= <- <- <-]. }
  assert (∀ r1 h1 tr1,
    call_sink n sink hist type payload subs h = Some (r1, h1, tr1) →
    is_closed h subs = true →
    own_events subs tr1 = [] ∧ is_closed h1 subs = true
    ∧ teardowns_of h1 subs `sublist_of` teardowns_of h subs) as Hone.
  { intros r1 h1 tr1 (tr' & H & -> & _)%call_sink_inv Hc.
    pose proof (exec_body_sound _ _ _ _ _ _ H) as Hok.
    repeat apply conj.
    - unfold own_events. simpl. by apply (ok_own _ _ _ _ Hok).
    - by eapply step_ok_mono.
    - by apply (ok_stored _ _ _ _ Hok). }
  intros [(e & H & ->)|([] & h2 & tr3 & tr4 & H1 & H2 & ->)]%bind_inv Hc.
  - by apply (Hone _ _ _ H).
  - destruct (Hone _ _ _ H1 Hc) as (Ho1 & Hc1 & Hs1).
    destruct (IH _ _ _ _ _ _ H2 Hc1) as (Ho2 & Hc2 & Hs2).
    repeat apply conj; [|done|by etrans].
    by rewrite own_events_app, Ho1, Ho2.
Qed.

Lemma assign_subscription_lookup subs f handle h :
  is_closed (assign_subscription subs f handle h) subs = is_closed h subs
  ∧ (teardowns_of h subs = [] →
     teardowns_of (assign_subscription subs f handle h) subs = []).
Proof.
  unfold assign_subscription, is_closed, teardowns_of.
  destruct (_teardowns (h !!! subs)) as [ts|] eqn:E; [|by rewrite E].
  rewrite upd_lookup_eq. simpl. split; [done|]. by intros ->.
Qed.

Lemma shared_child_linked : linked shared_child.
Proof.
  destruct (linked_kept 9) as (_ & H & _).
  exact (H _ _ _ _ _ linked_empty shared_child_built).
Qed.

(** [add] of a child that is closed, or that the token already has. *)
Lemma add_child_noop n this child h :
  is_closed h this = false → child ≠ this →
  is_closed h child = true ∨ _hasParent (h !!! child) this = true →
  add (S n) this (Some (TSub child)) h = Some (Returned tt, h, []).
Proof.
  intros Ho Hne Hg. cbn [add add_body same_teardown].
  apply Nat.eqb_neq in Hne as ->. unfold is_closed in *.
  rewrite bind_read, Ho, bind_read.
  destruct Hg as [->| ->]; [done|]. by rewrite orb_true_r.
Qed.

(** * Further properties of the code *)

(** ** The parent/child tree *)

(** X1 (add, remove, _addParent, _removeParent, unsubscribe): the links
    between tokens stay exact whatever a program does, re-entrant calls
    from callbacks included.  In a store with exact links no token uses
    [_singleParent] and [_parents] together or lists a parent twice; each
    child token an open token holds is open, is held once, and lists that
    token among its parents; and an open token holds every token that
    lists it as a parent.  The store of fresh tokens has exact links. *)
Theorem links_stay_exact cs h :
  linked h →
  ∀ n r h' tr, exec_body n cs h = Some (r, h', tr) → linked h'.
Proof.
  intros H n r h' tr Hrun. destruct (linked_kept n) as (_ & Hb & _).
  by apply (Hb cs h r h' tr).
Qed.

Lemma links_stay_exact_witness :
  linked ∅
  ∧ ∃ r h' tr,
      exec_body 12 (build_shared_child ++ [CUnsubscribe 2; CRemove 0 (TFun 5 [])])
        ∅ = Some (r, h', tr)
      ∧ linked h'.
Proof.
  split; [apply linked_empty|].
  eexists _, _, _. split; [vm_compute; reflexivity|].
  eapply (links_stay_exact
           (build_shared_child ++ [CUnsubscribe 2; CRemove 0 (TFun 5 [])])
           ∅ linked_empty 12 _ _ _).
  vm_compute. reflexivity.
Defined.

(** X2 (unsubscribe, remove): in a consistent store, once [unsubscribe]
    of a token has ended no open token holds that token any more, however
    many parents it had and whatever its callbacks did. *)
Theorem disposed_token_leaves_parents this h :
  tree_ok h →
  ∀ n r h' tr,
    unsubscribe n this h = Some (r, h', tr) →
    is_closed h' this = true
    ∧ ∀ p, is_closed h' p = false → TSub this ∉ teardowns_of h' p.
Proof.
  intros H n r h' tr Hrun.
  assert (tree_ok h') as H'.
  { destruct (tree_ok_kept n) as (_ & _ & _ & _ & Hu & _). by eapply Hu. }
  pose proof (unsubscribe_closes _ _ _ _ _ _ Hrun) as Hc.
  split; [done|]. intros p Hp. apply occurrences_TSub.
  destruct (H' p) as [_ HK].
  destruct (decide (occurrences (TSub this) (teardowns_of h' p) = 0))
    as [|Hocc]; [done|].
  destruct (HK Hp this I Hocc) as (Hopen & _). congruence.
Qed.

Lemma disposed_token_leaves_parents_witness :
  tree_ok shared_child
  ∧ ∃ r h' tr,
      unsubscribe 9 2 shared_child = Some (r, h', tr)
      ∧ is_closed h' 2 = true
      ∧ ∀ p, is_closed h' p = false → TSub 2 ∉ teardowns_of h' p.
Proof.
  split; [apply shared_child_tree_ok|].
  eexists _, _, _. split; [vm_compute; reflexivity|].
  eapply (disposed_token_leaves_parents 2 shared_child shared_child_tree_ok
           9 _ _ _).
  vm_compute. reflexivity.
Defined.

(** ** Disposed tokens *)

(** X3 (unsubscribe): a token whose release action was given to the
    constructor (or that has none) holds nothing once its [unsubscribe]
    has ended: it is closed, both parent fields, the teardown list and
    the release action are null, whatever the callbacks did. *)
Theorem unsubscribe_releases_references this h :
  is_closed h this = false →
  exclusive (h !!! this) →
  (_unsubscribe (h !!! this) = None ∨ _ctorUnsubscribe (h !!! this) = true) →
  ∀ n r h' tr, unsubscribe n this h = Some (r, h', tr) → spent (h' !!! this).
Proof.
  intros Hopen Hex Hctor n r h' tr Hrun.
  destruct (unsubscribe_open _ _ _ _ _ _ Hopen Hrun)
    as (r0 & h1 & tr1 & rs & tr2 & Hrel & Hpass & _ & _).
  fold (pass_start this h) in Hrel.
  destruct (pass_start_this this h Hex) as (P1 & P2 & P3 & P4 & P5).
  assert (retired (h1 !!! this)) as Hret.
  { inversion Hrel as [Hu|m body r' h1' tr' Hu Hb]; subst.
    - unfold retired. by rewrite P1, P2, P3.
    - assert (_ctorUnsubscribe (pass_start this h !!! this) = true) as Hc.
      { rewrite P5. destruct Hctor as [Hn|]; [|done]. congruence. }
      rewrite Hc in Hb. destruct (retired_stays this m) as [Hk _].
      eapply Hk; [|exact Hb]. rewrite upd_lookup_eq.
      unfold retired. by rewrite <- P1, <- P2, <- P3. }
  assert (spent (upd this (set_teardowns None) h1 !!! this)) as Hsp.
  { rewrite upd_lookup_eq. split; [|done]. by destruct Hret as (?&?&?&?). }
  assert (∀ ts h2 rs h4 tr, pass this ts h2 rs h4 tr →
            spent (h2 !!! this) → spent (h4 !!! this)) as Hgen.
  { clear. induction 1 as [h2|m t ts h2 r h3 tr1 rs h4 tr2 Ht Hp IH];
      intros Hsp; [done|].
    apply IH.
    destruct (spent_stays this (h2 !!! this) m Hsp) as (_ & _ & Hk & _).
    by rewrite (Hk t h2 r h3 tr1 eq_refl Ht). }
  by eapply Hgen.
Qed.

Lemma unsubscribe_releases_references_witness :
  is_closed family 0 = false
  ∧ ∃ r h' tr,
      unsubscribe 12 0 family = Some (r, h', tr) ∧ spent (h' !!! 0).
Proof.
  split; [reflexivity|].
  eexists _, _, _. split; [vm_compute; reflexivity|].
  eapply (unsubscribe_releases_references 0 family eq_refl
            (or_introl eq_refl) (or_intror eq_refl) 12).
  vm_compute. reflexivity.
Defined.

(** X4 (add, remove, unsubscribe, _addParent, _removeParent): a token that
    is closed and holds nothing is never written again: after any
    program its record is the same. *)
Theorem spent_token_is_frozen s h :
  spent (h !!! s) →
  ∀ n cs r h' tr,
    exec_body n cs h = Some (r, h', tr) → h' !!! s = h !!! s.
Proof.
  intros Hs n cs r h' tr Hrun.
  destruct (spent_stays s (h !!! s) n Hs) as (_ & Hk & _).
  by apply (Hk cs h r h' tr).
Qed.

Lemma spent_token_is_frozen_witness :
  spent (with_EMPTY !!! 0)
  ∧ ∃ r h' tr,
      exec_body 9 [CAdd 0 (Some (TFun 1 [CLog 1])); CAdd 1 (Some (TSub 0));
                   CUnsubscribe 0; CRemove 0 (TFun 1 [])] with_EMPTY
      = Some (r, h', tr)
      ∧ h' !!! 0 = with_EMPTY !!! 0.
Proof.
  assert (spent (with_EMPTY !!! 0)) as Hs by (by vm_compute).
  split; [exact Hs|].
  eexists _, _, _. split; [vm_compute; reflexivity|].
  eapply (spent_token_is_frozen 0 with_EMPTY Hs 9
            [CAdd 0 (Some (TFun 1 [CLog 1])); CAdd 1 (Some (TSub 0));
             CUnsubscribe 0; CRemove 0 (TFun 1 [])]).
  vm_compute. reflexivity.
Defined.

(** X5 (constructor, unsubscribe, add, remove): no disposed token keeps
    a reference.  Call a store at rest when in every token the two parent
    fields are not used together, a release action is the one given to
    the constructor, and a closed token has no parent, no teardown list
    and no release action.  A store at rest is at rest again after any
    program, whatever the callbacks do (dispose other tokens, re-enter,
    throw): every token that is closed afterwards holds nothing. *)
Theorem disposed_tokens_hold_nothing cs h :
  at_rest h →
  ∀ n r h' tr,
    exec_body n cs h = Some (r, h', tr) →
    at_rest h' ∧ ∀ s, is_closed h' s = true → spent (h' !!! s).
Proof.
  intros H n r h' tr Hrun.
  destruct (at_rest_kept n (fun _ => False)) as (_ & Hb & _).
  pose proof (Hb cs h r h' tr H Hrun) as H'. split; [exact H'|].
  intros s Hs. destruct (H' s) as (_ & _ & Hcl).
  destruct (Hcl Hs) as [Hr Hts]. split; [done|]. apply Hts. tauto.
Qed.

Lemma disposed_tokens_hold_nothing_witness :
  at_rest family
  ∧ ∃ r h' tr,
      exec_body 20 [CAdd 2 (Some (TFun 3 [CThrow (VNum 1)])); CUnsubscribe 0]
        family = Some (r, h', tr)
      ∧ at_rest h' ∧ ∀ s, is_closed h' s = true → spent (h' !!! s).
Proof.
  split; [apply family_at_rest|].
  eexists _, _, _. split; [vm_compute; reflexivity|].
  eapply (disposed_tokens_hold_nothing
            [CAdd 2 (Some (TFun 3 [CThrow (VNum 1)])); CUnsubscribe 0]
            family family_at_rest 20).
  vm_compute. reflexivity.
Defined.

(** ** [add] and [remove] on one token *)

(** X6 (remove, _removeParent): [remove] takes the first occurrence of
    the teardown out of the token's list and nothing else: a teardown that
    is not held, or a token without a list, leaves every list as it was;
    no closed flag and no release action changes; parents change only in
    the child that is removed, and there only the entry of this token. *)
Theorem remove_takes_first_occurrence this t h :
  (∀ k, teardowns_of (remove this t h) k
        = if decide (k = this) then remove_first t (teardowns_of h this)
          else teardowns_of h k)
  ∧ (occurrences t (teardowns_of h this) = 0 →
     ∀ k, teardowns_of (remove this t h) k = teardowns_of h k)
  ∧ (∀ k, is_closed (remove this t h) k = is_closed h k)
  ∧ (∀ k, _unsubscribe (remove this t h !!! k) = _unsubscribe (h !!! k))
  ∧ (∀ k p, t ≠ TSub k →
       _hasParent (remove this t h !!! k) p = _hasParent (h !!! k) p)
  ∧ (∀ child p, t = TSub child → exclusive (h !!! child) → p ≠ this →
       _hasParent (remove this t h !!! child) p = _hasParent (h !!! child) p).
Proof.
  assert (∀ k, teardowns_of (remove this t h) k
        = if decide (k = this) then remove_first t (teardowns_of h this)
          else teardowns_of h k) as Hts.
  { intros k. rewrite remove_teardowns_of. case_decide; [|done].
    apply splice_remove_first. }
  assert (∀ k, let y := (if decide (k = this) then splice_teardown t else id)
                          (h !!! k) in
               _singleParent y = _singleParent (h !!! k)
               ∧ _parents y = _parents (h !!! k)
               ∧ _unsubscribe y = _unsubscribe (h !!! k)) as Hy.
  { intros k. simpl. case_decide; [|done].
    by destruct (splice_fields t (h !!! k)) as (_ & -> & -> & ->). }
  repeat apply conj.
  - exact Hts.
  - intros H0 k. rewrite Hts. case_decide as Hk; [subst k|done].
    rewrite <- splice_remove_first.
    destruct (indexOf same_teardown (teardowns_of h this) t) as [i|] eqn:Hi;
      [|done].
    pose proof (occurrences_splice _ _ _ Hi). lia.
  - apply remove_is_closed.
  - intros k. rewrite remove_lookup. destruct (Hy k) as (_ & _ & <-).
    destruct t as [| child |]; try done.
    destruct (decide (k = child)); [|done]. apply drop_fields.
  - intros k p Hne. rewrite remove_lookup.
    destruct (Hy k) as (H1 & H2 & _).
    assert (∀ y, _singleParent y = _singleParent (h !!! k) →
                 _parents y = _parents (h !!! k) →
                 _hasParent y p = _hasParent (h !!! k) p) as Hsame.
    { intros y E1 E2. by rewrite !hasParent_eq, E1, E2. }
    destruct t as [| child |]; try by apply Hsame.
    destruct (decide (k = child)) as [->|]; [done|]. by apply Hsame.
  - intros child p -> Hex Hne. rewrite remove_lookup.
    rewrite decide_True by done. destruct (Hy child) as (H1 & H2 & _).
    rewrite drop_hasParent_other; [|unfold exclusive; by rewrite H1, H2|done].
    by rewrite !hasParent_eq, H1, H2.
Qed.

(** X7 (add, remove, _addParent, _removeParent): adding a teardown that an
    open token does not hold yet appends it to the token's list, and
    removing it again restores every list, every closed flag and every
    parent relation. *)
Theorem add_then_remove this t h n :
  is_closed h this = false →
  occurrences t (teardowns_of h this) = 0 →
  (∀ child, t = TSub child →
     child ≠ this ∧ is_closed h child = false
     ∧ _hasParent (h !!! child) this = false ∧ exclusive (h !!! child)) →
  ∃ h1,
    add (S n) this (Some t) h = Some (Returned tt, h1, [])
    ∧ teardowns_of h1 this = teardowns_of h this ++ [t]
    ∧ (∀ child, t = TSub child → _hasParent (h1 !!! child) this = true)
    ∧ (∀ k, teardowns_of (remove this t h1) k = teardowns_of h k)
    ∧ (∀ k, is_closed (remove this t h1) k = is_closed h k)
    ∧ (∀ k p, _hasParent (remove this t h1 !!! k) p = _hasParent (h !!! k) p).
Proof.
  intros Hopen Hfresh Ht. exists (attach this t h).
  assert (∀ child, t = TSub child → child ≠ this) as Hne.
  { intros child E. by destruct (Ht child E). }
  repeat apply conj.
  - apply add_open; [done|]. intros child E.
    by destruct (Ht child E) as (? & ? & ? & _).
  - by rewrite attach_teardowns_of, decide_True.
  - intros child ->. destruct (Ht child eq_refl) as (Hc & _ & _ & Hex).
    rewrite attach_lookup, decide_False, decide_True by done. simpl.
    by rewrite take_hasParent, Nat.eqb_refl, orb_true_r.
  - intros k. rewrite remove_teardowns_of, !attach_teardowns_of.
    rewrite (decide_True (P := this = this)) by done.
    rewrite splice_remove_first.
    destruct (decide (k = this)) as [->|]; [|done].
    by apply remove_first_fresh.
  - intros k. by rewrite remove_is_closed, attach_is_closed.
  - intros k p. rewrite remove_lookup, attach_lookup.
    set (push := fun x =>
           set_teardowns (Some (default [] (_teardowns x) ++ [t])) x).
    assert (∀ y, _hasParent
              ((if decide (k = this) then splice_teardown t else id)
                 ((if decide (k = this) then push else id) y)) p
            = _hasParent y p) as Hframe.
    { intros y. rewrite !hasParent_eq. destruct (decide (k = this)); [|done].
      by destruct (splice_fields t (push y)) as (_ & -> & -> & _). }
    destruct t as [f body|child|o body]; try apply Hframe.
    destruct (Ht child eq_refl) as (Hc & _ & Hno & Hex).
    destruct (decide (k = child)) as [->|]; [|apply Hframe].
    rewrite !(decide_False (P := child = this)) by done. simpl.
    by apply drop_take.
Qed.

Lemma add_then_remove_witness :
  is_closed shared_child 0 = false
  ∧ ∃ h1,
      add 1 0 (Some (TSub 1)) shared_child = Some (Returned tt, h1, [])
      ∧ teardowns_of h1 0 = teardowns_of shared_child 0 ++ [TSub 1]
      ∧ (∀ child, TSub 1 = TSub child → _hasParent (h1 !!! child) 0 = true)
      ∧ (∀ k, teardowns_of (remove 0 (TSub 1) h1) k
              = teardowns_of shared_child k)
      ∧ (∀ k, is_closed (remove 0 (TSub 1) h1) k = is_closed shared_child k)
      ∧ (∀ k p, _hasParent (remove 0 (TSub 1) h1 !!! k) p
                = _hasParent (shared_child !!! k) p).
Proof.
  split; [reflexivity|].
  apply (add_then_remove 0 (TSub 1) shared_child 0); [reflexivity..|].
  intros child [= <-]. repeat apply conj; try done. by left.
Defined.

(** X8 (add, _hasParent, _addParent): a child token is stored once: a
    second [add] of a child the token already holds changes nothing, and
    neither does [add] of a closed child.  A function has no such guard:
    adding it twice stores it twice. *)
Theorem add_twice this h n :
  is_closed h this = false →
  (∀ child, child ≠ this →
     is_closed h child = true ∨ _hasParent (h !!! child) this = true →
     add (S n) this (Some (TSub child)) h = Some (Returned tt, h, []))
  ∧ (∀ child, child ≠ this → is_closed h child = false →
       _hasParent (h !!! child) this = false →
       ∃ h1,
         add (S n) this (Some (TSub child)) h = Some (Returned tt, h1, [])
         ∧ add (S n) this (Some (TSub child)) h1 = Some (Returned tt, h1, [])
         ∧ teardowns_of h1 this = teardowns_of h this ++ [TSub child])
  ∧ (∀ f body,
       ∃ h1 h2,
         add (S n) this (Some (TFun f body)) h = Some (Returned tt, h1, [])
         ∧ add (S n) this (Some (TFun f body)) h1 = Some (Returned tt, h2, [])
         ∧ teardowns_of h2 this
           = teardowns_of h this ++ [TFun f body; TFun f body]).
Proof.
  intros Hopen.
  repeat apply conj.
  - intros child. by apply add_child_noop.
  - intros child Hne Hc Hno. exists (attach this (TSub child) h).
    repeat apply conj.
    + apply add_open; [done|]. by intros ? [= <-].
    + apply add_child_noop; [by rewrite attach_is_closed|done|]. right.
      rewrite attach_lookup, decide_False, decide_True by done. simpl.
      rewrite hasParent_eq. unfold take_parent.
      destruct (_singleParent (h !!! child));
        [|destruct (_parents (h !!! child))]; simpl.
      * by rewrite Nat.eqb_refl, !orb_true_r.
      * rewrite existsb_app. simpl. by rewrite Nat.eqb_refl, !orb_true_r.
      * by rewrite Nat.eqb_refl.
    + by rewrite attach_teardowns_of, decide_True.
  - intros f body.
    exists (attach this (TFun f body) h),
           (attach this (TFun f body) (attach this (TFun f body) h)).
    repeat apply conj.
    + by apply add_open.
    + apply add_open; [by rewrite attach_is_closed|done].
    + rewrite !attach_teardowns_of, !decide_True by done.
      by rewrite <- app_assoc.
Qed.

Lemma add_twice_witness :
  is_closed shared_child 1 = false
  ∧ (∀ child, child ≠ 1 →
       is_closed shared_child child = true
       ∨ _hasParent (shared_child !!! child) 1 = true →
       add 1 1 (Some (TSub child)) shared_child
       = Some (Returned tt, shared_child, []))
  ∧ (∀ child, child ≠ 1 → is_closed shared_child child = false →
       _hasParent (shared_child !!! child) 1 = false →
       ∃ h1,
         add 1 1 (Some (TSub child)) shared_child = Some (Returned tt, h1, [])
         ∧ add 1 1 (Some (TSub child)) h1 = Some (Returned tt, h1, [])
         ∧ teardowns_of h1 1 = teardowns_of shared_child 1 ++ [TSub child])
  ∧ (∀ f body,
       ∃ h1 h2,
         add 1 1 (Some (TFun f body)) shared_child = Some (Returned tt, h1, [])
         ∧ add 1 1 (Some (TFun f body)) h1 = Some (Returned tt, h2, [])
         ∧ teardowns_of h2 1
           = teardowns_of shared_child 1 ++ [TFun f body; TFun f body]).
Proof.
  split; [reflexivity|].
  apply (add_twice 1 shared_child 0). reflexivity.
Defined.

(** X9 (add, _hasParent, _addParent): in a store with exact links,
    [add] of an open child to an open token always ends with the token
    holding the child exactly once and the child listing the token as a
    parent, whether the token held the child before (then nothing
    changes) or not; the links are exact afterwards. *)
Theorem add_child_exact parent child h n :
  linked h →
  is_closed h parent = false → is_closed h child = false → child ≠ parent →
  ∃ h',
    add (S n) parent (Some (TSub child)) h = Some (Returned tt, h', [])
    ∧ occurrences (TSub child) (teardowns_of h' parent) = 1
    ∧ _hasParent (h' !!! child) parent = true
    ∧ (_hasParent (h !!! child) parent = true → h' = h)
    ∧ linked h'.
Proof.
  intros Hl Hp Hc Hne. pose proof Hl as (Htree & Hnd & Hback).
  destruct (Htree parent) as [_ HK].
  destruct (_hasParent (h !!! child) parent) eqn:Hhas.
  - exists h. split; [|split; [|split; [done|split; done]]].
    + apply add_child_noop; auto.
    + by apply HK, Hback.
  - assert (occurrences (TSub child) (teardowns_of h parent) = 0) as H0.
    { destruct (decide
        (occurrences (TSub child) (teardowns_of h parent) = 0)) as [|Hocc];
        [done|]. destruct (HK Hp child I Hocc) as (_ & ? & _). congruence. }
    exists (attach parent (TSub child) h).
    split; [|split; [|split; [|split; [done|]]]].
    + apply add_open; [done|]. by intros ? [= <-].
    + rewrite attach_teardowns_of, decide_True, occurrences_app, H0 by done.
      unfold occurrences. simpl. by rewrite Nat.eqb_refl.
    + rewrite attach_lookup, decide_False, decide_True by done. simpl.
      rewrite take_hasParent by apply Htree.
      by rewrite Nat.eqb_refl, orb_true_r.
    + apply linked_attach; [done..|]. by intros ? [= <-].
Qed.

Lemma add_child_exact_witness :
  linked shared_child
  ∧ ∃ h',
      add 1 0 (Some (TSub 2)) shared_child = Some (Returned tt, h', [])
      ∧ occurrences (TSub 2) (teardowns_of h' 0) = 1
      ∧ _hasParent (h' !!! 2) 0 = true
      ∧ (_hasParent (shared_child !!! 2) 0 = true → h' = shared_child)
      ∧ linked h'.
Proof.
  split; [apply shared_child_linked|].
  apply (add_child_exact 0 2 shared_child 0); [|reflexivity..|discriminate].
  apply shared_child_linked.
Defined.

(** X10 (remove, _removeParent): in a store with exact links, after
    [remove] of a child token from an open token the token does not hold
    the child and the child does not list the token as a parent; the
    links are exact afterwards. *)
Theorem remove_child_exact parent child h :
  linked h → is_closed h parent = false →
  occurrences (TSub child)
    (teardowns_of (remove parent (TSub child) h) parent) = 0
  ∧ _hasParent (remove parent (TSub child) h !!! child) parent = false
  ∧ linked (remove parent (TSub child) h).
Proof.
  intros Hl Hp. pose proof Hl as (Htree & Hnd & Hback).
  destruct (Htree parent) as [_ HK]. split; [|split].
  - rewrite remove_occurrences, decide_True by done.
    destruct (decide
      (occurrences (TSub child) (teardowns_of h parent) = 0)) as [->|Hocc];
      [done|]. by destruct (HK Hp child I Hocc) as (_ & _ & ->).
  - destruct (remove_parents parent (TSub child) h child)
      as (y & H1 & H2 & [[_ ->]|[? _]]); [|done].
    apply drop_hasParent_self.
    + destruct (Htree child) as [Hex _]. unfold exclusive.
      by rewrite H1, H2.
    + intros ps. rewrite H2. apply Hnd.
  - by apply linked_remove.
Qed.

Lemma remove_child_exact_witness :
  linked shared_child
  ∧ occurrences (TSub 2) (teardowns_of (remove 0 (TSub 2) shared_child) 0) = 0
  ∧ _hasParent (remove 0 (TSub 2) shared_child !!! 2) 0 = false
  ∧ linked (remove 0 (TSub 2) shared_child).
Proof.
  split; [apply shared_child_linked|].
  apply (remove_child_exact 0 2 shared_child); [|reflexivity].
  apply shared_child_linked.
Defined.

(** ** Every run *)

(** X11 (unsubscribe, add, remove): whatever a program does, a [closed]
    flag only goes from false to true, and at most once; for a token that
    was closed before, no release action and no teardown pass runs and
    nothing is stored in it. *)
Theorem closed_is_permanent n cs h r h' tr :
  exec_body n cs h = Some (r, h', tr) →
  ∀ s,
    count_closed s tr
    = (if is_closed h s then 0 else if is_closed h' s then 1 else 0)
    ∧ (is_closed h s = true →
       is_closed h' s = true
       ∧ own_events s tr = []
       ∧ teardowns_of h' s `sublist_of` teardowns_of h s).
Proof.
  intros Hrun s. pose proof (exec_body_sound _ _ _ _ _ _ Hrun) as Hok.
  split.
  - pose proof (ok_closed _ _ _ _ Hok s) as Hc.
    destruct (is_closed h s), (is_closed h' s); simpl in Hc; lia.
  - intros Hs. repeat apply conj.
    + by eapply step_ok_mono.
    + by apply (ok_own _ _ _ _ Hok).
    + by apply (ok_stored _ _ _ _ Hok).
Qed.

Lemma closed_is_permanent_witness :
  ∃ r h' tr,
    exec_body 12 [CUnsubscribe 2; CAdd 2 (Some (TFun 9 [CLog 9]));
                  CUnsubscribe 2; CUnsubscribe 0] shared_child
    = Some (r, h', tr)
    ∧ ∀ s,
        count_closed s tr
        = (if is_closed shared_child s then 0
           else if is_closed h' s then 1 else 0)
        ∧ (is_closed shared_child s = true →
           is_closed h' s = true
           ∧ own_events s tr = []
           ∧ teardowns_of h' s `sublist_of` teardowns_of shared_child s).
Proof.
  eexists _, _, _. split; [vm_compute; reflexivity|].
  eapply (closed_is_permanent 12
            [CUnsubscribe 2; CAdd 2 (Some (TFun 9 [CLog 9]));
             CUnsubscribe 2; CUnsubscribe 0] shared_child).
  vm_compute. reflexivity.
Defined.


(** ** What the adapters deliver *)

(** X13 (asyncIterableSource): to a sink that does not throw the async
    adapter delivers the values in order up to the first end or failure,
    then COMPLETE or ERROR, and nothing after it; it does so whether the
    token is open or closed, and whatever the rest of the program does
    between the settlements. *)
Theorem asyncIterableSource_delivers steps sink subs h :
  calm sink →
  ∃ n0 h' tr,
    (∀ n, n0 ≤ n →
       asyncIterableSource steps n SUBSCRIBE sink subs h
       = Some (Returned tt, h', tr))
    ∧ messages tr = deliveries (delivered steps).
Proof.
  intros Hcalm.
  destruct (getNextValue_safe steps sink subs [] h)
    as (n0 & r & h' & tr & H & _).
  destruct (getNextValue_delivers sink subs Hcalm _ _ _ _ _ _ _
              (H n0 (le_n _))) as [-> Hm].
  by exists n0, h', tr.
Qed.

Lemma asyncIterableSource_delivers_witness :
  ∃ n0 h' tr,
    (∀ n, n0 ≤ n →
       asyncIterableSource
         [([], Yield (VNum 1)); ([CUnsubscribe 0], Yield (VNum 2));
          ([], Done); ([], Yield (VNum 3))]
         n SUBSCRIBE dispose_quietly 0 shared_child
       = Some (Returned tt, h', tr))
    ∧ messages tr
      = deliveries
          (delivered
             [([], Yield (VNum 1)); ([CUnsubscribe 0], Yield (VNum 2));
              ([], Done); ([], Yield (VNum 3))]).
Proof.
  apply (asyncIterableSource_delivers
           [([], Yield (VNum 1)); ([CUnsubscribe 0], Yield (VNum 2));
            ([], Done); ([], Yield (VNum 3))]
           dispose_quietly 0 shared_child).
  apply dispose_quietly_calm.
Defined.

(** X14 (promiseSource): the promise adapter reads [closed] once, when
    the promise is fulfilled: on a token open at that moment a sink that
    does not throw receives the value and then COMPLETE, even if it
    disposes the token when it gets the value; a rejection is delivered
    as ERROR whether the token is closed or not; a promise that does not
    settle delivers nothing. *)
Theorem promiseSource_delivers promise env sink subs h :
  calm sink →
  ∃ n0 r1 h1 tr1 h' tr,
    (∀ n, n0 ≤ n → exec_body n env h = Some (r1, h1, tr1))
    ∧ (∀ n, n0 ≤ n →
         promiseSource promise env n SUBSCRIBE sink subs h
         = Some (Returned tt, h', tr))
    ∧ messages tr = deliveries (settled promise (is_closed h1 subs)).
Proof.
  intros Hcalm.
  destruct (exec_body_halts env h) as (n1 & r1 & h1 & tr1 & H1).
  destruct (promiseSource_safe promise env sink subs h)
    as (n2 & r & h' & tr & H2 & _).
  pose proof (H2 (n1 `max` n2) ltac:(lia)) as Hrun.
  cbn [promiseSource] in Hrun.
  apply bind_try_inv in Hrun as (r0 & h0 & tr0 & tr2 & Henv & Hthen & ->).
  rewrite (H1 (n1 `max` n2)) in Henv by lia.
  injection Henv as <- <- <-.
  assert (r = Returned tt
          ∧ messages tr2 = deliveries (settled promise (is_closed h1 subs)))
    as [-> Hm].
  { destruct promise as [[v|err]|]; cbn [settled promiseSource_then] in *.
    - rewrite bind_read in Hthen. unfold is_closed.
      destruct (closed (h1 !!! subs)); simpl in Hthen.
      { by injection Hthen as <- <- <-. }
      apply bind_inv in Hthen as
        [(e & H & ->)|([] & h2 & tr3 & tr4 & Ha & Hb & ->)].
      + by destruct (call_sink_calm _ _ _ _ _ _ _ _ _ _ Hcalm H).
      + destruct (call_sink_calm _ _ _ _ _ _ _ _ _ _ Hcalm Ha) as [_ Hma].
        destruct (call_sink_calm _ _ _ _ _ _ _ _ _ _ Hcalm Hb) as [-> Hmb].
        by rewrite messages_app, Hma, Hmb.
    - by apply (call_sink_calm _ _ _ _ _ _ _ _ _ _ Hcalm Hthen).
    - by injection Hthen as <- <- <-. }
  exists (n1 `max` n2), r1, h1, tr1, h', (tr1 ++ tr2).
  repeat apply conj.
  - intros n Hn. apply H1. lia.
  - intros n Hn. apply H2. lia.
  - by rewrite messages_app, (exec_body_quiet _ _ _ _ _ _ (H1 n1 (le_n _))).
Qed.

Lemma promiseSource_delivers_witness :
  ∃ n0 r1 h1 tr1 h' tr,
    (∀ n, n0 ≤ n → exec_body n [CLog 4] shared_child = Some (r1, h1, tr1))
    ∧ (∀ n, n0 ≤ n →
         promiseSource (Some (Fulfilled (VNum 7))) [CLog 4] n SUBSCRIBE
           dispose_quietly 0 shared_child
         = Some (Returned tt, h', tr))
    ∧ messages tr
      = deliveries (settled (Some (Fulfilled (VNum 7))) (is_closed h1 0)).
Proof.
  apply (promiseSource_delivers (Some (Fulfilled (VNum 7))) [CLog 4]
           dispose_quietly 0 shared_child).
  apply dispose_quietly_calm.
Defined.

(** X15 (symbolObservableSource): with a returned object that has
    [subscribe], the interop adapter forwards every notification to the
    sink, one to one and in order, whatever the token's state and whether
    or not a terminal notification was among them.  With a sink that
    leaves the store alone, an open token afterwards holds one more
    teardown, the one that calls the handle's [unsubscribe]; on a disposed
    token nothing is stored, so the handle is dropped. *)
Theorem symbolObservableSource_forwards emits handle f sink subs h :
  calm sink →
  ∃ n0 h' tr,
    (∀ n, n0 ≤ n →
       symbolObservableSource (ObservableLike emits handle) f n SUBSCRIBE
         sink subs h
       = Some (Returned tt, h', tr))
    ∧ messages tr = deliveries emits
    ∧ (inert sink → is_closed h subs = false →
       occurrences (TFun f []) (teardowns_of h subs) = 0 →
       teardowns_of h' subs
       = teardowns_of h subs ++ [TFun f (default [] handle)])
    ∧ (inert sink → is_closed h subs = true →
       _teardowns (h !!! subs) = None → h' = h).
Proof.
  intros Hcalm.
  destruct (add_halts subs (Some (TFun f [])) h)
    as (n1 & r1 & h1 & tr1 & H1).
  destruct (add_empty_function _ _ _ _ _ _ _ (H1 n1 (le_n _)))
    as (-> & Hm1 & Hh1 & _).
  destruct (forward_halts emits sink subs [] h1)
    as (n2 & r2 & h2 & tr2 & H2).
  destruct (forward_delivers sink subs Hcalm _ _ _ _ _ _ _ (H2 n2 (le_n _)))
    as [-> Hm2].
  exists (n1 `max` n2), (assign_subscription subs f handle h2), (tr1 ++ tr2 ++ []).
  repeat apply conj.
  - intros n Hn. cbn [symbolObservableSource].
    eapply bind_returned; [apply H1; lia|].
    eapply bind_returned; [apply H2; lia|]. done.
  - by rewrite !messages_app, Hm1, Hm2, app_nil_r.
  - intros Hin Hopen Hfresh.
    rewrite (forward_inert sink subs Hin _ _ _ _ _ _ _ (H2 n2 (le_n _))).
    rewrite Hopen in Hh1. subst h1. unfold assign_subscription.
    pose proof (attach_teardowns_of subs (TFun f []) h subs) as Hts.
    rewrite decide_True in Hts by done. unfold teardowns_of in Hts at 1.
    destruct (_teardowns (attach subs (TFun f []) h !!! subs)) as [ts|] eqn:E.
    + simpl in Hts. subst ts. unfold teardowns_of at 1.
      rewrite upd_lookup_eq. simpl. rewrite fmap_app.
      rewrite assign_fresh by done. simpl. by rewrite Nat.eqb_refl.
    + simpl in Hts. by destruct (teardowns_of h subs).
  - intros Hin Hc Hnone.
    rewrite (forward_inert sink subs Hin _ _ _ _ _ _ _ (H2 n2 (le_n _))).
    rewrite Hc in Hh1. subst h1. unfold assign_subscription.
    by rewrite Hnone.
Qed.

Lemma symbolObservableSource_forwards_witness :
  ∃ n0 h' tr,
    (∀ n, n0 ≤ n →
       symbolObservableSource
         (ObservableLike [(NEXT, VNum 1); (COMPLETE, VUndefined); (NEXT, VNum 2)]
            (Some [CLog 6]))
         9 n SUBSCRIBE silent 1 shared_child
       = Some (Returned tt, h', tr))
    ∧ messages tr
      = deliveries [(NEXT, VNum 1); (COMPLETE, VUndefined); (NEXT, VNum 2)]
    ∧ (inert silent → is_closed shared_child 1 = false →
       occurrences (TFun 9 []) (teardowns_of shared_child 1) = 0 →
       teardowns_of h' 1
       = teardowns_of shared_child 1 ++ [TFun 9 (default [] (Some [CLog 6]))])
    ∧ (inert silent → is_closed shared_child 1 = true →
       _teardowns (shared_child !!! 1) = None → h' = shared_child).
Proof.
  apply (symbolObservableSource_forwards
           [(NEXT, VNum 1); (COMPLETE, VUndefined); (NEXT, VNum 2)]
           (Some [CLog 6]) 9 silent 1 shared_child).
  apply inert_calm, silent_inert.
Defined.

(** X16 (iterableSource): over any finite sequence, on an open token and
    with a sink that neither throws nor disposes the token, the adapter
    delivers every item in order and then COMPLETE (only COMPLETE for the
    empty sequence) and returns; on a token that is closed at SUBSCRIBE
    it returns at once, having pulled and delivered nothing. *)
Theorem iterableSource_finite l sink subs h k :
  passive sink subs → length l < k →
  (is_closed h subs = false →
   ∃ n0 h' tr,
     (∀ n, n0 ≤ n →
        iterableSource (of_list l) k n SUBSCRIBE sink subs h
        = Some (Returned Finished, h', tr))
     ∧ messages tr = map (EvMsg NEXT) l ++ [EvMsg COMPLETE VUndefined])
  ∧ (is_closed h subs = true →
     ∀ n, iterableSource (of_list l) k n SUBSCRIBE sink subs h
          = Some (Returned Finished, h, [])).
Proof.
  intros Hp Hk. split.
  - intros Hopen.
    destruct (iterate_of_list l sink subs Hp k 0 [] h Hopen) as
      (n0 & h' & tr & H & Hm); [lia..|].
    exists n0, h', tr. by rewrite drop_0 in Hm.
  - intros Hc n. destruct k as [|k]; [lia|].
    cbn [iterableSource iterate]. rewrite bind_read.
    unfold is_closed in Hc. by rewrite Hc.
Qed.

Lemma iterableSource_finite_witness :
  (is_closed shared_child 0 = false →
   ∃ n0 h' tr,
     (∀ n, n0 ≤ n →
        iterableSource (of_list [VStr "a"; VStr "b"]) 3 n SUBSCRIBE silent 0
          shared_child
        = Some (Returned Finished, h', tr))
     ∧ messages tr
       = map (EvMsg NEXT) [VStr "a"; VStr "b"] ++ [EvMsg COMPLETE VUndefined])
  ∧ (is_closed shared_child 0 = true →
     ∀ n, iterableSource (of_list [VStr "a"; VStr "b"]) 3 n SUBSCRIBE silent 0
            shared_child
          = Some (Returned Finished, shared_child, [])).
Proof.
  apply (iterableSource_finite [VStr "a"; VStr "b"] silent 0 shared_child 3).
  - apply silent_passive.
  - simpl. lia.
Defined.

(** X17 (iterableSource): over a sequence without end, on an open token
    and with a sink that neither throws nor disposes the token, the loop
    never returns: after any number of iterations it is still running,
    has delivered that many items in order, and no COMPLETE. *)
Theorem iterableSource_endless iterable sink subs h k :
  passive sink subs → (∀ i, iterable i ≠ None) →
  is_closed h subs = false →
  ∃ n0 h' tr,
    (∀ n, n0 ≤ n →
       iterableSource iterable k n SUBSCRIBE sink subs h
       = Some (Returned Running, h', tr))
    ∧ messages tr = map (EvMsg NEXT) (omap iterable (seq 0 k))
    ∧ is_closed h' subs = false.
Proof.
  intros Hp Hendless Hopen. cbn [iterableSource].
  by apply iterate_endless.
Qed.

Lemma iterableSource_endless_witness :
  ∃ n0 h' tr,
    (∀ n, n0 ≤ n →
       iterableSource naturals 4 n SUBSCRIBE silent 0 shared_child
       = Some (Returned Running, h', tr))
    ∧ messages tr = map (EvMsg NEXT) (omap naturals (seq 0 4))
    ∧ is_closed h' 0 = false.
Proof.
  apply (iterableSource_endless naturals silent 0 shared_child 4).
  - apply silent_passive.
  - intros i. discriminate.
  - reflexivity.
Defined.



(** X19 (symbolObservableSource, add, unsubscribe): when the sink disposes
    the token during the first notification the foreign [subscribe] sends
    before it returns, the teardown the adapter registered runs then, while
    the handle is not known yet, so it calls nothing; the remaining
    notifications are still forwarded, and in the end the token is closed
    and holds no teardown: the handle's [unsubscribe] is never called. *)
Theorem symbolObservableSource_sync_dispose emits handle f subs h :
  is_closed h subs = false →
  _unsubscribe (h !!! subs) = None →
  _hasParent (h !!! subs) subs = false →
  emits ≠ [] →
  ∃ n0 h' tr,
    (∀ n, n0 ≤ n →
       symbolObservableSource (ObservableLike emits handle) f n SUBSCRIBE
         dispose_quietly subs h
       = Some (Returned tt, h', tr))
    ∧ messages tr = deliveries emits
    ∧ own_events subs tr
      = map (EvTeardown subs) (teardowns_of h subs ++ [TFun f []])
    ∧ is_closed h' subs = true
    ∧ teardowns_of h' subs = [].
Proof.
  intros Hopen Hnone Hself Hemits.
  destruct (add_halts subs (Some (TFun f [])) h)
    as (n1 & r1 & h1 & tr1 & H1).
  destruct (add_empty_function _ _ _ _ _ _ _ (H1 n1 (le_n _)))
    as (-> & _ & Hh1 & Htr1).
  rewrite Hopen in Hh1. rewrite (Htr1 Hopen) in H1. clear Htr1. subst h1.
  set (h1 := attach subs (TFun f []) h) in *.
  destruct (forward_halts emits dispose_quietly subs [] h1)
    as (n2 & r2 & h2 & tr2 & H2).
  pose proof (H2 n2 (le_n _)) as Hrun.
  destruct (forward_delivers _ subs dispose_quietly_calm _ _ _ _ _ _ _ Hrun)
    as [-> Hm2].
  assert (is_closed h1 subs = false) as Hopen1.
  { unfold h1. by rewrite attach_is_closed. }
  assert (h1 !!! subs
          = set_teardowns (Some (teardowns_of h subs ++ [TFun f []]))
              (h !!! subs)) as Hrec.
  { unfold h1. by rewrite attach_lookup, decide_True. }
  assert (own_events subs tr2
          = map (EvTeardown subs) (teardowns_of h subs ++ [TFun f []])
          ∧ is_closed h2 subs = true ∧ teardowns_of h2 subs = [])
    as (Hown & Hc2 & Hts2).
  { destruct emits as [|[type payload] emits]; [done|].
    cbn [forward] in Hrun.
    apply bind_inv in Hrun as
      [(e & H & [=])|([] & h3 & tr3 & tr4 & Ha & Hb & ->)].
    apply call_sink_inv in Ha as (tr' & Ha & -> & _).
    apply dispose_quietly_inv in Ha as (m & r0 & Hu).
    destruct (unsubscribe_open _ _ _ _ _ _ Hopen1 Hu)
      as (r0' & h1' & tr1' & rs & tr2' & Hrel & Hpass & -> & _).
    fold (pass_start subs h1) in Hrel.
    destruct (unsubscribe_own_events _ _ _ _ _ _ _ _ Hrel Hpass)
      as (Hown & _ & _ & _ & Hok).
    destruct (released_nothing _ _ _ _ _ Hrel) as (_ & -> & ->).
    { by rewrite Hrec. }
    rewrite pass_start_teardowns in Hown by (by rewrite Hrec).
    unfold release_events in Hown. rewrite Hrec in Hown. simpl in Hown.
    rewrite Hnone in Hown. simpl in Hown.
    assert (teardowns_of h1 subs = teardowns_of h subs ++ [TFun f []]) as Hts.
    { unfold teardowns_of at 1. by rewrite Hrec. }
    rewrite Hts in Hown.
    pose proof (unsubscribe_closes _ _ _ _ _ _ Hu) as Hc3.
    assert (teardowns_of h3 subs = []) as Hts3.
    { assert (is_closed (upd subs (set_teardowns None) (pass_start subs h1))
                subs = true) as Hcc.
      { unfold is_closed. rewrite upd_lookup_eq. apply pass_start_closed. }
      pose proof (ok_stored _ _ _ _ Hok subs Hcc) as Hsub.
      unfold teardowns_of at 2 in Hsub. rewrite upd_lookup_eq in Hsub.
      simpl in Hsub. by apply sublist_nil_r in Hsub. }
    destruct (forward_closed _ _ _ _ _ _ _ _ _ Hb Hc3) as (Ho4 & Hc4 & Hs4).
    repeat apply conj; [|done|].
    - rewrite own_events_app, Ho4, app_nil_r. exact Hown.
    - rewrite Hts3 in Hs4. by apply sublist_nil_r in Hs4. }
  destruct (assign_subscription_lookup subs f handle h2) as [Hac Hat].
  exists (n1 `max` n2), (assign_subscription subs f handle h2),
    ([] ++ tr2 ++ []).
  repeat apply conj.
  - intros n Hn. cbn [symbolObservableSource].
    eapply bind_returned; [apply H1; lia|].
    eapply bind_returned; [apply H2; lia|]. done.
  - by rewrite app_nil_r.
  - by rewrite app_nil_r.
  - by rewrite Hac.
  - by apply Hat.
Qed.

Lemma symbolObservableSource_sync_dispose_witness :
  is_closed shared_child 1 = false
  ∧ ∃ n0 h' tr,
      (∀ n, n0 ≤ n →
         symbolObservableSource
           (ObservableLike [(NEXT, VNum 1); (NEXT, VNum 2)] (Some [CLog 6]))
           9 n SUBSCRIBE dispose_quietly 1 shared_child
         = Some (Returned tt, h', tr))
      ∧ messages tr = deliveries [(NEXT, VNum 1); (NEXT, VNum 2)]
      ∧ own_events 1 tr
        = map (EvTeardown 1) (teardowns_of shared_child 1 ++ [TFun 9 []])
      ∧ is_closed h' 1 = true
      ∧ teardowns_of h' 1 = [].
Proof.
  split; [reflexivity|].
  apply (symbolObservableSource_sync_dispose
           [(NEXT, VNum 1); (NEXT, VNum 2)] (Some [CLog 6]) 9 1 shared_child);
    [reflexivity..|discriminate].
Defined.
